(** * Private-data store of the ledger: model and verified properties

    Shallow embedding of the private-data storage engine
    (package [pvtdatastorage], file [store_impl.go]) and of the hash
    validation of reconciled private data (package [kvledger]).

    Conventions of the embedding:
    - a Go [uint64] is an [N]; the only arithmetic the store performs on it
      ([lastCommittedBlock + 1]) has its wrap-around written out;
    - the LevelDB handle is a finite map from structured keys to structured
      values.  The byte codec ([kv_encoding.go]) is not part of the sources at
      hand: a key is identified with the structure it encodes (the codec is
      injective and the key families have distinct prefixes), and a value that
      does not decode as the family of its key expects stands for corrupted
      bytes;
    - a Go function returning [(T, error)] returns [res T]; a method that
      mutates the receiver returns the new store next to its outcome;
    - the write of an update batch is atomic and may fail: the caller of the
      model passes the verdict of the storage layer as a boolean. *)

From Stdlib Require Import NArith ZArith Lia.
From Stdlib Require Import Strings.Byte.
From stdpp Require Import gmap strings list fin_maps sorting pretty.

Local Open Scope N_scope.

(** ** Machine integers *)

Definition uint64_modulus : N := 2 ^ 64.
Definition MaxUint64 : N := uint64_modulus - 1.

(** Addition of [uint64] values wraps around. *)
Definition add64 (a b : N) : N := (a + b) mod uint64_modulus.

(** ** Errors

    The three typed errors of [store_impl.go], and the errors handed back by
    a collaborator (codec, BTL policy, key-value store), which the store
    propagates unchanged. *)

Inductive error : Type :=
| ErrIllegalCall (msg : string)
| ErrIllegalArgs (msg : string)
| ErrOutOfRange (msg : string)
| ErrCollaborator (msg : string).

Inductive res (A : Type) : Type :=
| Ok (a : A)
| Err (e : error).
Arguments Ok {A} a.
Arguments Err {A} e.

Global Instance res_ret : MRet res := λ A a, Ok a.
Global Instance res_bind : MBind res := λ A B k r,
  match r with
  | Ok a => k a
  | Err e => Err e
  end.

Global Instance res_fmap : FMap res := λ A B f r,
  match r with
  | Ok a => Ok (f a)
  | Err e => Err e
  end.

(** A collaborator reports a failure by its message. *)
Definition lift {A : Type} (r : string + A) : res A :=
  match r with
  | inl msg => Err (ErrCollaborator msg)
  | inr a => Ok a
  end.

Definition isOutOfRange (e : error) : bool :=
  match e with ErrOutOfRange _ => true | _ => false end.

Definition isIllegalArgs (e : error) : bool :=
  match e with ErrIllegalArgs _ => true | _ => false end.

(** ** Keys *)

Record nsCollBlk : Type := NsCollBlk {
  ns : string;
  coll : string;
  blkNum : N
}.

Record dataKey : Type := DataKey {
  dataNsCollBlk : nsCollBlk;
  txNum : N
}.

Record expiryKey : Type := ExpiryKey {
  expiringBlk : N;
  committingBlk : N
}.

Record missingDataKey : Type := MissingDataKey {
  missingNsCollBlk : nsCollBlk;
  isEligible : bool
}.

(** The key families of the store; every family has its own prefix byte. *)
Inductive Key : Type :=
| KData (k : dataKey)
| KExpiry (k : expiryKey)
| KMissingData (k : missingDataKey)
| KCollElg (blk : N)
| KLastCommittedBlk
| KPendingCommit
| KLastUpdatedOldBlocks.

Global Instance nsCollBlk_eq_dec : EqDecision nsCollBlk.
Proof. solve_decision. Defined.
Global Instance dataKey_eq_dec : EqDecision dataKey.
Proof. solve_decision. Defined.
Global Instance expiryKey_eq_dec : EqDecision expiryKey.
Proof. solve_decision. Defined.
Global Instance missingDataKey_eq_dec : EqDecision missingDataKey.
Proof. solve_decision. Defined.
Global Instance Key_eq_dec : EqDecision Key.
Proof. solve_decision. Defined.

Global Instance nsCollBlk_countable : Countable nsCollBlk.
Proof.
  refine (inj_countable' (λ k, (ns k, coll k, blkNum k))
            (λ t, NsCollBlk t.1.1 t.1.2 t.2) _).
  by intros [].
Defined.
Global Instance dataKey_countable : Countable dataKey.
Proof.
  refine (inj_countable' (λ k, (dataNsCollBlk k, txNum k))
            (λ t, DataKey t.1 t.2) _).
  by intros [].
Defined.
Global Instance expiryKey_countable : Countable expiryKey.
Proof.
  refine (inj_countable' (λ k, (expiringBlk k, committingBlk k))
            (λ t, ExpiryKey t.1 t.2) _).
  by intros [].
Defined.
Global Instance missingDataKey_countable : Countable missingDataKey.
Proof.
  refine (inj_countable' (λ k, (missingNsCollBlk k, isEligible k))
            (λ t, MissingDataKey t.1 t.2) _).
  by intros [].
Defined.
Global Instance Key_countable : Countable Key.
Proof.
  refine (inj_countable'
    (λ k, match k with
          | KData d => inl (inl d)
          | KExpiry e => inl (inr e)
          | KMissingData m => inr (inl m)
          | KCollElg b => inr (inr (inl b))
          | KLastCommittedBlk => inr (inr (inr 0%nat))
          | KPendingCommit => inr (inr (inr 1%nat))
          | KLastUpdatedOldBlocks => inr (inr (inr 2%nat))
          end)
    (λ t, match t with
          | inl (inl d) => KData d
          | inl (inr e) => KExpiry e
          | inr (inl m) => KMissingData m
          | inr (inr (inl b)) => KCollElg b
          | inr (inr (inr 0%nat)) => KLastCommittedBlk
          | inr (inr (inr 1%nat)) => KPendingCommit
          | inr (inr (inr _)) => KLastUpdatedOldBlocks
          end) _).
  by intros [].
Defined.

(** ** Values *)

Global Instance byte_eq_dec : EqDecision byte.
Proof.
  intros x y. destruct (Byte.eqb x y) eqn:E.
  - left. by apply Byte.byte_dec_bl.
  - right. intros ->. by rewrite Byte.byte_dec_lb in E.
Defined.

(** The private read/write sets of package [rwset]. *)
Record CollectionPvtReadWriteSet : Type := {
  CollectionName : string;
  Rwset : list byte
}.

Record NsPvtReadWriteSet : Type := {
  Namespace : string;
  CollectionPvtRwset : list CollectionPvtReadWriteSet
}.

Record TxPvtReadWriteSet : Type := {
  NsPvtRwset : list NsPvtReadWriteSet
}.

(** [ledger.TxPvtData] *)
Record TxPvtData : Type := {
  SeqInBlock : N;
  WriteSet : TxPvtReadWriteSet
}.

(** [ledger.MissingPvtData] and [ledger.TxMissingPvtDataMap]; the Go map from
    txNum is given by the enumeration of its entries. *)
Record MissingPvtData : Type := {
  mpNamespace : string;
  mpCollection : string;
  mpIsEligible : bool
}.

Definition TxMissingPvtDataMap : Type := list (N * list MissingPvtData).

(** [bitset.BitSet]: the bit at index [i] is bit [i] of the number. *)
Definition BitSet : Type := N.

Definition bitsetSet (b : BitSet) (i : N) : BitSet := N.setbit b i.
Definition bitsetClear (b : BitSet) (i : N) : BitSet := N.clearbit b i.
Definition bitsetTest (b : BitSet) (i : N) : bool := N.testbit b i.
Definition bitsetNone (b : BitSet) : bool := b =? 0.

Fixpoint posSetBits (p : positive) (i : N) : list N :=
  match p with
  | xH => [i]
  | xO q => posSetBits q (N.succ i)
  | xI q => i :: posSetBits q (N.succ i)
  end.

(** The indices visited by the [NextSet] loop, in increasing order. *)
Definition bitsetSetBits (b : BitSet) : list N :=
  match b with
  | N0 => []
  | Npos p => posSetBits p 0
  end.

(** Modelled from the spec: [ExpiryData] (persistent_msgs) is not among the
    sources.  Per the data model it holds, for the (namespace, collection)
    pairs committed at one block, the txNums whose data is present and the
    set of pairs whose data is missing. *)
Record ExpiryData : Type := {
  presentData : gmap (string * string) (list N);
  missingData : gset (string * string)
}.

Definition newExpiryData : ExpiryData :=
  {| presentData := ∅; missingData := ∅ |}.

Definition addPresentData (e : ExpiryData) (n c : string) (tx : N) : ExpiryData :=
  {| presentData :=
       <[(n, c) := default [] (presentData e !! (n, c)) ++ [tx]]> (presentData e);
     missingData := missingData e |}.

Definition addMissingData (e : ExpiryData) (n c : string) : ExpiryData :=
  {| presentData := presentData e;
     missingData := {[(n, c)]} ∪ missingData e |}.

(** What a key of the store can hold. [VOpaque] stands for every other byte
    string: the values of the families not modelled in detail, and corrupted
    bytes. *)
Inductive Value : Type :=
| VData (v : CollectionPvtReadWriteSet)
| VExpiry (v : ExpiryData)
| VBitmap (v : BitSet)
| VBlockNum (v : N)
| VOpaque (raw : list byte).

Definition encodeDataValue (v : CollectionPvtReadWriteSet) : Value := VData v.
Definition encodeExpiryValue (v : ExpiryData) : Value := VExpiry v.
Definition encodeMissingDataValue (v : BitSet) : Value := VBitmap v.
Definition encodeLastCommittedBlockVal (v : N) : Value := VBlockNum v.

Definition decodeDataValue (v : Value) : res CollectionPvtReadWriteSet :=
  match v with
  | VData d => Ok d
  | _ => Err (ErrCollaborator "cannot decode the data value")
  end.

Definition decodeExpiryValue (v : Value) : res ExpiryData :=
  match v with
  | VExpiry d => Ok d
  | _ => Err (ErrCollaborator "cannot decode the expiry value")
  end.

Definition decodeMissingDataValue (v : Value) : res BitSet :=
  match v with
  | VBitmap d => Ok d
  | _ => Err (ErrCollaborator "cannot decode the missing data value")
  end.

Definition decodeDatakey (k : Key) : res dataKey :=
  match k with
  | KData d => Ok d
  | _ => Err (ErrCollaborator "cannot decode the data key")
  end.

(** ** The key-value store and its update batches *)

Abbreviation DB := (gmap Key Value).

(** [leveldbhelper.UpdateBatch]: a key is bound to its new value, or to
    nothing when it is to be deleted. *)
Abbreviation UpdateBatch := (gmap Key (option Value)).

Definition NewUpdateBatch : UpdateBatch := ∅.
Definition Put (k : Key) (v : Value) (b : UpdateBatch) : UpdateBatch := <[k := Some v]> b.
Definition Delete (k : Key) (b : UpdateBatch) : UpdateBatch := <[k := None]> b.

Definition applyBatch (b : UpdateBatch) (d : DB) : DB :=
  merge (λ ob od, match ob with Some o => o | None => od end) b d.

(** [WriteBatch]: all of the batch is applied, or nothing is and the error of
    the storage layer is returned. *)
Definition WriteBatch (d : DB) (b : UpdateBatch) (writeOk : bool) : DB * option error :=
  if writeOk then (applyBatch b d, None)
  else (d, Some (ErrCollaborator "error writing the batch")).

(** ** The BTL policy and the store *)

(** [pvtdatapolicy.BTLPolicy], the collaborator that computes expiry heights. *)
Record BTLPolicy : Type := {
  GetExpiringBlock : string → string → N → string + N
}.

Record Store : Type := {
  db : DB;
  btlPolicy : BTLPolicy;
  purgeInterval : N;
  isEmpty : bool;
  lastCommittedBlock : N;
  isLastUpdatedOldBlocksSet : bool
}.

Record dataEntry : Type := {
  dataEntryKey : dataKey;
  dataEntryValue : CollectionPvtReadWriteSet
}.

Record expiryEntry : Type := {
  expiryEntryKey : expiryKey;
  expiryEntryValue : ExpiryData
}.

Record storeEntries : Type := {
  dataEntries : list dataEntry;
  expiryEntries : list expiryEntry;
  missingDataEntries : gmap missingDataKey BitSet
}.

Record entriesForPvtDataOfOldBlocks : Type := {
  oldDataEntries : gmap dataKey CollectionPvtReadWriteSet;
  oldExpiryEntries : gmap expiryKey ExpiryData;
  oldMissingDataEntries : gmap nsCollBlk BitSet
}.

(** ** Helpers of the package that are not among the sources ([helper.go])

    Each is written from the description of the Entry Builder, of the purge
    sweep and of the read path in the specification. *)

(** Modelled from the spec: [neverExpires] recognises the never-expires
    sentinel of the BTL policy; of the two values the specification allows
    for the sentinel, the maximal height is taken. *)
Definition neverExpires (expiringBlkNum : N) : bool := expiringBlkNum =? MaxUint64.

(** Modelled from the spec: [isExpired] asks the BTL policy for the expiry
    height of the entry; the entry is expired when it has one (it is not of a
    never-expiring collection) and the given height has reached it. *)
Definition isExpired (key : nsCollBlk) (btl : BTLPolicy) (latestBlkNum : N) : res bool :=
  expBlk ← lift (GetExpiringBlock btl (ns key) (coll key) (blkNum key));
  Ok (negb (neverExpires expBlk) && (expBlk <=? latestBlkNum)).

(** Modelled from the spec: [prepareDataEntries] makes one data entry per
    transaction, namespace and collection of the supplied write-sets. *)
Definition prepareDataEntries (blockNum : N) (pvtData : list TxPvtData) : list dataEntry :=
  txPvtData ← pvtData;
  nsPvtdata ← NsPvtRwset (WriteSet txPvtData);
  collPvtdata ← CollectionPvtRwset nsPvtdata;
  [ {| dataEntryKey :=
         DataKey (NsCollBlk (Namespace nsPvtdata) (CollectionName collPvtdata) blockNum)
                 (SeqInBlock txPvtData);
       dataEntryValue := collPvtdata |} ].

Definition setMissingBit (blockNum txNum : N) (m : gmap missingDataKey BitSet)
    (missing : MissingPvtData) : gmap missingDataKey BitSet :=
  let key := MissingDataKey
               (NsCollBlk (mpNamespace missing) (mpCollection missing) blockNum)
               (mpIsEligible missing) in
  <[key := bitsetSet (default 0 (m !! key)) txNum]> m.

(** Modelled from the spec: [prepareMissingDataEntries] makes one bitmap per
    distinct (namespace, collection, eligibility), with one bit set per
    affected txNum. *)
Definition prepareMissingDataEntries (blockNum : N) (missingPvtData : TxMissingPvtDataMap)
    : gmap missingDataKey BitSet :=
  foldl (λ m tx, foldl (setMissingBit blockNum tx.1) m tx.2) ∅ missingPvtData.

Definition getOrCreateExpiryData (m : gmap N ExpiryData) (expBlk : N) : ExpiryData :=
  default newExpiryData (m !! expBlk).

Definition prepareExpiryEntriesForPresentData (btl : BTLPolicy)
    (m : gmap N ExpiryData) (key : dataKey) : res (gmap N ExpiryData) :=
  let k := dataNsCollBlk key in
  expBlk ← lift (GetExpiringBlock btl (ns k) (coll k) (blkNum k));
  if neverExpires expBlk then Ok m
  else Ok (<[expBlk :=
              addPresentData (getOrCreateExpiryData m expBlk) (ns k) (coll k) (txNum key)]> m).

Definition prepareExpiryEntriesForMissingData (btl : BTLPolicy)
    (m : gmap N ExpiryData) (key : missingDataKey) : res (gmap N ExpiryData) :=
  let k := missingNsCollBlk key in
  expBlk ← lift (GetExpiringBlock btl (ns k) (coll k) (blkNum k));
  if neverExpires expBlk then Ok m
  else Ok (<[expBlk :=
              addMissingData (getOrCreateExpiryData m expBlk) (ns k) (coll k)]> m).

(** A loop whose body can fail: the first error ends it. *)
Fixpoint foldRes {A B : Type} (f : B → A → res B) (b : B) (l : list A) : res B :=
  match l with
  | [] => Ok b
  | a :: l' => b' ← f b a; foldRes f b' l'
  end.

(** Modelled from the spec: [prepareExpiryEntries] makes one expiry entry per
    distinct (expiringBlk, blockNum) met, the present and the missing sets
    merged over the transactions of the block; a never-expiring collection
    contributes nothing. *)
Definition prepareExpiryEntries (committingBlk : N) (dataEntries : list dataEntry)
    (missingDataEntries : gmap missingDataKey BitSet) (btl : BTLPolicy)
    : res (list expiryEntry) :=
  m1 ← foldRes (prepareExpiryEntriesForPresentData btl) ∅ (dataEntryKey <$> dataEntries);
  m2 ← foldRes (prepareExpiryEntriesForMissingData btl) m1
         ((map_to_list missingDataEntries).*1);
  Ok ((λ kv, {| expiryEntryKey := ExpiryKey kv.1 committingBlk;
                expiryEntryValue := kv.2 |}) <$> map_to_list m2).

(** Modelled from the spec: [prepareStoreEntries], the Entry Builder. *)
Definition prepareStoreEntries (blockNum : N) (pvtData : list TxPvtData)
    (btl : BTLPolicy) (missingPvtData : TxMissingPvtDataMap) : res storeEntries :=
  let dataEntries := prepareDataEntries blockNum pvtData in
  let missingDataEntries := prepareMissingDataEntries blockNum missingPvtData in
  expiryEntries ← prepareExpiryEntries blockNum dataEntries missingDataEntries btl;
  Ok {| dataEntries := dataEntries;
        expiryEntries := expiryEntries;
        missingDataEntries := missingDataEntries |}.

(** Modelled from the spec: [deriveKeys] lists the data keys and the
    missing-data keys (of both eligibility partitions) that an expiry entry
    stands for. *)
Definition deriveKeys (expiryEntry : expiryEntry) : list dataKey * list missingDataKey :=
  let blk := committingBlk (expiryEntryKey expiryEntry) in
  let value := expiryEntryValue expiryEntry in
  (nc ← map_to_list (presentData value);
     (λ tx, DataKey (NsCollBlk nc.1.1 nc.1.2 blk) tx) <$> nc.2,
   nc ← elements (missingData value);
     [MissingDataKey (NsCollBlk nc.1 nc.2 blk) true;
      MissingDataKey (NsCollBlk nc.1 nc.2 blk) false]).

(** [ledger.PvtNsCollFilter]; [None] is the nil filter. *)
Definition PvtNsCollFilter : Type := option (gset (string * string)).

(** Modelled from the spec: [passesFilter]; a nil filter excludes nothing. *)
Definition passesFilter (dataKey : dataKey) (filter : PvtNsCollFilter) : bool :=
  match filter with
  | None => true
  | Some f => bool_decide ((ns (dataNsCollBlk dataKey), coll (dataNsCollBlk dataKey)) ∈ f)
  end.

(** *** Range scans

    An iterator yields the entries of a key range in the order of the encoded
    keys.  The range-scan helpers of the codec are not among the sources, so a
    range is given by the keys it selects and the order by a comparison of the
    structured keys. *)

Definition lexCmp (c1 c2 : comparison) : comparison :=
  match c1 with
  | Eq => c2
  | _ => c1
  end.

(** Lexicographic comparison of pairs. *)
Definition pairCmp {A B : Type} (ca : A → A → comparison) (cb : B → B → comparison)
    (x y : A * B) : comparison :=
  lexCmp (ca x.1 y.1) (cb x.2 y.2).

(** Comparison through the fields that the encoding of a key lays out. *)
Definition cmpVia {K T : Type} (fields : K → T) (cmp : T → T → comparison)
    (a b : K) : comparison :=
  cmp (fields a) (fields b).

Definition revCmp {A : Type} (cmp : A → A → comparison) (x y : A) : comparison :=
  cmp y x.

(** Data keys sort by block, then transaction, then namespace and collection. *)
Definition dataKeyCompare : dataKey → dataKey → comparison :=
  cmpVia (λ k, (blkNum (dataNsCollBlk k), (txNum k,
                 (ns (dataNsCollBlk k), coll (dataNsCollBlk k)))))
    (pairCmp N.compare (pairCmp N.compare (pairCmp String.compare String.compare))).

(** Expiry keys sort by expiring block, then committing block. *)
Definition expiryKeyCompare : expiryKey → expiryKey → comparison :=
  cmpVia (λ k, (expiringBlk k, committingBlk k)) (pairCmp N.compare N.compare).

(** Eligible missing-data keys sort by decreasing block number, so that a scan
    walks backward from the most recent block; then by namespace and
    collection. *)
Definition eligibleMissingDataKeyCompare : missingDataKey → missingDataKey → comparison :=
  cmpVia (λ k, (blkNum (missingNsCollBlk k),
                 (ns (missingNsCollBlk k), coll (missingNsCollBlk k))))
    (pairCmp (revCmp N.compare) (pairCmp String.compare String.compare)).

Definition keyLe {K : Type} (cmp : K → K → comparison) (a b : K * Value) : Prop :=
  cmp a.1 b.1 ≠ Gt.

Global Instance keyLe_dec {K : Type} (cmp : K → K → comparison) (a b : K * Value) :
  Decision (keyLe cmp a b).
Proof. unfold keyLe. destruct (cmp a.1 b.1); [left | left | right]; congruence. Defined.

Definition GetIterator {K : Type} (inRange : Key → option K) (cmp : K → K → comparison)
    (d : DB) : list (K * Value) :=
  merge_sort (keyLe cmp)
    (omap (λ kv, match inRange kv.1 with
                 | Some k => Some (k, kv.2)
                 | None => None
                 end) (map_to_list d)).

(** Modelled from the spec: the range of all data entries of one block. *)
Definition getDataKeysForRangeScanByBlockNum (blockNum : N) (k : Key) : option dataKey :=
  match k with
  | KData d => if blkNum (dataNsCollBlk d) =? blockNum then Some d else None
  | _ => None
  end.

(** Modelled from the spec: the range of all expiry entries whose expiring
    block lies in the window. *)
Definition getExpiryKeysForRangeScan (minBlkNum maxBlkNum : N) (k : Key) : option expiryKey :=
  match k with
  | KExpiry e =>
      if (minBlkNum <=? expiringBlk e) && (expiringBlk e <=? maxBlkNum) then Some e else None
  | _ => None
  end.

(** Modelled from the spec: the range of the eligible missing-data entries up
    to a committed height. *)
Definition createRangeScanKeysForEligibleMissingDataEntries (blkNum' : N) (k : Key)
    : option missingDataKey :=
  match k with
  | KMissingData m =>
      if isEligible m && (blkNum (missingNsCollBlk m) <=? blkNum') then Some m else None
  | _ => None
  end.

(** *** Assembling the result of a read *)

(** Modelled from the spec: [txPvtdataAssembler] gathers the collection
    write-sets of one transaction, consecutive entries of one namespace going
    into one namespace write-set. *)
Record txPvtdataAssembler : Type := {
  asmTxNum : N;
  asmNsWsets : list NsPvtReadWriteSet;
  asmCurrentNsWSet : option NsPvtReadWriteSet
}.

Definition newTxPvtdataAssembler (blockNum txNum' : N) : txPvtdataAssembler :=
  {| asmTxNum := txNum'; asmNsWsets := []; asmCurrentNsWSet := None |}.

Definition assemblerAdd (a : txPvtdataAssembler) (ns' : string)
    (collPvtWset : CollectionPvtReadWriteSet) : txPvtdataAssembler :=
  match asmCurrentNsWSet a with
  | None =>
      {| asmTxNum := asmTxNum a; asmNsWsets := asmNsWsets a;
         asmCurrentNsWSet :=
           Some {| Namespace := ns'; CollectionPvtRwset := [collPvtWset] |} |}
  | Some cur =>
      if decide (Namespace cur = ns') then
        {| asmTxNum := asmTxNum a; asmNsWsets := asmNsWsets a;
           asmCurrentNsWSet :=
             Some {| Namespace := ns';
                     CollectionPvtRwset := CollectionPvtRwset cur ++ [collPvtWset] |} |}
      else
        {| asmTxNum := asmTxNum a; asmNsWsets := asmNsWsets a ++ [cur];
           asmCurrentNsWSet :=
             Some {| Namespace := ns'; CollectionPvtRwset := [collPvtWset] |} |}
  end.

Definition getTxPvtdata (a : txPvtdataAssembler) : TxPvtData :=
  {| SeqInBlock := asmTxNum a;
     WriteSet := {| NsPvtRwset := asmNsWsets a ++ option_list (asmCurrentNsWSet a) |} |}.

(** [ledger.MissingPvtDataInfo]: block number, then transaction number, to
    the list of (namespace, collection) whose data is missing. *)
Abbreviation MissingPvtDataInfo := (gmap N (gmap N (list (string * string)))).

(** Modelled from the spec: [MissingPvtDataInfo.Add]. *)
Definition missingInfoAdd (info : MissingPvtDataInfo) (blk tx : N) (n c : string)
    : MissingPvtDataInfo :=
  let blockInfo := default ∅ (info !! blk) in
  <[blk := <[tx := default [] (blockInfo !! tx) ++ [(n, c)]]> blockInfo]> info.

(** ** The store ([store_impl.go]) *)

(** What a call does: it returns, with an error or with nil, or it panics. *)
Inductive outcome : Type :=
| Returned (err : option error)
| Panicked (msg : string).

Definition nextBlockNum (s : Store) : N :=
  if isEmpty s then 0 else add64 (lastCommittedBlock s) 1.

Definition LastCommittedBlockHeight (s : Store) : N :=
  if isEmpty s then 0 else add64 (lastCommittedBlock s) 1.

Definition Init (s : Store) (btl : BTLPolicy) : Store :=
  {| db := db s; btlPolicy := btl; purgeInterval := purgeInterval s;
     isEmpty := isEmpty s; lastCommittedBlock := lastCommittedBlock s;
     isLastUpdatedOldBlocksSet := isLastUpdatedOldBlocksSet s |}.

(** The state of a store right after [OpenStore] on a fresh database. *)
Definition newStore (btl : BTLPolicy) (interval : N) : Store :=
  {| db := ∅; btlPolicy := btl; purgeInterval := interval;
     isEmpty := true; lastCommittedBlock := 0;
     isLastUpdatedOldBlocksSet := false |}.

Definition setDB (s : Store) (d : DB) : Store :=
  {| db := d; btlPolicy := btlPolicy s; purgeInterval := purgeInterval s;
     isEmpty := isEmpty s; lastCommittedBlock := lastCommittedBlock s;
     isLastUpdatedOldBlocksSet := isLastUpdatedOldBlocksSet s |}.

Definition illegalArgsMsg (expectedBlockNum blockNum : N) : string :=
  "Expected block number=" +:+ pretty expectedBlockNum +:+
  ", received block number=" +:+ pretty blockNum.

(** [performPurgeIfScheduled] starts a goroutine that purges the window
    [0, latestCommittedBlk]; the model returns that window when the purge is
    due.  The remainder by a zero interval is a run-time panic. *)
Definition performPurgeIfScheduled (s : Store) (latestCommittedBlk : N)
    : option (option (N * N)) :=
  if purgeInterval s =? 0 then None
  else if negb (latestCommittedBlk mod purgeInterval s =? 0) then Some None
  else Some (Some (0, latestCommittedBlk)).

Definition Commit (s : Store) (blockNum : N) (pvtData : list TxPvtData)
    (missingPvtData : TxMissingPvtDataMap) (writeOk : bool)
    : Store * outcome * option (N * N) :=
  let expectedBlockNum := nextBlockNum s in
  if negb (expectedBlockNum =? blockNum) then
    (s, Returned (Some (ErrIllegalArgs (illegalArgsMsg expectedBlockNum blockNum))), None)
  else
    let batch := NewUpdateBatch in
    match prepareStoreEntries blockNum pvtData (btlPolicy s) missingPvtData with
    | Err err => (s, Returned (Some err), None)
    | Ok storeEntries =>
        let batch :=
          foldl (λ b dataEntry,
                   Put (KData (dataEntryKey dataEntry))
                       (encodeDataValue (dataEntryValue dataEntry)) b)
                batch (dataEntries storeEntries) in
        let batch :=
          foldl (λ b expiryEntry,
                   Put (KExpiry (expiryEntryKey expiryEntry))
                       (encodeExpiryValue (expiryEntryValue expiryEntry)) b)
                batch (expiryEntries storeEntries) in
        let batch :=
          foldl (λ b kv, Put (KMissingData kv.1) (encodeMissingDataValue kv.2) b)
                batch (map_to_list (missingDataEntries storeEntries)) in
        let committingBlockNum := nextBlockNum s in
        let batch :=
          Put KLastCommittedBlk (encodeLastCommittedBlockVal committingBlockNum) batch in
        match WriteBatch (db s) batch writeOk with
        | (_, Some err) => (s, Returned (Some err), None)
        | (d, None) =>
            let s' :=
              {| db := d; btlPolicy := btlPolicy s; purgeInterval := purgeInterval s;
                 isEmpty := false; lastCommittedBlock := committingBlockNum;
                 isLastUpdatedOldBlocksSet := isLastUpdatedOldBlocksSet s |} in
            match performPurgeIfScheduled s' committingBlockNum with
            | None => (s', Panicked "integer divide by zero", None)
            | Some purge => (s', Returned None, purge)
            end
        end
    end.

(** *** Committing the private data of old blocks *)

(** The Go map [blocksPvtData] is given by the enumeration of its entries, in
    the order in which the [range] loop happens to visit them. *)
Definition constructDataEntriesFromBlocksPvtData (blocksPvtData : list (N * list TxPvtData))
    : list dataEntry :=
  foldl (λ dataEntries bp, dataEntries ++ prepareDataEntries bp.1 bp.2) [] blocksPvtData.

Definition constructExpiryKeyFromDataEntry (s : Store) (dataEntry : dataEntry) : res expiryKey :=
  let nsCollBlk := dataNsCollBlk (dataEntryKey dataEntry) in
  expBlk ← lift (GetExpiringBlock (btlPolicy s) (ns nsCollBlk) (coll nsCollBlk) (blkNum nsCollBlk));
  Ok (ExpiryKey expBlk (blkNum nsCollBlk)).

(** [nil] is [None]: the key is not in the store. *)
Definition getExpiryDataOfExpiryKey (s : Store) (expiryKey : expiryKey)
    : res (option ExpiryData) :=
  match db s !! KExpiry expiryKey with
  | None => Ok None
  | Some v => Some <$> decodeExpiryValue v
  end.

Definition getBitmapOfMissingDataKey (s : Store) (missingDataKey : missingDataKey)
    : res (option BitSet) :=
  match db s !! KMissingData missingDataKey with
  | None => Ok None
  | Some v => Some <$> decodeMissingDataValue v
  end.

Definition getExpiryDataFromUpdateEntriesOrStore (s : Store)
    (updateEntries : entriesForPvtDataOfOldBlocks) (expiryKey : expiryKey)
    : res (option ExpiryData) :=
  match oldExpiryEntries updateEntries !! expiryKey with
  | Some expiryData => Ok (Some expiryData)
  | None => getExpiryDataOfExpiryKey s expiryKey
  end.

Definition getMissingDataFromUpdateEntriesOrStore (s : Store)
    (updateEntries : entriesForPvtDataOfOldBlocks) (nsCollBlk : nsCollBlk)
    : res (option BitSet) :=
  match oldMissingDataEntries updateEntries !! nsCollBlk with
  | Some missingData => Ok (Some missingData)
  | None => getBitmapOfMissingDataKey s (MissingDataKey nsCollBlk true)
  end.

Definition addDataEntry (updateEntries : entriesForPvtDataOfOldBlocks) (dataEntry : dataEntry)
    : entriesForPvtDataOfOldBlocks :=
  let dataKey :=
    DataKey (dataNsCollBlk (dataEntryKey dataEntry)) (txNum (dataEntryKey dataEntry)) in
  {| oldDataEntries := <[dataKey := dataEntryValue dataEntry]> (oldDataEntries updateEntries);
     oldExpiryEntries := oldExpiryEntries updateEntries;
     oldMissingDataEntries := oldMissingDataEntries updateEntries |}.

Definition updateAndAddExpiryEntry (updateEntries : entriesForPvtDataOfOldBlocks)
    (expiryEntry : expiryEntry) (dataKey : dataKey) : entriesForPvtDataOfOldBlocks :=
  let txNum := txNum dataKey in
  let nsCollBlk := dataNsCollBlk dataKey in
  let value := addPresentData (expiryEntryValue expiryEntry) (ns nsCollBlk) (coll nsCollBlk) txNum in
  let expiryKey :=
    ExpiryKey (expiringBlk (expiryEntryKey expiryEntry))
              (committingBlk (expiryEntryKey expiryEntry)) in
  {| oldDataEntries := oldDataEntries updateEntries;
     oldExpiryEntries := <[expiryKey := value]> (oldExpiryEntries updateEntries);
     oldMissingDataEntries := oldMissingDataEntries updateEntries |}.

Definition updateAndAddMissingDataEntry (updateEntries : entriesForPvtDataOfOldBlocks)
    (missingData : BitSet) (dataKey : dataKey) : entriesForPvtDataOfOldBlocks :=
  let txNum := txNum dataKey in
  let nsCollBlk := dataNsCollBlk dataKey in
  let missingData := bitsetClear missingData txNum in
  {| oldDataEntries := oldDataEntries updateEntries;
     oldExpiryEntries := oldExpiryEntries updateEntries;
     oldMissingDataEntries := <[nsCollBlk := missingData]> (oldMissingDataEntries updateEntries) |}.

(** The second half of the body of the loop of
    [constructUpdateEntriesFromDataEntries]: [expiryData] is [None] for a
    never-expiring entry. *)
Definition mergeDataEntry (s : Store) (updateEntries : entriesForPvtDataOfOldBlocks)
    (dataEntry : dataEntry) (expiryKey : expiryKey) (expiryData : option ExpiryData)
    : res entriesForPvtDataOfOldBlocks :=
  let nsCollBlk := dataNsCollBlk (dataEntryKey dataEntry) in
  missingData ← getMissingDataFromUpdateEntriesOrStore s updateEntries nsCollBlk;
  match missingData with
  | None => Ok updateEntries
  | Some missingData =>
      let updateEntries := addDataEntry updateEntries dataEntry in
      let updateEntries :=
        match expiryData with
        | Some expiryData =>
            updateAndAddExpiryEntry updateEntries
              {| expiryEntryKey := expiryKey; expiryEntryValue := expiryData |}
              (dataEntryKey dataEntry)
        | None => updateEntries
        end in
      Ok (updateAndAddMissingDataEntry updateEntries missingData (dataEntryKey dataEntry))
  end.

(** One round of the loop; [Ok updateEntries] unchanged is [continue]. *)
Definition updateEntriesStep (s : Store) (updateEntries : entriesForPvtDataOfOldBlocks)
    (dataEntry : dataEntry) : res entriesForPvtDataOfOldBlocks :=
  expiryKey ← constructExpiryKeyFromDataEntry s dataEntry;
  if negb (neverExpires (expiringBlk expiryKey)) then
    expiryData ← getExpiryDataFromUpdateEntriesOrStore s updateEntries expiryKey;
    match expiryData with
    | None => Ok updateEntries
    | Some expiryData => mergeDataEntry s updateEntries dataEntry expiryKey (Some expiryData)
    end
  else mergeDataEntry s updateEntries dataEntry expiryKey None.

Definition emptyUpdateEntries : entriesForPvtDataOfOldBlocks :=
  {| oldDataEntries := ∅; oldExpiryEntries := ∅; oldMissingDataEntries := ∅ |}.

Definition constructUpdateEntriesFromDataEntries (s : Store) (dataEntries : list dataEntry)
    : res entriesForPvtDataOfOldBlocks :=
  foldRes (updateEntriesStep s) emptyUpdateEntries dataEntries.

Definition addNewDataEntriesToUpdateBatch (batch : UpdateBatch)
    (entries : entriesForPvtDataOfOldBlocks) : UpdateBatch :=
  foldl (λ b kv, Put (KData kv.1) (encodeDataValue kv.2) b)
        batch (map_to_list (oldDataEntries entries)).

Definition addUpdatedExpiryEntriesToUpdateBatch (batch : UpdateBatch)
    (entries : entriesForPvtDataOfOldBlocks) : UpdateBatch :=
  foldl (λ b kv, Put (KExpiry kv.1) (encodeExpiryValue kv.2) b)
        batch (map_to_list (oldExpiryEntries entries)).

Definition addUpdatedMissingDataEntriesToUpdateBatch (batch : UpdateBatch)
    (entries : entriesForPvtDataOfOldBlocks) : UpdateBatch :=
  foldl (λ b kv,
           let key := KMissingData (MissingDataKey kv.1 true) in
           if bitsetNone kv.2 then Delete key b
           else Put key (encodeMissingDataValue kv.2) b)
        batch (map_to_list (oldMissingDataEntries entries)).

Definition constructUpdateBatchFromUpdateEntries (updateEntries : entriesForPvtDataOfOldBlocks)
    : UpdateBatch :=
  let batch := NewUpdateBatch in
  let batch := addNewDataEntriesToUpdateBatch batch updateEntries in
  let batch := addUpdatedExpiryEntriesToUpdateBatch batch updateEntries in
  addUpdatedMissingDataEntriesToUpdateBatch batch updateEntries.

Definition commitBatch (s : Store) (batch : UpdateBatch) (writeOk : bool)
    : Store * option error :=
  match WriteBatch (db s) batch writeOk with
  | (_, Some err) => (s, Some err)
  | (d, None) => (setDB s d, None)
  end.

Definition illegalCallMsg : string :=
  "The lastUpdatedOldBlocksList is set. It means that the" +:+
  String (Ascii.ascii_of_nat 10)
    (String (Ascii.ascii_of_nat 9)
       (String (Ascii.ascii_of_nat 9) "stateDB may not be in sync with the pvtStore")).

Definition CommitPvtDataOfOldBlocks (s : Store) (blocksPvtData : list (N * list TxPvtData))
    (writeOk : bool) : Store * option error :=
  if isLastUpdatedOldBlocksSet s then (s, Some (ErrIllegalCall illegalCallMsg))
  else
    let dataEntries := constructDataEntriesFromBlocksPvtData blocksPvtData in
    match constructUpdateEntriesFromDataEntries s dataEntries with
    | Err err => (s, Some err)
    | Ok updateEntries =>
        let batch := constructUpdateBatchFromUpdateEntries updateEntries in
        commitBatch s batch writeOk
    end.

(** *** Reading the private data of a block *)

Section ReadPath.

(** The two helpers for entries written in the v1.1 key format are not
    among the sources and the specification says nothing about them: they
    are parameters of the read path. *)
Variable v11Format : Key → string + bool.
Variable v11RetrievePvtdata :
  list (Key * Value) → PvtNsCollFilter → string + list TxPvtData.

(** The loop of [GetPvtDataByBlockNum].  The three loop variables
    [firstItr], [currentTxNum] and [currentTxWsetAssember] are one option:
    [firstItr] holds exactly while the assembler is nil, and afterwards
    [currentTxNum] is the transaction number of the assembler. *)
Fixpoint pvtDataLoop (s : Store) (blockNum : N) (filter : PvtNsCollFilter)
    (lastCommittedBlock : N) (itr : list (dataKey * Value))
    (blockPvtdata : list TxPvtData) (current : option txPvtdataAssembler)
    : res (list TxPvtData) :=
  match itr with
  | [] =>
      match current with
      | Some assembler => Ok (blockPvtdata ++ [getTxPvtdata assembler])
      | None => Ok blockPvtdata
      end
  | (key, dataValueBytes) :: rest =>
      let dataKeyBytes := KData key in
      v11Fmt ← lift (v11Format dataKeyBytes);
      if v11Fmt : bool then
        lift (v11RetrievePvtdata (prod_map KData id <$> itr) filter)
      else
        dataKey ← decodeDatakey dataKeyBytes;
        expired ← isExpired (dataNsCollBlk dataKey) (btlPolicy s) lastCommittedBlock;
        if expired || negb (passesFilter dataKey filter) then
          pvtDataLoop s blockNum filter lastCommittedBlock rest blockPvtdata current
        else
          dataValue ← decodeDataValue dataValueBytes;
          let current1 :=
            match current with
            | None => newTxPvtdataAssembler blockNum (txNum dataKey)
            | Some assembler => assembler
            end in
          let '(blockPvtdata2, current2) :=
            if negb (txNum dataKey =? asmTxNum current1) then
              (blockPvtdata ++ [getTxPvtdata current1],
               newTxPvtdataAssembler blockNum (txNum dataKey))
            else (blockPvtdata, current1) in
          pvtDataLoop s blockNum filter lastCommittedBlock rest blockPvtdata2
            (Some (assemblerAdd current2 (ns (dataNsCollBlk dataKey)) dataValue))
  end.

Definition GetPvtDataByBlockNum (s : Store) (blockNum : N) (filter : PvtNsCollFilter)
    : res (list TxPvtData) :=
  if isEmpty s then Err (ErrOutOfRange "The store is empty")
  else
    let lastCommittedBlock := lastCommittedBlock s in
    if lastCommittedBlock <? blockNum then
      Err (ErrOutOfRange ("Last committed block=" +:+ pretty lastCommittedBlock +:+
                          ", block requested=" +:+ pretty blockNum))
    else
      let itr :=
        GetIterator (getDataKeysForRangeScanByBlockNum blockNum) dataKeyCompare (db s) in
      pvtDataLoop s blockNum filter lastCommittedBlock itr [] None.

End ReadPath.

(** *** Missing private data of the most recent blocks *)

(** The inner loop over the set bits of a bitmap: every transaction that
    misses the data of the entry is added. *)
Definition addMissingBits (info : MissingPvtDataInfo) (key : nsCollBlk) (bitmap : BitSet)
    : MissingPvtDataInfo :=
  foldl (λ info txNum, missingInfoAdd info (blkNum key) txNum (ns key) (coll key))
        info (bitsetSetBits bitmap).

(** The loop of [GetMissingPvtDataInfoForMostRecentBlocks]; reaching the end
    of the matched clause without a recursive call is the [break].  The
    counter is a Go [int]: it counts entries of the scan and cannot
    overflow. *)
Fixpoint missingInfoLoop (s : Store) (maxBlock : Z) (itr : list (missingDataKey * Value))
    (missingPvtDataInfo : MissingPvtDataInfo) (numberOfBlockProcessed : Z)
    (lastProcessedBlock : N) (isMaxBlockLimitReached : bool) : res MissingPvtDataInfo :=
  match itr with
  | [] => Ok missingPvtDataInfo
  | (missingDataKey, valueBytes) :: rest =>
      let key := missingNsCollBlk missingDataKey in
      if isMaxBlockLimitReached && negb (blkNum key =? lastProcessedBlock) then
        Ok missingPvtDataInfo
      else
        expired ← isExpired key (btlPolicy s) (lastCommittedBlock s);
        if expired : bool then
          missingInfoLoop s maxBlock rest missingPvtDataInfo numberOfBlockProcessed
            lastProcessedBlock isMaxBlockLimitReached
        else
          let '(numberOfBlockProcessed, lastProcessedBlock, isMaxBlockLimitReached) :=
            match missingPvtDataInfo !! blkNum key with
            | Some _ => (numberOfBlockProcessed, lastProcessedBlock, isMaxBlockLimitReached)
            | None =>
                let n := (numberOfBlockProcessed + 1)%Z in
                if (n =? maxBlock)%Z then (n, blkNum key, true)
                else (n, lastProcessedBlock, isMaxBlockLimitReached)
            end in
          bitmap ← decodeMissingDataValue valueBytes;
          let missingPvtDataInfo := addMissingBits missingPvtDataInfo key bitmap in
          missingInfoLoop s maxBlock rest missingPvtDataInfo numberOfBlockProcessed
            lastProcessedBlock isMaxBlockLimitReached
  end.

Definition GetMissingPvtDataInfoForMostRecentBlocks (s : Store) (maxBlock : Z)
    : res MissingPvtDataInfo :=
  if (maxBlock <? 1)%Z then Ok ∅
  else
    let lastCommittedBlock := lastCommittedBlock s in
    let dbItr :=
      GetIterator (createRangeScanKeysForEligibleMissingDataEntries lastCommittedBlock)
        eligibleMissingDataKeyCompare (db s) in
    missingInfoLoop s maxBlock dbItr ∅ 0 0 false.

(** *** The purge sweep *)

Definition retrieveExpiryEntries (s : Store) (minBlkNum maxBlkNum : N)
    : res (list expiryEntry) :=
  let itr := GetIterator (getExpiryKeysForRangeScan minBlkNum maxBlkNum) expiryKeyCompare (db s) in
  foldRes (λ expiryEntries kv,
             expiryValue ← decodeExpiryValue kv.2;
             Ok (expiryEntries ++ [ {| expiryEntryKey := kv.1; expiryEntryValue := expiryValue |} ]))
          [] itr.

(** The loop of [purgeExpiredData].  One batch grows over all the rounds and
    is written at the end of each; the error of a write is dropped.
    [writeOk i] is the verdict of the storage layer on the write of
    round [i]. *)
Fixpoint purgeLoop (d : DB) (batch : UpdateBatch) (writeOk : nat → bool) (i : nat)
    (expiryEntries : list expiryEntry) : DB :=
  match expiryEntries with
  | [] => d
  | expiryEntry :: rest =>
      let batch := Delete (KExpiry (expiryEntryKey expiryEntry)) batch in
      let '(dataKeys, missingDataKeys) := deriveKeys expiryEntry in
      let batch := foldl (λ b dataKey, Delete (KData dataKey) b) batch dataKeys in
      let batch :=
        foldl (λ b missingDataKey, Delete (KMissingData missingDataKey) b)
              batch missingDataKeys in
      let d := (WriteBatch d batch (writeOk i)).1 in
      purgeLoop d batch writeOk (S i) rest
  end.

Definition purgeExpiredData (s : Store) (minBlkNum maxBlkNum : N) (writeOk : nat → bool)
    : Store * option error :=
  let batch := NewUpdateBatch in
  match retrieveExpiryEntries s minBlkNum maxBlkNum with
  | Err err => (s, Some err)
  | Ok [] => (s, None)
  | Ok expiryEntries => (setDB s (purgeLoop (db s) batch writeOk 0 expiryEntries), None)
  end.

(** ** Validation of reconciled private data (package [kvledger]) *)

Module Reconciliation.

(** [ledger.PvtdataHashMismatch] *)
Record PvtdataHashMismatch : Type := {
  BlockNum : N;
  TxNum : N;
  mismatchNamespace : string;
  mismatchCollection : string;
  ExpectedHash : list byte
}.

Record nsColl : Type := {
  nsOf : string;
  collOf : string
}.

(** [ledger.ReconciledPvtdata] *)
Record ReconciledPvtdata : Type := {
  rpBlockNum : N;
  WriteSets : list TxPvtData
}.

(** The loop of [removeCollFromNsPvtWriteSet]: the first collection named
    [collName] is cut out of the slice. *)
Fixpoint removeCollFromList (l : list CollectionPvtReadWriteSet) (collName : string)
    : list CollectionPvtReadWriteSet :=
  match l with
  | [] => []
  | c :: l' => if decide (CollectionName c = collName) then l' else c :: removeCollFromList l' collName
  end.

Definition removeCollFromNsPvtWriteSet (n : NsPvtReadWriteSet) (collName : string)
    : NsPvtReadWriteSet :=
  {| Namespace := Namespace n;
     CollectionPvtRwset := removeCollFromList (CollectionPvtRwset n) collName |}.

(** The first namespace entry named [ns'] loses its first collection named
    [coll'], and is removed when that leaves it without collections; the
    loop returns there. *)
Fixpoint removeCollFromNsList (l : list NsPvtReadWriteSet) (ns' coll' : string)
    : list NsPvtReadWriteSet :=
  match l with
  | [] => []
  | n :: l' =>
      if decide (Namespace n = ns') then
        let n' := removeCollFromNsPvtWriteSet n coll' in
        if decide (length (CollectionPvtRwset n') = 0%nat) then l' else n' :: l'
      else n :: removeCollFromNsList l' ns' coll'
  end.

Definition removeCollFromTxPvtReadWriteSet (p : TxPvtReadWriteSet) (ns' coll' : string)
    : TxPvtReadWriteSet :=
  {| NsPvtRwset := removeCollFromNsList (NsPvtRwset p) ns' coll' |}.

Section Validation.

(** The committed read/write set of a transaction ([rwsetutil.TxRwSet])
    with its lookup of the recorded private-data hash (nil is [None]),
    the hash function and the block store are collaborators. *)
Variable TxRwSet : Type.
Variable GetPvtDataHash : TxRwSet → string → string → option (list byte).
Variable ComputeSHA256 : list byte → list byte.
Variable retrieveRwsetForTx : N → N → string + TxRwSet.

Definition findInvalidNsPvtData (nsRwset : NsPvtReadWriteSet) (txRWSet : TxRwSet)
    (blkNum' txNum' : N) : list PvtdataHashMismatch * list nsColl :=
  let ns' := Namespace nsRwset in
  foldl (λ acc collPvtRwset,
           let coll' := CollectionName collPvtRwset in
           match GetPvtDataHash txRWSet ns' coll' with
           | None => (acc.1, acc.2 ++ [ {| nsOf := ns'; collOf := coll' |} ])
           | Some rwsetHash =>
               if negb (bool_decide (ComputeSHA256 (Rwset collPvtRwset) = rwsetHash)) then
                 (acc.1 ++ [ {| BlockNum := blkNum'; TxNum := txNum';
                                mismatchNamespace := ns'; mismatchCollection := coll';
                                ExpectedHash := rwsetHash |} ],
                  acc.2 ++ [ {| nsOf := ns'; collOf := coll' |} ])
               else acc
           end)
        ([], []) (CollectionPvtRwset nsRwset).

(** The valid part is [None] when the transaction is dropped (Go returns
    nil). *)
Definition findValidAndInvalidTxPvtData (txPvtData : TxPvtData) (txRWSet : TxRwSet)
    (blkNum' : N) : option TxPvtData * list PvtdataHashMismatch :=
  let '(invalidPvtData, toDeleteNsColl) :=
    foldl (λ acc nsRwset,
             let txNum' := SeqInBlock txPvtData in
             let '(invalidData, invalidNsColl) :=
               findInvalidNsPvtData nsRwset txRWSet blkNum' txNum' in
             (acc.1 ++ invalidData, acc.2 ++ invalidNsColl))
          ([], []) (NsPvtRwset (WriteSet txPvtData)) in
  let writeSet :=
    foldl (λ p nsColl, removeCollFromTxPvtReadWriteSet p (nsOf nsColl) (collOf nsColl))
          (WriteSet txPvtData) toDeleteNsColl in
  if decide (length (NsPvtRwset writeSet) = 0%nat) then (None, invalidPvtData)
  else (Some {| SeqInBlock := SeqInBlock txPvtData; WriteSet := writeSet |}, invalidPvtData).

Definition findValidAndInvalidPvtdata (reconciledPvtdata : ReconciledPvtdata)
    : res (list TxPvtData * list PvtdataHashMismatch) :=
  foldRes (λ acc txPvtData,
             txRWSet ← lift (retrieveRwsetForTx (rpBlockNum reconciledPvtdata)
                               (SeqInBlock txPvtData));
             let '(validData, invalidData) :=
               findValidAndInvalidTxPvtData txPvtData txRWSet
                 (rpBlockNum reconciledPvtdata) in
             Ok (acc.1 ++ option_list validData, acc.2 ++ invalidData))
          ([], []) (WriteSets reconciledPvtdata).

Definition constructValidAndInvalidPvtData (reconciledPvtdata : list ReconciledPvtdata)
    : res (gmap N (list TxPvtData) * list PvtdataHashMismatch) :=
  foldRes (λ acc pvtdata,
             r ← findValidAndInvalidPvtdata pvtdata;
             let validPvtData :=
               if decide (0 < length r.1)%nat then <[rpBlockNum pvtdata := r.1]> acc.1
               else acc.1 in
             Ok (validPvtData, acc.2 ++ r.2))
          (∅, []) reconciledPvtdata.

(** A collection write-set is valid for its namespace when the committed
    read/write set records a hash for it and the supplied data hashes to it. *)
Definition collValid (txRWSet : TxRwSet) (n : string) (c : CollectionPvtReadWriteSet) : bool :=
  match GetPvtDataHash txRWSet n (CollectionName c) with
  | None => false
  | Some rwsetHash => bool_decide (ComputeSHA256 (Rwset c) = rwsetHash)
  end.

(** What the first loop collects for one collection. *)
Definition mismatchOf (txRWSet : TxRwSet) (blk tx : N) (n : string)
    (c : CollectionPvtReadWriteSet) : option PvtdataHashMismatch :=
  match GetPvtDataHash txRWSet n (CollectionName c) with
  | None => None
  | Some rwsetHash =>
      if bool_decide (ComputeSHA256 (Rwset c) = rwsetHash) then None
      else Some {| BlockNum := blk; TxNum := tx; mismatchNamespace := n;
                   mismatchCollection := CollectionName c; ExpectedHash := rwsetHash |}
  end.

Definition invalidOf (txRWSet : TxRwSet) (n : string) (c : CollectionPvtReadWriteSet)
    : option nsColl :=
  if collValid txRWSet n c then None
  else Some {| nsOf := n; collOf := CollectionName c |}.

End Validation.

(** The collection write-set [c] is listed under namespace [n]. *)
Definition inNsList (l : list NsPvtReadWriteSet) (n : string) (c : CollectionPvtReadWriteSet)
    : Prop :=
  ∃ nsRwset, nsRwset ∈ l ∧ Namespace nsRwset = n ∧ c ∈ CollectionPvtRwset nsRwset.

Definition inWriteSet (p : TxPvtReadWriteSet) (n : string) (c : CollectionPvtReadWriteSet)
    : Prop :=
  inNsList (NsPvtRwset p) n c.

(** The shape in which write-sets are built: a namespace occurs once and
    lists at least one collection, and a collection occurs once in its
    namespace. *)
Definition wellFormedNsList (l : list NsPvtReadWriteSet) : Prop :=
  NoDup (Namespace <$> l) ∧
  Forall (λ n, CollectionPvtRwset n ≠ [] ∧
               NoDup (CollectionName <$> CollectionPvtRwset n)) l.

Definition wellFormedWriteSet (p : TxPvtReadWriteSet) : Prop :=
  wellFormedNsList (NsPvtRwset p).

(** Sample collaborators: the committed read/write set of the transaction
    records a hash for [collA] of any namespace and for no other collection;
    the stand-in for the hash function returns its argument. *)
Definition sampleGetPvtDataHash (rw : unit) (n c : string) : option (list byte) :=
  if decide (c = "collA") then Some [x01] else None.

Definition sampleSHA256 (b : list byte) : list byte := b.

Definition sampleTxPvtData (nsRwsets : list NsPvtReadWriteSet) : TxPvtData :=
  {| SeqInBlock := 4; WriteSet := {| NsPvtRwset := nsRwsets |} |}.

(** [collA] carries the data whose hash is recorded, [collB] has no recorded
    hash; the namespace [ns1] occurs twice. *)
Definition duplicateNsWriteSet : list NsPvtReadWriteSet :=
  [ {| Namespace := "ns1";
       CollectionPvtRwset := [ {| CollectionName := "collA"; Rwset := [x01] |} ] |};
    {| Namespace := "ns1";
       CollectionPvtRwset := [ {| CollectionName := "collB"; Rwset := [x02] |} ] |} ].

(** A namespace entry without collections. *)
Definition emptyNsWriteSet : list NsPvtReadWriteSet :=
  [ {| Namespace := "ns1"; CollectionPvtRwset := [] |} ].

(** A well-formed write-set: [collA] with matching data, [collB] without a
    recorded hash, and [collA] of another namespace with other data. *)
Definition mixedWriteSet : list NsPvtReadWriteSet :=
  [ {| Namespace := "ns1";
       CollectionPvtRwset := [ {| CollectionName := "collA"; Rwset := [x01] |};
                               {| CollectionName := "collB"; Rwset := [x02] |} ] |};
    {| Namespace := "ns2";
       CollectionPvtRwset := [ {| CollectionName := "collA"; Rwset := [x03] |} ] |} ].

End Reconciliation.

(** ** Sample data

    A policy, a store and a block used to run the model on concrete inputs. *)

(** Collection [coll1] lives for one block after the committing one, [coll2]
    never expires, and the policy knows no other collection. *)
Definition samplePolicy : BTLPolicy :=
  {| GetExpiringBlock := λ _ c blk,
       if decide (c = "coll1") then inr (blk + 1 + 1)
       else if decide (c = "coll2") then inr MaxUint64
       else inl "collection config not found" |}.

Definition sampleStore : Store := newStore samplePolicy 100.

Definition sampleColl (name : string) : CollectionPvtReadWriteSet :=
  {| CollectionName := name; Rwset := [x01] |}.

(** Transaction 3 carries data of [ns1] for both collections. *)
Definition samplePvtData : list TxPvtData :=
  [ {| SeqInBlock := 3;
       WriteSet := {| NsPvtRwset :=
         [ {| Namespace := "ns1";
              CollectionPvtRwset := [sampleColl "coll1"; sampleColl "coll2"] |} ] |} |} ].

(** Transaction 5 misses the data of both collections. *)
Definition sampleMissing : TxMissingPvtDataMap :=
  [ (5, [ {| mpNamespace := "ns1"; mpCollection := "coll1"; mpIsEligible := true |};
          {| mpNamespace := "ns1"; mpCollection := "coll2"; mpIsEligible := true |} ]) ].

Definition storeAfter (r : Store * outcome * option (N * N)) : Store := r.1.1.

(** The sample store after blocks 0, 1 and 2; block 0 carries the sample
    data, the other two are empty. *)
Definition sampleStore0 : Store :=
  storeAfter (Commit sampleStore 0 samplePvtData sampleMissing true).
Definition sampleStore1 : Store := storeAfter (Commit sampleStore0 1 [] [] true).
Definition sampleStore2 : Store := storeAfter (Commit sampleStore1 2 [] [] true).

Definition noV11Format (k : Key) : string + bool := inr false.
Definition noV11RetrievePvtdata (itr : list (Key * Value)) (filter : PvtNsCollFilter)
    : string + list TxPvtData := inr [].

(** Reconciled data for block 0 of the sample store: the data that
    transaction 5 was missing. *)
Definition sampleOldBlocksPvtData : list (N * list TxPvtData) :=
  [ (0, [ {| SeqInBlock := 5;
             WriteSet := {| NsPvtRwset :=
               [ {| Namespace := "ns1";
                    CollectionPvtRwset := [sampleColl "coll1"; sampleColl "coll2"] |} ] |} |} ]) ].

(** The update entries built from the reconciled sample data. *)
Definition sampleUpdateEntries : entriesForPvtDataOfOldBlocks :=
  match constructUpdateEntriesFromDataEntries sampleStore0
          (constructDataEntriesFromBlocksPvtData sampleOldBlocksPvtData) with
  | Ok ue => ue
  | Err _ => emptyUpdateEntries
  end.

(** A reconciled data entry of the expiring collection for block 0. *)
Definition sampleDataEntry : dataEntry :=
  {| dataEntryKey := DataKey (NsCollBlk "ns1" "coll1" 0) 5;
     dataEntryValue := sampleColl "coll1" |}.

(** ** Predicates used in the statements *)

(** The expiry data lists the pair, on its present or on its missing side. *)
Definition expiryMentions (ed : ExpiryData) (n c : string) : Prop :=
  is_Some (presentData ed !! (n, c)) ∨ (n, c) ∈ missingData ed.

(** What the update entries built for old blocks always satisfy with respect
    to the store they were built from:
    - a merged data entry has its bitmap among the update entries;
    - a bitmap of the update entries is the stored eligible bitmap with the
      bits of the merged transactions cleared;
    - an expiry entry of the update entries updates a stored one, is not of a
      never-expiring height, and lists beyond the stored pairs only pairs whose
      expiry height is the height of its key;
    - a merged data entry of an expiring collection has its expiry entry among
      the update entries. *)
Definition updateEntriesInv (s : Store) (ue : entriesForPvtDataOfOldBlocks) : Prop :=
  (∀ dk, is_Some (oldDataEntries ue !! dk) →
         is_Some (oldMissingDataEntries ue !! dataNsCollBlk dk)) ∧
  (∀ ncb bm, oldMissingDataEntries ue !! ncb = Some bm →
     ∃ bm0, db s !! KMissingData (MissingDataKey ncb true) = Some (VBitmap bm0) ∧
       ∀ i, bitsetTest bm i =
              bitsetTest bm0 i &&
              negb (bool_decide (is_Some (oldDataEntries ue !! DataKey ncb i)))) ∧
  (∀ ek ed, oldExpiryEntries ue !! ek = Some ed →
     neverExpires (expiringBlk ek) = false ∧
     ∃ ed0, db s !! KExpiry ek = Some (VExpiry ed0) ∧
       ∀ n c, expiryMentions ed n c →
              expiryMentions ed0 n c ∨
              GetExpiringBlock (btlPolicy s) n c (committingBlk ek) = inr (expiringBlk ek)) ∧
  (∀ dk e, is_Some (oldDataEntries ue !! dk) →
     GetExpiringBlock (btlPolicy s) (ns (dataNsCollBlk dk)) (coll (dataNsCollBlk dk))
       (blkNum (dataNsCollBlk dk)) = inr e →
     neverExpires e = false →
     is_Some (oldExpiryEntries ue !! ExpiryKey e (blkNum (dataNsCollBlk dk)))).

(** A batch that only deletes. *)
Definition allDeletes (batch : UpdateBatch) : Prop :=
  ∀ k v, batch !! k = Some v → v = None.

Definition alwaysOk (i : nat) : bool := true.
Definition neverOk (i : nat) : bool := false.

(** The collection write-sets of a result of [GetPvtDataByBlockNum], each with
    the transaction number and the namespace it is returned under, in the
    order of the result. *)
Definition flattenTxPvtData (t : TxPvtData)
    : list (N * string * CollectionPvtReadWriteSet) :=
  n ← NsPvtRwset (WriteSet t);
  (λ c, (SeqInBlock t, Namespace n, c)) <$> CollectionPvtRwset n.

Definition flattenPvtData (l : list TxPvtData)
    : list (N * string * CollectionPvtReadWriteSet) :=
  l ≫= flattenTxPvtData.

(** What an entry of the scan contributes to a read at the committed height
    [last]: its value under its transaction number and namespace, when the
    entry is not expired and passes the filter. *)
Definition readable (s : Store) (filter : PvtNsCollFilter) (last : N)
    (kv : dataKey * Value) : option (N * string * CollectionPvtReadWriteSet) :=
  match isExpired (dataNsCollBlk kv.1) (btlPolicy s) last with
  | Ok false =>
      if passesFilter kv.1 filter then
        match kv.2 with
        | VData c => Some (txNum kv.1, ns (dataNsCollBlk kv.1), c)
        | _ => None
        end
      else None
  | _ => None
  end.

Definition isNsColl (n c : string) (k : nsCollBlk) : Prop := ns k = n ∧ coll k = c.

Global Instance isNsColl_dec (n c : string) (k : nsCollBlk) : Decision (isNsColl n c k).
Proof. unfold isNsColl. apply _. Defined.

(** The missing-data info lists the pair for the transaction of the block. *)
Definition inMissingInfo (info : MissingPvtDataInfo) (blk tx : N) (n c : string) : Prop :=
  ∃ blockInfo l, info !! blk = Some blockInfo ∧ blockInfo !! tx = Some l ∧ (n, c) ∈ l.

(** The state of the loop of [GetMissingPvtDataInfoForMostRecentBlocks] keeps
    the number of blocks of the info within the limit. *)
Definition withinLimit (maxBlock : Z) (info : MissingPvtDataInfo)
    (numberOfBlockProcessed : Z) (lastProcessedBlock : N) (isMaxBlockLimitReached : bool)
    : Prop :=
  if isMaxBlockLimitReached then
    (Z.of_nat (size (delete lastProcessedBlock info)) ≤ maxBlock - 1)%Z
  else
    (Z.of_nat (size info) ≤ numberOfBlockProcessed)%Z ∧ (numberOfBlockProcessed < maxBlock)%Z.

(** The blocks of the info lie at or above the entries still to be scanned,
    and once the limit is reached they lie at or above the last processed
    block, which itself lies at or above the entries still to be scanned. *)
Definition aheadOfScan (info : MissingPvtDataInfo) (lastProcessedBlock : N)
    (isMaxBlockLimitReached : bool) (itr : list (missingDataKey * Value)) : Prop :=
  (∀ b kv, is_Some (info !! b) → kv ∈ itr → blkNum (missingNsCollBlk kv.1) ≤ b) ∧
  (isMaxBlockLimitReached = true →
     (∀ b, is_Some (info !! b) → lastProcessedBlock ≤ b) ∧
     (∀ kv, kv ∈ itr → blkNum (missingNsCollBlk kv.1) ≤ lastProcessedBlock)).

(** The scan walks backward: block numbers do not increase. *)
Definition blockDescending (a b : missingDataKey * Value) : Prop :=
  blkNum (missingNsCollBlk b.1) ≤ blkNum (missingNsCollBlk a.1).

(** A comparison that is reversed when its arguments are swapped. *)
Definition cmpAntisym {A : Type} (cmp : A → A → comparison) : Prop :=
  ∀ a b, cmp b a = CompOpp (cmp a b).

(** The store holds an expiry entry under [ek] that lists the pair. *)
Definition dbMentions (d : DB) (ek : expiryKey) (n c : string) : Prop :=
  ∃ ed, d !! KExpiry ek = Some (VExpiry ed) ∧ expiryMentions ed n c.

(** No expiry entry of the store lists a pair that never expires. *)
Definition noNeverExpiringInExpiry (s : Store) : Prop :=
  ∀ ek n c e, dbMentions (db s) ek n c →
    GetExpiringBlock (btlPolicy s) n c (committingBlk ek) = inr e →
    neverExpires e = false.

(** What the expiry data gathered by the Entry Builder for block [blk]
    satisfy: no never-expiring height, and only pairs of that height. *)
Definition expiryMapInv (btl : BTLPolicy) (blk : N) (m : gmap N ExpiryData) : Prop :=
  ∀ e ed, m !! e = Some ed →
    neverExpires e = false ∧
    ∀ n c, expiryMentions ed n c → GetExpiringBlock btl n c blk = inr e.

(** The states of a store that is opened on a fresh database with policy
    [btl] and then goes through commits, commits of old blocks and purge
    sweeps, whatever their arguments and the verdicts of the storage layer. *)
Inductive reachable (btl : BTLPolicy) : Store → Prop :=
| reachable_new (interval : N) : reachable btl (newStore btl interval)
| reachable_Commit (s : Store) (blockNum : N) (pvtData : list TxPvtData)
    (missingPvtData : TxMissingPvtDataMap) (writeOk : bool) :
    reachable btl s →
    reachable btl (Commit s blockNum pvtData missingPvtData writeOk).1.1
| reachable_CommitPvtDataOfOldBlocks (s : Store) (blocksPvtData : list (N * list TxPvtData))
    (writeOk : bool) :
    reachable btl s →
    reachable btl (CommitPvtDataOfOldBlocks s blocksPvtData writeOk).1
| reachable_purgeExpiredData (s : Store) (minBlkNum maxBlkNum : N) (writeOk : nat → bool) :
    reachable btl s →
    reachable btl (purgeExpiredData s minBlkNum maxBlkNum writeOk).1.

(** ** Opening the store and the legacy markers ([store_impl.go])

    As for the lookups of the reconciliation path, the read of a single key
    is a lookup in the finite map. *)

Definition hasPendingCommit (s : Store) : bool :=
  bool_decide (is_Some (db s !! KPendingCommit)).

(** [ResetLastUpdatedOldBlocksList] *)
Definition ResetLastUpdatedOldBlocksList (s : Store) (writeOk : bool)
    : Store * option error :=
  let batch := NewUpdateBatch in
  let batch := Delete KLastUpdatedOldBlocks batch in
  match WriteBatch (db s) batch writeOk with
  | (_, Some err) => (s, Some err)
  | (d, None) =>
      ({| db := d; btlPolicy := btlPolicy s; purgeInterval := purgeInterval s;
          isEmpty := isEmpty s; lastCommittedBlock := lastCommittedBlock s;
          isLastUpdatedOldBlocksSet := false |}, None)
  end.

(** The conversion [int(numBlks)] of a [uint64], [int] being 64 bits wide. *)
Definition intOfUint64 (n : N) : Z :=
  if n <? 2 ^ 63 then Z.of_N n else (Z.of_N n - 2 ^ 64)%Z.

Section Recovery.

(** The byte codec and the varint reader of [proto.Buffer] are not among the
    sources.  Parameters: the number that [decodeLastCommittedBlockVal] (which
    returns no error) yields on bytes that are not an encoded height, the bytes
    of a stored value, and [DecodeVarint], which returns the number read and the
    rest of the buffer. *)
Variable corruptedBlockVal : Value → N.
Variable valueBytes : Value → list byte.
Variable DecodeVarint : list byte → string + (N * list byte).

Definition decodeLastCommittedBlockVal (v : Value) : N :=
  match v with
  | VBlockNum n => n
  | _ => corruptedBlockVal v
  end.

(** Empty flag and last committed block, as persisted. *)
Definition getLastCommittedBlockNum (s : Store) : bool * N :=
  match db s !! KLastCommittedBlk with
  | None => (true, 0)
  | Some v => (false, decodeLastCommittedBlockVal v)
  end.

(** The loop of [getLastUpdatedOldBlocksList]: [numBlks] numbers are read,
    the first failure ends the call. *)
Definition decodeBlocks (numBlks : N) (buf : list byte) : res (list N * list byte) :=
  N.iter (Z.to_N (intOfUint64 numBlks))
    (λ st, st ≫= λ st,
           lift (DecodeVarint st.2) ≫= λ r,
           Ok (st.1 ++ [r.1], r.2))
    (Ok ([], buf)).

Definition getLastUpdatedOldBlocksList (s : Store) : res (list N) :=
  match db s !! KLastUpdatedOldBlocks with
  | None => Ok []
  | Some v =>
      r ← lift (DecodeVarint (valueBytes v));
      fst <$> decodeBlocks r.1 r.2
  end.

(** [initState]: the counters are read from the database, a pending batch of
    the older format is completed, and the flag of the list of updated old
    blocks is raised when the list is not empty. *)
Definition initState (s : Store) (writeOk : bool) : Store * option error :=
  let '(isEmpty', lastCommittedBlock') := getLastCommittedBlockNum s in
  let s :=
    {| db := db s; btlPolicy := btlPolicy s; purgeInterval := purgeInterval s;
       isEmpty := isEmpty'; lastCommittedBlock := lastCommittedBlock';
       isLastUpdatedOldBlocksSet := isLastUpdatedOldBlocksSet s |} in
  let batchPending := hasPendingCommit s in
  let pending : Store * option error :=
    if batchPending then
      let committingBlockNum := nextBlockNum s in
      let batch := NewUpdateBatch in
      let batch :=
        Put KLastCommittedBlk (encodeLastCommittedBlockVal committingBlockNum) batch in
      let batch := Delete KPendingCommit batch in
      match WriteBatch (db s) batch writeOk with
      | (_, Some err) => (s, Some err)
      | (d, None) =>
          ({| db := d; btlPolicy := btlPolicy s; purgeInterval := purgeInterval s;
              isEmpty := false; lastCommittedBlock := committingBlockNum;
              isLastUpdatedOldBlocksSet := isLastUpdatedOldBlocksSet s |}, None)
      end
    else (s, None) in
  match pending with
  | (s, Some err) => (s, Some err)
  | (s, None) =>
      match getLastUpdatedOldBlocksList s with
      | Err err => (s, Some err)
      | Ok blist =>
          if decide (0 < length blist)%nat then
            ({| db := db s; btlPolicy := btlPolicy s; purgeInterval := purgeInterval s;
                isEmpty := isEmpty s; lastCommittedBlock := lastCommittedBlock s;
                isLastUpdatedOldBlocksSet := true |}, None)
          else (s, None)
      end
  end.

(** [OpenStore] on the database [d], followed by [Init btl]: the store record
    of the model always holds a policy.  The other fields start from their
    zero values.  The goroutine that processes collection-eligibility events
    is not part of the model. *)
Definition OpenStore (d : DB) (interval : N) (btl : BTLPolicy) (writeOk : bool)
    : res Store :=
  let s :=
    {| db := d; btlPolicy := btl; purgeInterval := interval;
       isEmpty := false; lastCommittedBlock := 0;
       isLastUpdatedOldBlocksSet := false |} in
  match initState s writeOk with
  | (_, Some err) => Err err
  | (s, None) => Ok s
  end.

(** [GetLastUpdatedOldBlocksPvtData]; the Go result [nil, nil] is [Ok None]. *)
Definition GetLastUpdatedOldBlocksPvtData (v11Format : Key → string + bool)
    (v11RetrievePvtdata : list (Key * Value) → PvtNsCollFilter → string + list TxPvtData)
    (s : Store) : res (option (gmap N (list TxPvtData))) :=
  if negb (isLastUpdatedOldBlocksSet s) then Ok None
  else
    updatedBlksList ← getLastUpdatedOldBlocksList s;
    Some <$> foldRes (λ blksPvtData blkNum,
                        pvtData ← GetPvtDataByBlockNum v11Format v11RetrievePvtdata
                                    s blkNum None;
                        Ok (<[blkNum := pvtData]> blksPvtData))
                     ∅ updatedBlksList.

End Recovery.

(** Sample parameters: a buffer in which every number takes one byte, and
    values that are their own bytes when opaque. *)
Definition sampleCorruptedBlockVal (v : Value) : N := 0.

Definition sampleValueBytes (v : Value) : list byte :=
  match v with
  | VOpaque raw => raw
  | _ => []
  end.

Definition sampleDecodeVarint (buf : list byte) : string + (N * list byte) :=
  match buf with
  | [] => inl "unexpected EOF"
  | b :: rest => inr (Byte.to_N b, rest)
  end.

(** The sample store after block 0, with the markers of the older format:
    a pending batch, and a list that names block 0. *)
Definition samplePendingStore : Store :=
  setDB sampleStore0 (<[KPendingCommit := VOpaque []]> (db sampleStore0)).

Definition sampleListedStore : Store :=
  setDB sampleStore0 (<[KLastUpdatedOldBlocks := VOpaque [x01; x00]]> (db sampleStore0)).


(** The keys of the three entry families, as opposed to the bookkeeping
    keys. *)
Definition isEntryKey (k : Key) : bool :=
  match k with
  | KData _ | KExpiry _ | KMissingData _ => true
  | _ => false
  end.

Definition isError (o : outcome) : bool :=
  match o with
  | Returned (Some _) => true
  | _ => false
  end.


(** The store holds the bookkeeping that [CommitPvtDataOfOldBlocks] looks up
    for a data key: the eligible missing-data bitmap of its (namespace,
    collection, block) and, unless the collection never expires, the expiry
    entry of its expiry height. *)
Definition hasBookkeeping (s : Store) (k : dataKey) : Prop :=
  let ncb := dataNsCollBlk k in
  is_Some (db s !! KMissingData (MissingDataKey ncb true)) ∧
  ∀ e, GetExpiringBlock (btlPolicy s) (ns ncb) (coll ncb) (blkNum ncb) = inr e →
       neverExpires e = false →
       is_Some (db s !! KExpiry (ExpiryKey e (blkNum ncb))).

(** The transactions that an expiry entry lists as present for a pair. *)
Definition presentTxs (ed : ExpiryData) (n c : string) : list N :=
  default [] (presentData ed !! (n, c)).

(** What the update entries built from the data entries [pre] hold:
    - a merged data entry is one of [pre];
    - every entry of [pre] whose bookkeeping is in the store is merged;
    - the expiry entry of a merged data entry of an expiring collection lists
      its transaction as present;
    - an expiry entry of the update entries extends the stored one. *)
Definition updateEntriesData (s : Store) (pre : list dataEntry)
    (ue : entriesForPvtDataOfOldBlocks) : Prop :=
  (∀ dk v, oldDataEntries ue !! dk = Some v →
     ∃ de, de ∈ pre ∧ dataEntryKey de = dk ∧ dataEntryValue de = v) ∧
  (∀ de, de ∈ pre → hasBookkeeping s (dataEntryKey de) →
     is_Some (oldDataEntries ue !! dataEntryKey de)) ∧
  (∀ dk e, is_Some (oldDataEntries ue !! dk) →
     GetExpiringBlock (btlPolicy s) (ns (dataNsCollBlk dk)) (coll (dataNsCollBlk dk))
       (blkNum (dataNsCollBlk dk)) = inr e →
     neverExpires e = false →
     ∃ ed, oldExpiryEntries ue !! ExpiryKey e (blkNum (dataNsCollBlk dk)) = Some ed ∧
           txNum dk ∈ presentTxs ed (ns (dataNsCollBlk dk)) (coll (dataNsCollBlk dk))) ∧
  (∀ ek ed, oldExpiryEntries ue !! ek = Some ed →
     ∃ ed0, db s !! KExpiry ek = Some (VExpiry ed0) ∧
            missingData ed = missingData ed0 ∧
            ∀ n c tx, tx ∈ presentTxs ed0 n c → tx ∈ presentTxs ed n c).


(** The sample store after two blocks that both carry the sample data, the
    expiry entries of its first four heights, and a storage layer that
    refuses every write but the second. *)
Definition sampleStoreTwoBlocks : Store :=
  storeAfter (Commit sampleStore0 1 samplePvtData sampleMissing true).

Definition sampleExpiryEntries : list expiryEntry :=
  match retrieveExpiryEntries sampleStoreTwoBlocks 0 3 with
  | Ok l => l
  | Err _ => []
  end.

Definition secondWriteOnly (i : nat) : bool := bool_decide (i = 1%nat).

Definition sampleExpiryData : ExpiryData :=
  match db sampleStoreTwoBlocks !! KExpiry (ExpiryKey 2 0) with
  | Some (VExpiry ed) => ed
  | _ => newExpiryData
  end.


(** A result of the read path that lists something: at least one namespace,
    and at least one collection in every namespace. *)
Definition wellShapedTx (t : TxPvtData) : Prop :=
  NsPvtRwset (WriteSet t) ≠ [] ∧
  Forall (λ n, CollectionPvtRwset n ≠ []) (NsPvtRwset (WriteSet t)).

Definition txAscending (a b : TxPvtData) : Prop := SeqInBlock a < SeqInBlock b.

(** The order of a scan of data entries, as far as block and transaction. *)
Definition dataOrder (a b : dataKey * Value) : Prop :=
  blkNum (dataNsCollBlk a.1) < blkNum (dataNsCollBlk b.1) ∨
  (blkNum (dataNsCollBlk a.1) = blkNum (dataNsCollBlk b.1) ∧ txNum a.1 ≤ txNum b.1).

Definition txLe (a b : dataKey * Value) : Prop := txNum a.1 ≤ txNum b.1.

(** An assembler that has been given a collection. *)
Definition assemblerShaped (a : txPvtdataAssembler) : Prop :=
  (∃ cur, asmCurrentNsWSet a = Some cur ∧ CollectionPvtRwset cur ≠ []) ∧
  Forall (λ n, CollectionPvtRwset n ≠ []) (asmNsWsets a).

(** The state of the loop of [GetPvtDataByBlockNum]: the transactions that
    are complete are well shaped and in ascending order, below the
    transaction that is being assembled, which is not above the entries
    still to come. *)
Definition readLoopInv (blockPvtdata : list TxPvtData) (current : option txPvtdataAssembler)
    (itr : list (dataKey * Value)) : Prop :=
  Forall wellShapedTx blockPvtdata ∧
  StronglySorted txAscending blockPvtdata ∧
  match current with
  | None => blockPvtdata = []
  | Some a =>
      assemblerShaped a ∧
      Forall (λ t, SeqInBlock t < asmTxNum a) blockPvtdata ∧
      Forall (λ kv, asmTxNum a ≤ txNum kv.1) itr
  end.


(** What a read of block 0 of the sample store returns. *)
Definition sampleRead : list TxPvtData :=
  match GetPvtDataByBlockNum noV11Format noV11RetrievePvtdata sampleStore0 0 None with
  | Ok out => out
  | Err _ => []
  end.

Definition sampleNsRwset : NsPvtReadWriteSet :=
  {| Namespace := "ns1";
     CollectionPvtRwset := [sampleColl "coll1"; sampleColl "coll2"] |}.

Definition sampleTx : TxPvtData :=
  {| SeqInBlock := 3; WriteSet := {| NsPvtRwset := [sampleNsRwset] |} |}.


(** The missing data that the sample store reports once the sample data of
    block 0 is reconciled, and what a read of block 0 returns at height 2
    before and after a purge. *)
Definition sampleInfoAfterReconciliation : MissingPvtDataInfo :=
  match GetMissingPvtDataInfoForMostRecentBlocks
          (CommitPvtDataOfOldBlocks sampleStore0 sampleOldBlocksPvtData true).1 1 with
  | Ok info => info
  | Err _ => ∅
  end.

Definition sampleReadBeforePurge : list TxPvtData :=
  match GetPvtDataByBlockNum noV11Format noV11RetrievePvtdata sampleStore2 0 None with
  | Ok out => out
  | Err _ => []
  end.

Definition sampleReadAfterPurge : list TxPvtData :=
  match GetPvtDataByBlockNum noV11Format noV11RetrievePvtdata
          (purgeExpiredData sampleStore2 0 2 alwaysOk).1 0 None with
  | Ok out => out
  | Err _ => []
  end.


(** * Properties *)

(** ** The error monad *)

Lemma bind_Ok {A B : Type} (r : res A) (k : A → res B) (b : B) :
  r ≫= k = Ok b → ∃ a, r = Ok a ∧ k a = Ok b.
Proof. destruct r; simpl; [eauto | discriminate]. Qed.

Lemma bind_Err {A B : Type} (r : res A) (k : A → res B) (e : error) :
  r ≫= k = Err e → r = Err e ∨ ∃ a, r = Ok a ∧ k a = Err e.
Proof. destruct r; simpl; [eauto | intros [= ->]; by left]. Qed.

Lemma lift_Err_collaborator {A : Type} (r : string + A) (e : error) :
  lift r = Err e → ∃ msg, e = ErrCollaborator msg.
Proof. destruct r; simpl; [intros [= <-]; eauto | discriminate]. Qed.

Lemma isExpired_Err_collaborator key btl latest e :
  isExpired key btl latest = Err e → ∃ msg, e = ErrCollaborator msg.
Proof.
  unfold isExpired. intros [H | (a & _ & H)]%bind_Err; [| discriminate].
  by apply lift_Err_collaborator in H.
Qed.

Lemma decodeDataValue_Err_collaborator v e :
  decodeDataValue v = Err e → ∃ msg, e = ErrCollaborator msg.
Proof. destruct v; simpl; intros [= <-]; eauto. Qed.

(** ** Sequential commit *)

Lemma nextBlockNum_spec (s : Store) :
  nextBlockNum s = if isEmpty s then 0 else (lastCommittedBlock s + 1) mod 2 ^ 64.
Proof. reflexivity. Qed.

(** C1. [Commit] returns nil only when [blockNum] is the next expected block
    number, which is 0 for an empty store and [lastCommittedBlock + 1] (in
    [uint64] arithmetic) otherwise.  For every other [blockNum] it returns an
    [ErrIllegalArgs] whose message prints the expected and the received
    number, and the store, that is the database with the persisted height and
    the counters in memory, is the one before the call. *)
Theorem Commit_sequential (s : Store) (blockNum : N) (pvtData : list TxPvtData)
    (missingPvtData : TxMissingPvtDataMap) (writeOk : bool) :
  let expected := if isEmpty s then 0 else (lastCommittedBlock s + 1) mod 2 ^ 64 in
  let r := Commit s blockNum pvtData missingPvtData writeOk in
  (r.1.2 = Returned None → blockNum = expected) ∧
  (blockNum ≠ expected →
     r.1.2 = Returned (Some (ErrIllegalArgs
               ("Expected block number=" +:+ pretty expected +:+
                ", received block number=" +:+ pretty blockNum))) ∧
     r.1.1 = s ∧
     db r.1.1 !! KLastCommittedBlk = db s !! KLastCommittedBlk ∧
     lastCommittedBlock r.1.1 = lastCommittedBlock s ∧
     isEmpty r.1.1 = isEmpty s).
Proof.
  intros expected r. subst r. unfold Commit.
  rewrite nextBlockNum_spec. fold expected.
  destruct (expected =? blockNum) eqn:E; simpl.
  - apply N.eqb_eq in E. split; [done | congruence].
  - apply N.eqb_neq in E. split; [discriminate | done].
Qed.

Lemma Commit_sequential_witness :
  (Commit sampleStore0 7 [] [] true).1.2 =
    Returned (Some (ErrIllegalArgs "Expected block number=1, received block number=7")) ∧
  (Commit sampleStore0 7 [] [] true).1.1 = sampleStore0.
Proof.
  assert (H : 7 ≠ (if isEmpty sampleStore0 then 0
                   else (lastCommittedBlock sampleStore0 + 1) mod 2 ^ 64))
    by (vm_compute; discriminate).
  destruct (Commit_sequential sampleStore0 7 [] [] true) as [_ Hc].
  destruct (Hc H) as (Hout & Hs & _).
  split; [exact Hout | exact Hs].
Defined.

(** ** The range check of a read *)

Lemma pvtDataLoop_Err_collaborator v11Format v11RetrievePvtdata s blockNum filter last
    itr blockPvtdata current e :
  pvtDataLoop v11Format v11RetrievePvtdata s blockNum filter last itr blockPvtdata current
    = Err e →
  ∃ msg, e = ErrCollaborator msg.
Proof.
  revert blockPvtdata current.
  induction itr as [| [key v] rest IH]; intros blockPvtdata current; simpl.
  - destruct current; discriminate.
  - destruct (v11Format (KData key)) as [msg | [|]] eqn:Ev; simpl.
    + intros [= <-]. eauto.
    + apply lift_Err_collaborator.
    + destruct (isExpired (dataNsCollBlk key) (btlPolicy s) last) as [expired | e'] eqn:Ex;
        simpl.
      2: { intros [= <-]. by apply isExpired_Err_collaborator in Ex. }
      destruct (expired || negb (passesFilter key filter)); [apply IH |].
      destruct (decodeDataValue v) as [dataValue | e'] eqn:Ed; simpl.
      2: { intros [= <-]. by apply decodeDataValue_Err_collaborator in Ed. }
      destruct (negb (txNum key =? asmTxNum _)); apply IH.
Qed.

(** C4. [GetPvtDataByBlockNum] returns an [ErrOutOfRange] exactly when the
    store is empty or [blockNum] is beyond the last committed block; in
    particular a read of the last committed block itself passes the range
    check. *)
Theorem GetPvtDataByBlockNum_out_of_range (v11Format : Key → string + bool)
    (v11RetrievePvtdata : list (Key * Value) → PvtNsCollFilter → string + list TxPvtData)
    (s : Store) (blockNum : N) (filter : PvtNsCollFilter) :
  ((∃ msg, GetPvtDataByBlockNum v11Format v11RetrievePvtdata s blockNum filter
             = Err (ErrOutOfRange msg))
     ↔ (isEmpty s = true ∨ lastCommittedBlock s < blockNum)) ∧
  (isEmpty s = false →
   ∀ msg, GetPvtDataByBlockNum v11Format v11RetrievePvtdata s (lastCommittedBlock s) filter
            ≠ Err (ErrOutOfRange msg)).
Proof.
  assert (Hiff : ∀ b,
    (∃ msg, GetPvtDataByBlockNum v11Format v11RetrievePvtdata s b filter
              = Err (ErrOutOfRange msg))
    ↔ (isEmpty s = true ∨ lastCommittedBlock s < b)).
  { intros b. unfold GetPvtDataByBlockNum. split.
    - intros [msg H]. destruct (isEmpty s); [by left |]. right.
      destruct (lastCommittedBlock s <? b) eqn:E; [by apply N.ltb_lt |].
      apply pvtDataLoop_Err_collaborator in H as [? [=]].
    - intros [-> | H]; [eauto |].
      destruct (isEmpty s); [eauto |].
      apply N.ltb_lt in H. rewrite H. eauto. }
  split; [apply Hiff |].
  intros Hne msg Hr.
  destruct (proj1 (Hiff (lastCommittedBlock s)) (ex_intro _ msg Hr)) as [He | Hlt].
  - congruence.
  - lia.
Qed.

Lemma GetPvtDataByBlockNum_out_of_range_witness :
  isEmpty sampleStore2 = false ∧
  GetPvtDataByBlockNum noV11Format noV11RetrievePvtdata sampleStore2
    (lastCommittedBlock sampleStore2) None ≠ Err (ErrOutOfRange "The store is empty").
Proof.
  split; [reflexivity |].
  apply (GetPvtDataByBlockNum_out_of_range noV11Format noV11RetrievePvtdata
           sampleStore2 0 None).
  reflexivity.
Defined.

(** ** Update batches *)

Lemma applyBatch_lookup (b : UpdateBatch) (d : DB) (k : Key) :
  applyBatch b d !! k = match b !! k with Some o => o | None => d !! k end.
Proof.
  unfold applyBatch. rewrite lookup_merge.
  destruct (b !! k), (d !! k); reflexivity.
Qed.

Lemma foldl_lookup_frame {A : Type} (g : UpdateBatch → A → UpdateBatch) (k : Key)
    (l : list A) (b : UpdateBatch) :
  (∀ b' a, g b' a !! k = b' !! k) → foldl g b l !! k = b !! k.
Proof.
  intros Hg. revert b. induction l as [| a l IH]; intros b; simpl; [done |].
  by rewrite IH, Hg.
Qed.

Lemma Put_lookup_ne k k' v (b : UpdateBatch) : k ≠ k' → Put k v b !! k' = b !! k'.
Proof. intros. unfold Put. by rewrite lookup_insert_ne. Qed.

Lemma Delete_lookup_ne k k' (b : UpdateBatch) : k ≠ k' → Delete k b !! k' = b !! k'.
Proof. intros. unfold Delete. by rewrite lookup_insert_ne. Qed.

(** The batch of [CommitPvtDataOfOldBlocks] touches the data, expiry and
    missing-data families only. *)
Lemma constructUpdateBatch_families (updateEntries : entriesForPvtDataOfOldBlocks) (k : Key) :
  is_Some (constructUpdateBatchFromUpdateEntries updateEntries !! k) →
  match k with
  | KData _ | KExpiry _ | KMissingData _ => True
  | _ => False
  end.
Proof.
  unfold constructUpdateBatchFromUpdateEntries, addUpdatedMissingDataEntriesToUpdateBatch,
    addUpdatedExpiryEntriesToUpdateBatch, addNewDataEntriesToUpdateBatch, NewUpdateBatch.
  destruct k; try done; intros [v Hv]; revert Hv;
    (rewrite foldl_lookup_frame;
       [| intros b' a; destruct (bitsetNone a.2);
          [by apply Delete_lookup_ne | by apply Put_lookup_ne]]);
    (rewrite foldl_lookup_frame; [| intros; by apply Put_lookup_ne]);
    (rewrite foldl_lookup_frame; [| intros; by apply Put_lookup_ne]);
    by rewrite lookup_empty.
Qed.

(** ** The committed height is a frame of reconciliation *)

Lemma Commit_advances (s : Store) (blockNum : N) (pvtData : list TxPvtData)
    (missingPvtData : TxMissingPvtDataMap) (writeOk : bool) :
  (Commit s blockNum pvtData missingPvtData writeOk).1.2 = Returned None →
  let s' := (Commit s blockNum pvtData missingPvtData writeOk).1.1 in
  lastCommittedBlock s' = blockNum ∧ isEmpty s' = false ∧
  db s' !! KLastCommittedBlk = Some (VBlockNum blockNum).
Proof.
  unfold Commit.
  destruct (nextBlockNum s =? blockNum) eqn:E; simpl; [| discriminate].
  apply N.eqb_eq in E.
  destruct (prepareStoreEntries _ _ _ _) as [entries | e]; simpl; [| discriminate].
  destruct writeOk; simpl; [| discriminate].
  destruct (performPurgeIfScheduled _ _); simpl; [| discriminate].
  intros _. rewrite applyBatch_lookup. unfold Put at 1.
  rewrite lookup_insert_eq. by rewrite E.
Qed.

(** C9. [CommitPvtDataOfOldBlocks] leaves the committed height alone: whatever
    the input and whether the call returns nil or an error, the counter
    [lastCommittedBlock] and the flag [isEmpty] in memory and the value under
    the persisted last-committed-block key are the ones before the call.  A
    successful [Commit] is what moves them, to the committed block number. *)
Theorem CommitPvtDataOfOldBlocks_height_unchanged (s : Store)
    (blocksPvtData : list (N * list TxPvtData)) (writeOk : bool) :
  let s' := (CommitPvtDataOfOldBlocks s blocksPvtData writeOk).1 in
  (lastCommittedBlock s' = lastCommittedBlock s ∧
   isEmpty s' = isEmpty s ∧
   db s' !! KLastCommittedBlk = db s !! KLastCommittedBlk) ∧
  (∀ blockNum pvtData missingPvtData ok,
     (Commit s blockNum pvtData missingPvtData ok).1.2 = Returned None →
     let c := (Commit s blockNum pvtData missingPvtData ok).1.1 in
     lastCommittedBlock c = blockNum ∧ isEmpty c = false ∧
     db c !! KLastCommittedBlk = Some (VBlockNum blockNum)).
Proof.
  split; [| intros; by apply Commit_advances].
  unfold CommitPvtDataOfOldBlocks.
  destruct (isLastUpdatedOldBlocksSet s); [done |].
  destruct (constructUpdateEntriesFromDataEntries _ _) as [updateEntries | e]; [| done].
  unfold commitBatch, WriteBatch. destruct writeOk; [| done]. simpl.
  repeat split. rewrite applyBatch_lookup.
  destruct (constructUpdateBatchFromUpdateEntries updateEntries !! KLastCommittedBlk) eqn:E;
    [| done].
  by destruct (constructUpdateBatch_families updateEntries KLastCommittedBlk).
Qed.

Lemma CommitPvtDataOfOldBlocks_height_unchanged_witness :
  (Commit sampleStore0 1 [] [] true).1.2 = Returned None ∧
  lastCommittedBlock (Commit sampleStore0 1 [] [] true).1.1 = 1 ∧
  lastCommittedBlock (CommitPvtDataOfOldBlocks sampleStore0 sampleOldBlocksPvtData true).1
    = lastCommittedBlock sampleStore0.
Proof.
  assert (H : (Commit sampleStore0 1 [] [] true).1.2 = Returned None) by reflexivity.
  destruct (CommitPvtDataOfOldBlocks_height_unchanged sampleStore0 sampleOldBlocksPvtData true)
    as [(Hl & _ & _) Hc].
  destruct (Hc 1 [] [] true H) as (Hc1 & _ & _).
  split; [exact H | split; [exact Hc1 | exact Hl]].
Defined.

(** ** Loops that can fail *)

Lemma foldRes_app {A B : Type} (f : B → A → res B) (b : B) (l1 l2 : list A) :
  foldRes f b (l1 ++ l2) = foldRes f b l1 ≫= λ b', foldRes f b' l2.
Proof.
  revert b. induction l1 as [| a l1 IH]; intros b; simpl; [done |].
  destruct (f b a); simpl; [apply IH | done].
Qed.

Lemma foldRes_invariant {A B : Type} (P : B → Prop) (f : B → A → res B) (l : list A)
    (b b' : B) :
  (∀ b1 a b2, P b1 → f b1 a = Ok b2 → P b2) →
  P b → foldRes f b l = Ok b' → P b'.
Proof.
  intros Hstep. revert b. induction l as [| a l IH]; intros b Hb; simpl.
  - by intros [= <-].
  - intros (b1 & Hf & Hrest)%bind_Ok. eauto.
Qed.

Lemma foldl_ext_pointwise {A B : Type} (g1 g2 : B → A → B) (b : B) (l : list A) :
  (∀ b' a, g1 b' a = g2 b' a) → foldl g1 b l = foldl g2 b l.
Proof.
  intros H. revert b. induction l as [| a l IH]; intros b; simpl; [done |].
  by rewrite H, IH.
Qed.

(** The effect on one key of a loop that puts every entry of a map under its
    own key. *)
Lemma foldl_insert_map_to_list {K V : Type} `{Countable K} (m : gmap K V)
    (f : K → Key) (h : K → V → option Value) (b : UpdateBatch) (k : K) :
  Inj (=) (=) f →
  foldl (λ b' kv, <[f kv.1 := h kv.1 kv.2]> b') b (map_to_list m) !! f k
    = match m !! k with
      | Some v => Some (h k v)
      | None => b !! f k
      end.
Proof.
  intros Hinj.
  rewrite <- (list_to_map_to_list m) at 2.
  pose proof (NoDup_fst_map_to_list m) as Hnd.
  revert b Hnd. generalize (map_to_list m) as l.
  induction l as [| [k0 v0] l IH]; intros b Hnd; simpl.
  - by rewrite lookup_empty.
  - apply NoDup_cons in Hnd as [Hk0 Hnd]. rewrite IH by done.
    destruct (decide (k = k0)) as [-> | Hne].
    + rewrite lookup_insert_eq.
      rewrite (not_elem_of_list_to_map_1 _ _ Hk0).
      by rewrite lookup_insert_eq.
    + rewrite (lookup_insert_ne (list_to_map l)) by done.
      destruct (list_to_map l !! k); [done |].
      rewrite lookup_insert_ne; [done |]. intros Heq. apply Hinj in Heq. congruence.
Qed.

Lemma foldl_insert_map_to_list_ne {K V : Type} `{Countable K} (m : gmap K V)
    (f : K → Key) (h : K → V → option Value) (b : UpdateBatch) (k' : Key) :
  (∀ k, f k ≠ k') →
  foldl (λ b' kv, <[f kv.1 := h kv.1 kv.2]> b') b (map_to_list m) !! k' = b !! k'.
Proof.
  intros Hne. apply (foldl_lookup_frame (λ b' kv, <[f kv.1 := h kv.1 kv.2]> b')).
  intros b' a. by rewrite lookup_insert_ne.
Qed.

(** ** Update entries for the private data of old blocks *)

Lemma updateEntriesInv_empty (s : Store) : updateEntriesInv s emptyUpdateEntries.
Proof.
  split; [| split; [| split]]; simpl.
  - intros dk [v Hv]. by rewrite lookup_empty in Hv.
  - intros ncb bm H. by rewrite lookup_empty in H.
  - intros ek ed H. by rewrite lookup_empty in H.
  - intros dk e [v Hv]. by rewrite lookup_empty in Hv.
Qed.

Lemma decodeExpiryValue_Ok v ed : decodeExpiryValue v = Ok ed → v = VExpiry ed.
Proof. destruct v; simpl; congruence. Qed.

Lemma decodeMissingDataValue_Ok v bm : decodeMissingDataValue v = Ok bm → v = VBitmap bm.
Proof. destruct v; simpl; congruence. Qed.

Lemma fmap_Some_Ok {A : Type} (r : res A) (o : option A) :
  Some <$> r = Ok o → ∃ a, o = Some a ∧ r = Ok a.
Proof. destruct r; simpl; intros [= <-]; eauto. Qed.

Lemma getExpiryDataOfExpiryKey_Some s ek ed :
  getExpiryDataOfExpiryKey s ek = Ok (Some ed) ↔ db s !! KExpiry ek = Some (VExpiry ed).
Proof.
  unfold getExpiryDataOfExpiryKey. split.
  - destruct (db s !! KExpiry ek) as [v |]; [| discriminate].
    intros (a & [= <-] & ->%decodeExpiryValue_Ok)%fmap_Some_Ok. done.
  - by intros ->.
Qed.

Lemma getExpiryDataOfExpiryKey_None s ek :
  getExpiryDataOfExpiryKey s ek = Ok None ↔ db s !! KExpiry ek = None.
Proof.
  unfold getExpiryDataOfExpiryKey. split.
  - destruct (db s !! KExpiry ek) as [v |]; [| done].
    intros (a & [=] & _)%fmap_Some_Ok.
  - by intros ->.
Qed.

Lemma getBitmapOfMissingDataKey_Some s mk bm :
  getBitmapOfMissingDataKey s mk = Ok (Some bm) ↔ db s !! KMissingData mk = Some (VBitmap bm).
Proof.
  unfold getBitmapOfMissingDataKey. split.
  - destruct (db s !! KMissingData mk) as [v |]; [| discriminate].
    intros (a & [= <-] & ->%decodeMissingDataValue_Ok)%fmap_Some_Ok. done.
  - by intros ->.
Qed.

Lemma getBitmapOfMissingDataKey_None s mk :
  getBitmapOfMissingDataKey s mk = Ok None ↔ db s !! KMissingData mk = None.
Proof.
  unfold getBitmapOfMissingDataKey. split.
  - destruct (db s !! KMissingData mk) as [v |]; [| done].
    intros (a & [=] & _)%fmap_Some_Ok.
  - by intros ->.
Qed.

Lemma getMissingData_spec s ue ncb md :
  updateEntriesInv s ue →
  getMissingDataFromUpdateEntriesOrStore s ue ncb = Ok (Some md) →
  ∃ bm0, db s !! KMissingData (MissingDataKey ncb true) = Some (VBitmap bm0) ∧
    ∀ i, bitsetTest md i =
           bitsetTest bm0 i &&
           negb (bool_decide (is_Some (oldDataEntries ue !! DataKey ncb i))).
Proof.
  intros (I1 & I2 & _). unfold getMissingDataFromUpdateEntriesOrStore.
  destruct (oldMissingDataEntries ue !! ncb) as [bm |] eqn:E.
  - intros [= <-]. by apply I2.
  - intros Hs%getBitmapOfMissingDataKey_Some. exists md. split; [done |].
    intros i. rewrite bool_decide_eq_false_2; [by rewrite andb_true_r |].
    intros Hd. apply I1 in Hd. simpl in Hd. rewrite E in Hd. by destruct Hd.
Qed.

Lemma getExpiryData_spec s ue ek ed :
  updateEntriesInv s ue →
  neverExpires (expiringBlk ek) = false →
  getExpiryDataFromUpdateEntriesOrStore s ue ek = Ok (Some ed) →
  ∃ ed0, db s !! KExpiry ek = Some (VExpiry ed0) ∧
    ∀ n c, expiryMentions ed n c →
           expiryMentions ed0 n c ∨
           GetExpiringBlock (btlPolicy s) n c (committingBlk ek) = inr (expiringBlk ek).
Proof.
  intros (_ & _ & I3 & _) Hne. unfold getExpiryDataFromUpdateEntriesOrStore.
  destruct (oldExpiryEntries ue !! ek) as [ed' |] eqn:E.
  - intros [= <-]. by apply I3.
  - intros Hs%getExpiryDataOfExpiryKey_Some. exists ed. split; [done |]. auto.
Qed.

Lemma addPresentData_mentions ed n c tx n' c' :
  expiryMentions (addPresentData ed n c tx) n' c' →
  (n' = n ∧ c' = c) ∨ expiryMentions ed n' c'.
Proof.
  unfold expiryMentions, addPresentData. simpl. intros [H | H].
  - destruct (decide ((n, c) = (n', c'))) as [[= -> ->] | Hne]; [by left |].
    rewrite lookup_insert_ne in H by done. right. by left.
  - right. by right.
Qed.

Lemma mergeDataEntry_inv s ue de ek oed ue' :
  updateEntriesInv s ue →
  match oed with
  | None => neverExpires (expiringBlk ek) = true
  | Some ed =>
      neverExpires (expiringBlk ek) = false ∧
      ∃ ed0, db s !! KExpiry ek = Some (VExpiry ed0) ∧
        ∀ n c, expiryMentions ed n c →
               expiryMentions ed0 n c ∨
               GetExpiringBlock (btlPolicy s) n c (committingBlk ek) = inr (expiringBlk ek)
  end →
  committingBlk ek = blkNum (dataNsCollBlk (dataEntryKey de)) →
  GetExpiringBlock (btlPolicy s) (ns (dataNsCollBlk (dataEntryKey de)))
    (coll (dataNsCollBlk (dataEntryKey de))) (committingBlk ek) = inr (expiringBlk ek) →
  mergeDataEntry s ue de ek oed = Ok ue' →
  updateEntriesInv s ue'.
Proof.
  intros Hinv Hoed Hblk Hpol. unfold mergeDataEntry.
  intros (omd & Hmd & Hrest)%bind_Ok.
  destruct omd as [md |]; [| by injection Hrest as <-].
  injection Hrest as <-.
  destruct (getMissingData_spec _ _ _ _ Hinv Hmd) as (bm0 & Hbm0 & Hbits).
  destruct Hinv as (I1 & I2 & I3 & I4).
  destruct de as [[ncb tx] v]. destruct ek as [e c]. simpl in *. subst c.
  split; [| split; [| split]].
  - (* merged entries have their bitmap *)
    intros dk'. simpl.
    replace (oldDataEntries (match oed with Some ed => _ | None => _ end))
      with (<[DataKey ncb tx := v]> (oldDataEntries ue)) by (by destruct oed).
    destruct (decide (dk' = DataKey ncb tx)) as [-> | Hne].
    + intros _. simpl. rewrite lookup_insert_eq. eauto.
    + rewrite lookup_insert_ne by done. intros Hd%I1.
      destruct (decide (dataNsCollBlk dk' = ncb)) as [-> | Hne'].
      * rewrite lookup_insert_eq. eauto.
      * rewrite lookup_insert_ne by done.
        by replace (oldMissingDataEntries (match oed with Some ed => _ | None => _ end))
          with (oldMissingDataEntries ue) by (by destruct oed).
  - (* bitmaps *)
    intros ncb' bm. simpl.
    replace (oldDataEntries (match oed with Some ed => _ | None => _ end))
      with (<[DataKey ncb tx := v]> (oldDataEntries ue)) by (by destruct oed).
    replace (oldMissingDataEntries (match oed with Some ed => _ | None => _ end))
      with (oldMissingDataEntries ue) by (by destruct oed).
    destruct (decide (ncb' = ncb)) as [-> | Hne].
    + rewrite lookup_insert_eq. intros [= <-]. exists bm0. split; [done |].
      intros i. unfold bitsetTest, bitsetClear in *. rewrite N.clearbit_eqb.
      fold (bitsetTest md i). rewrite Hbits.
      destruct (decide (i = tx)) as [-> | Hi].
      * rewrite N.eqb_refl. rewrite lookup_insert_eq.
        rewrite (bool_decide_eq_true_2 (is_Some (Some v))) by eauto.
        simpl. by rewrite !andb_false_r.
      * rewrite lookup_insert_ne by congruence.
        assert ((tx =? i) = false) as -> by (apply N.eqb_neq; congruence).
        simpl. by rewrite andb_true_r.
    + rewrite lookup_insert_ne by done. intros Hb.
      destruct (I2 _ _ Hb) as (bm1 & Hbm1 & Hbits1). exists bm1. split; [done |].
      intros i. rewrite lookup_insert_ne by congruence. apply Hbits1.
  - (* expiry entries *)
    intros ek' ed'. simpl.
    destruct oed as [ed |]; simpl; [| apply I3].
    destruct Hoed as (Hne & ed0 & Hed0 & Hment).
    destruct (decide (ek' = ExpiryKey e (blkNum ncb))) as [-> | Hne'].
    + rewrite lookup_insert_eq. intros [= <-]. split; [done |].
      exists ed0. split; [done |].
      intros n' c' [[-> ->] | H]%addPresentData_mentions; [by right | auto].
    + rewrite lookup_insert_ne by done. apply I3.
  - (* merged entries of expiring collections have their expiry entry *)
    intros dk' e'. simpl.
    replace (oldDataEntries (match oed with Some ed => _ | None => _ end))
      with (<[DataKey ncb tx := v]> (oldDataEntries ue)) by (by destruct oed).
    destruct (decide (dk' = DataKey ncb tx)) as [-> | Hne].
    + intros _. simpl. rewrite Hpol. intros [= <-] Hnever.
      destruct oed as [ed |]; simpl; [| congruence].
      rewrite lookup_insert_eq. eauto.
    + rewrite lookup_insert_ne by done. intros Hd He' Hnever.
      pose proof (I4 _ _ Hd He' Hnever) as Hex.
      destruct oed as [ed |]; simpl; [| done].
      destruct (decide (ExpiryKey e' (blkNum (dataNsCollBlk dk')) = ExpiryKey e (blkNum ncb)))
        as [-> | Hne'].
      * rewrite lookup_insert_eq. eauto.
      * by rewrite lookup_insert_ne.
Qed.

Lemma constructExpiryKey_Ok s de ek :
  constructExpiryKeyFromDataEntry s de = Ok ek →
  committingBlk ek = blkNum (dataNsCollBlk (dataEntryKey de)) ∧
  GetExpiringBlock (btlPolicy s) (ns (dataNsCollBlk (dataEntryKey de)))
    (coll (dataNsCollBlk (dataEntryKey de))) (blkNum (dataNsCollBlk (dataEntryKey de)))
    = inr (expiringBlk ek).
Proof.
  unfold constructExpiryKeyFromDataEntry.
  destruct (GetExpiringBlock _ _ _ _) as [msg | e]; simpl; [discriminate |].
  by intros [= <-].
Qed.

Lemma updateEntriesStep_inv s ue de ue' :
  updateEntriesInv s ue → updateEntriesStep s ue de = Ok ue' → updateEntriesInv s ue'.
Proof.
  intros Hinv. unfold updateEntriesStep.
  intros (ek & Hek & Hrest)%bind_Ok.
  apply constructExpiryKey_Ok in Hek as [Hblk Hpol].
  pose proof Hpol as Hpol'. rewrite <- Hblk in Hpol'.
  destruct (neverExpires (expiringBlk ek)) eqn:Hne; simpl in Hrest.
  - by apply (mergeDataEntry_inv s ue de ek None ue').
  - apply bind_Ok in Hrest as (oed & Hoed & Hrest).
    destruct oed as [ed |]; [| by injection Hrest as <-].
    apply (mergeDataEntry_inv s ue de ek (Some ed) ue'); try done.
    split; [done |]. by apply (getExpiryData_spec s ue).
Qed.

Lemma constructUpdateEntries_inv s dataEntries ue :
  constructUpdateEntriesFromDataEntries s dataEntries = Ok ue → updateEntriesInv s ue.
Proof.
  apply (foldRes_invariant (updateEntriesInv s)).
  - intros b1 a b2. apply updateEntriesStep_inv.
  - apply updateEntriesInv_empty.
Qed.

Lemma constructUpdateBatch_lookup (ue : entriesForPvtDataOfOldBlocks) (k : Key) :
  constructUpdateBatchFromUpdateEntries ue !! k =
    match k with
    | KData dk => (λ v, Some (VData v)) <$> oldDataEntries ue !! dk
    | KExpiry ek => (λ v, Some (VExpiry v)) <$> oldExpiryEntries ue !! ek
    | KMissingData (MissingDataKey ncb true) =>
        (λ bm, if bitsetNone bm then None else Some (VBitmap bm))
          <$> oldMissingDataEntries ue !! ncb
    | _ => None
    end.
Proof.
  unfold constructUpdateBatchFromUpdateEntries, addUpdatedMissingDataEntriesToUpdateBatch,
    addUpdatedExpiryEntriesToUpdateBatch, addNewDataEntriesToUpdateBatch, NewUpdateBatch.
  rewrite (foldl_ext_pointwise _
    (λ b' (kv : nsCollBlk * BitSet),
       <[KMissingData (MissingDataKey kv.1 true) :=
           if bitsetNone kv.2 then None else Some (VBitmap kv.2)]> b'))
    by (intros b' [a1 a2]; simpl; by destruct (bitsetNone a2)).
  unfold Put, encodeDataValue, encodeExpiryValue.
  set (fm := λ ncb : nsCollBlk, KMissingData (MissingDataKey ncb true)).
  set (hm := λ (_ : nsCollBlk) (bm : BitSet),
               if bitsetNone bm then None else Some (VBitmap bm)).
  set (he := λ (_ : expiryKey) (v : ExpiryData), Some (VExpiry v)).
  set (hd := λ (_ : dataKey) (v : CollectionPvtReadWriteSet), Some (VData v)).
  assert (Inj (=) (=) fm) by (intros ?? [=]; done).
  assert (Inj (=) (=) KExpiry) by (intros ?? [=]; done).
  assert (Inj (=) (=) KData) by (intros ?? [=]; done).
  destruct k as [dk | ek | [ncb []] | | | |].
  4-8: rewrite (foldl_insert_map_to_list_ne _ fm hm) by done;
    rewrite (foldl_insert_map_to_list_ne _ KExpiry he) by done;
    rewrite (foldl_insert_map_to_list_ne _ KData hd) by done; done.
  - rewrite (foldl_insert_map_to_list_ne _ fm hm) by done.
    rewrite (foldl_insert_map_to_list_ne _ KExpiry he) by done.
    rewrite (foldl_insert_map_to_list _ KData hd) by done.
    by destruct (oldDataEntries ue !! dk).
  - rewrite (foldl_insert_map_to_list_ne _ fm hm) by done.
    rewrite (foldl_insert_map_to_list _ KExpiry he) by done.
    destruct (oldExpiryEntries ue !! ek); [done |].
    rewrite (foldl_insert_map_to_list_ne _ KData hd) by done. done.
  - change (KMissingData (MissingDataKey ncb true)) with (fm ncb).
    rewrite (foldl_insert_map_to_list _ fm hm) by done.
    destruct (oldMissingDataEntries ue !! ncb); [done |].
    rewrite (foldl_insert_map_to_list_ne _ KExpiry he) by done.
    rewrite (foldl_insert_map_to_list_ne _ KData hd) by done. done.
Qed.

Lemma bitsetNone_spec (bm : BitSet) : bitsetNone bm = true ↔ ∀ i, bitsetTest bm i = false.
Proof.
  unfold bitsetNone, bitsetTest. rewrite N.eqb_eq. split.
  - intros -> i. apply N.bits_0.
  - intros H. apply N.bits_inj_0. exact H.
Qed.

Lemma bitsetNone_false (bm : BitSet) : bitsetNone bm = false ↔ ∃ i, bitsetTest bm i = true.
Proof.
  unfold bitsetNone, bitsetTest. rewrite N.eqb_neq. split.
  - intros H. exists (N.log2 bm). by apply N.bit_log2.
  - intros [i Hi] ->. by rewrite N.bits_0 in Hi.
Qed.

(** C7. Every data entry that [CommitPvtDataOfOldBlocks] merges has the bit of
    its transaction cleared in the eligible missing-data bitmap of its
    (namespace, collection, block): the bitmap of the update entries is the
    stored one without the bits of the merged transactions.  In the batch the
    missing-data key is deleted exactly when no bit is left, and holds the
    updated bitmap otherwise; the store after a successful write agrees. *)
Theorem CommitPvtDataOfOldBlocks_clears_missing_bits (s : Store)
    (blocksPvtData : list (N * list TxPvtData)) (ue : entriesForPvtDataOfOldBlocks) :
  isLastUpdatedOldBlocksSet s = false →
  constructUpdateEntriesFromDataEntries s
    (constructDataEntriesFromBlocksPvtData blocksPvtData) = Ok ue →
  ∀ dk, is_Some (oldDataEntries ue !! dk) →
    let ncb := dataNsCollBlk dk in
    let key := KMissingData (MissingDataKey ncb true) in
    let batch := constructUpdateBatchFromUpdateEntries ue in
    ∃ bm0 bm,
      db s !! key = Some (VBitmap bm0) ∧
      oldMissingDataEntries ue !! ncb = Some bm ∧
      (∀ i, bitsetTest bm i =
              bitsetTest bm0 i &&
              negb (bool_decide (is_Some (oldDataEntries ue !! DataKey ncb i)))) ∧
      bitsetTest bm (txNum dk) = false ∧
      (batch !! key = Some None ↔ ∀ i, bitsetTest bm i = false) ∧
      (batch !! key = Some (Some (VBitmap bm)) ↔ ∃ i, bitsetTest bm i = true) ∧
      db (CommitPvtDataOfOldBlocks s blocksPvtData true).1 !! key
        = (if bitsetNone bm then None else Some (VBitmap bm)).
Proof.
  intros Hflag Hue dk Hdk ncb key batch.
  pose proof (constructUpdateEntries_inv _ _ _ Hue) as (I1 & I2 & _).
  destruct (I1 _ Hdk) as [bm Hbm]. fold ncb in Hbm.
  destruct (I2 _ _ Hbm) as (bm0 & Hbm0 & Hbits).
  exists bm0, bm.
  assert (Hbatch : batch !! key
            = Some (if bitsetNone bm then None else Some (VBitmap bm))).
  { subst batch key. rewrite constructUpdateBatch_lookup. by rewrite Hbm. }
  split; [done |]. split; [done |]. split; [done |]. split.
  { rewrite Hbits. destruct dk as [ncb' tx]. simpl in *. subst ncb.
    rewrite (bool_decide_eq_true_2 _ Hdk). by rewrite andb_false_r. }
  split; [| split].
  - rewrite Hbatch, <- bitsetNone_spec. destruct (bitsetNone bm); split; congruence.
  - rewrite Hbatch, <- bitsetNone_false. destruct (bitsetNone bm); split; congruence.
  - unfold CommitPvtDataOfOldBlocks. rewrite Hflag, Hue. simpl.
    rewrite applyBatch_lookup. fold batch. by rewrite Hbatch.
Qed.

Lemma CommitPvtDataOfOldBlocks_clears_missing_bits_witness :
  let key := KMissingData (MissingDataKey (NsCollBlk "ns1" "coll2" 0) true) in
  db sampleStore0 !! key = Some (VBitmap 32) ∧
  db (CommitPvtDataOfOldBlocks sampleStore0 sampleOldBlocksPvtData true).1 !! key = None.
Proof.
  intros key. split; [reflexivity |].
  assert (Hue : constructUpdateEntriesFromDataEntries sampleStore0
                  (constructDataEntriesFromBlocksPvtData sampleOldBlocksPvtData)
                = Ok sampleUpdateEntries) by (vm_compute; reflexivity).
  assert (Hdk : is_Some (oldDataEntries sampleUpdateEntries
                           !! DataKey (NsCollBlk "ns1" "coll2" 0) 5))
    by (vm_compute; eauto).
  destruct (CommitPvtDataOfOldBlocks_clears_missing_bits sampleStore0
              sampleOldBlocksPvtData sampleUpdateEntries eq_refl Hue _ Hdk)
    as (bm0 & bm & _ & Hbm & _ & _ & _ & _ & Hdb).
  vm_compute in Hbm. injection Hbm as <-. exact Hdb.
Defined.

(** ** Entries that are already purged are skipped *)

Lemma updateEntriesStep_skip (s : Store) (ue : entriesForPvtDataOfOldBlocks)
    (de : dataEntry) (e : N) :
  let ncb := dataNsCollBlk (dataEntryKey de) in
  updateEntriesInv s ue →
  GetExpiringBlock (btlPolicy s) (ns ncb) (coll ncb) (blkNum ncb) = inr e →
  (neverExpires e = false ∧ db s !! KExpiry (ExpiryKey e (blkNum ncb)) = None) ∨
  ((neverExpires e = true ∨
    ∃ ed, db s !! KExpiry (ExpiryKey e (blkNum ncb)) = Some (VExpiry ed)) ∧
   db s !! KMissingData (MissingDataKey ncb true) = None) →
  updateEntriesStep s ue de = Ok ue.
Proof.
  intros ncb Hinv Hpol Hcase.
  unfold updateEntriesStep, constructExpiryKeyFromDataEntry. fold ncb.
  rewrite Hpol. simpl.
  assert (Hmiss : db s !! KMissingData (MissingDataKey ncb true) = None →
            ∀ oed, mergeDataEntry s ue de (ExpiryKey e (blkNum ncb)) oed = Ok ue).
  { intros Hnone oed. unfold mergeDataEntry, getMissingDataFromUpdateEntriesOrStore.
    fold ncb. destruct (oldMissingDataEntries ue !! ncb) as [bm |] eqn:E.
    - destruct Hinv as (_ & I2 & _). destruct (I2 _ _ E) as (bm0 & Hbm0 & _). congruence.
    - by rewrite (proj2 (getBitmapOfMissingDataKey_None s _) Hnone). }
  assert (Hexp : db s !! KExpiry (ExpiryKey e (blkNum ncb)) = None →
            getExpiryDataFromUpdateEntriesOrStore s ue (ExpiryKey e (blkNum ncb)) = Ok None).
  { intros Hnone. unfold getExpiryDataFromUpdateEntriesOrStore.
    destruct (oldExpiryEntries ue !! ExpiryKey e (blkNum ncb)) as [ed |] eqn:E.
    - destruct Hinv as (_ & _ & I3 & _). destruct (I3 _ _ E) as (_ & ed0 & Hed0 & _).
      congruence.
    - by apply getExpiryDataOfExpiryKey_None. }
  destruct Hcase as [[Hne Hnone] | [Hexpiry Hnone]].
  - rewrite Hne. simpl. by rewrite (Hexp Hnone).
  - destruct (neverExpires e) eqn:Hne; simpl; [by apply Hmiss |].
    destruct Hexpiry as [? | [ed Hed]]; [done |].
    unfold getExpiryDataFromUpdateEntriesOrStore.
    destruct (oldExpiryEntries ue !! ExpiryKey e (blkNum ncb)) as [ed' |] eqn:E; simpl.
    + by apply Hmiss.
    + rewrite (proj2 (getExpiryDataOfExpiryKey_Some s _ ed) Hed). simpl. by apply Hmiss.
Qed.

Lemma constructUpdateEntries_skip (s : Store) (l1 l2 : list dataEntry) (de : dataEntry) :
  (∀ ue, updateEntriesInv s ue → updateEntriesStep s ue de = Ok ue) →
  constructUpdateEntriesFromDataEntries s (l1 ++ de :: l2)
    = constructUpdateEntriesFromDataEntries s (l1 ++ l2).
Proof.
  intros Hskip. unfold constructUpdateEntriesFromDataEntries.
  rewrite !foldRes_app.
  destruct (foldRes (updateEntriesStep s) emptyUpdateEntries l1) as [ue1 | err] eqn:E;
    simpl; [| done].
  rewrite Hskip; [done |].
  by apply (constructUpdateEntries_inv s l1).
Qed.

(** C10. A supplied data entry of an expiring collection whose expiry entry is
    not in the store, or an entry whose eligible missing-data bitmap is not in
    the store (its expiry entry, if it needs one, being there), is skipped by
    [CommitPvtDataOfOldBlocks]: its round of the loop returns no error and
    leaves the update entries as they are, so that the call behaves as if the
    entry had not been supplied; the batch holds no data entry for its key and
    no update of the absent expiry or missing-data key, and the data key is
    in the store after the call as it was before. *)
Theorem CommitPvtDataOfOldBlocks_skips_purged_entries (s : Store) (de : dataEntry) (e : N) :
  let key := dataEntryKey de in
  let ncb := dataNsCollBlk key in
  let expiryKey := KExpiry (ExpiryKey e (blkNum ncb)) in
  let missingKey := KMissingData (MissingDataKey ncb true) in
  GetExpiringBlock (btlPolicy s) (ns ncb) (coll ncb) (blkNum ncb) = inr e →
  (neverExpires e = false ∧ db s !! expiryKey = None) ∨
  ((neverExpires e = true ∨ ∃ ed, db s !! expiryKey = Some (VExpiry ed)) ∧
   db s !! missingKey = None) →
  (∀ ue, updateEntriesInv s ue → updateEntriesStep s ue de = Ok ue) ∧
  (∀ l1 l2,
     constructUpdateEntriesFromDataEntries s (l1 ++ de :: l2)
       = constructUpdateEntriesFromDataEntries s (l1 ++ l2)) ∧
  (∀ l ue, constructUpdateEntriesFromDataEntries s l = Ok ue →
     let batch := constructUpdateBatchFromUpdateEntries ue in
     batch !! KData key = None ∧
     (db s !! expiryKey = None → batch !! expiryKey = None) ∧
     (db s !! missingKey = None → batch !! missingKey = None)) ∧
  (∀ blocksPvtData writeOk,
     db (CommitPvtDataOfOldBlocks s blocksPvtData writeOk).1 !! KData key
       = db s !! KData key).
Proof.
  intros key ncb expiryKey missingKey Hpol Hcase.
  assert (Hstep : ∀ ue, updateEntriesInv s ue → updateEntriesStep s ue de = Ok ue).
  { intros ue Hinv. by apply (updateEntriesStep_skip s ue de e). }
  assert (Hbatch : ∀ l ue, constructUpdateEntriesFromDataEntries s l = Ok ue →
     let batch := constructUpdateBatchFromUpdateEntries ue in
     batch !! KData key = None ∧
     (db s !! expiryKey = None → batch !! expiryKey = None) ∧
     (db s !! missingKey = None → batch !! missingKey = None)).
  { intros l ue Hue batch. subst batch.
    pose proof (constructUpdateEntries_inv _ _ _ Hue) as (I1 & I2 & I3 & I4).
    assert (Hexp : db s !! expiryKey = None →
              oldExpiryEntries ue !! ExpiryKey e (blkNum ncb) = None).
    { intros Hnone. destruct (oldExpiryEntries ue !! _) as [ed |] eqn:E; [| done].
      destruct (I3 _ _ E) as (_ & ed0 & Hed0 & _). subst expiryKey. congruence. }
    assert (Hmis : db s !! missingKey = None → oldMissingDataEntries ue !! ncb = None).
    { intros Hnone. destruct (oldMissingDataEntries ue !! ncb) as [bm |] eqn:E; [| done].
      destruct (I2 _ _ E) as (bm0 & Hbm0 & _). subst missingKey. congruence. }
    rewrite !constructUpdateBatch_lookup. subst expiryKey missingKey. simpl.
    split; [| split].
    - destruct (oldDataEntries ue !! key) as [v |] eqn:E; [| done]. exfalso.
      assert (Hk : is_Some (oldDataEntries ue !! key)) by eauto.
      destruct Hcase as [[Hne Hnone] | [_ Hnone]].
      + pose proof (I4 key e Hk Hpol Hne) as [ed Hed]. fold ncb in Hed.
        rewrite (Hexp Hnone) in Hed. done.
      + pose proof (I1 key Hk) as [bm Hbm]. fold ncb in Hbm.
        rewrite (Hmis Hnone) in Hbm. done.
    - intros Hnone. by rewrite (Hexp Hnone).
    - intros Hnone. by rewrite (Hmis Hnone). }
  split; [done |]. split; [| split; [done |]].
  - intros l1 l2. by apply constructUpdateEntries_skip.
  - intros blocksPvtData writeOk. unfold CommitPvtDataOfOldBlocks.
    destruct (isLastUpdatedOldBlocksSet s); [done |].
    destruct (constructUpdateEntriesFromDataEntries _ _) as [ue | err] eqn:Hue; [| done].
    unfold commitBatch, WriteBatch. destruct writeOk; [| done]. simpl.
    rewrite applyBatch_lookup.
    destruct (Hbatch _ _ Hue) as (-> & _). done.
Qed.

Lemma CommitPvtDataOfOldBlocks_skips_purged_entries_witness :
  db (CommitPvtDataOfOldBlocks sampleStore sampleOldBlocksPvtData true).1
    !! KData (dataEntryKey sampleDataEntry) = None.
Proof.
  assert (Hpol : GetExpiringBlock (btlPolicy sampleStore) "ns1" "coll1" 0 = inr 2)
    by reflexivity.
  assert (Hcase :
    (neverExpires 2 = false ∧ db sampleStore !! KExpiry (ExpiryKey 2 0) = None) ∨
    ((neverExpires 2 = true ∨
      ∃ ed, db sampleStore !! KExpiry (ExpiryKey 2 0) = Some (VExpiry ed)) ∧
     db sampleStore !! KMissingData (MissingDataKey (NsCollBlk "ns1" "coll1" 0) true) = None))
    by (left; split; reflexivity).
  destruct (CommitPvtDataOfOldBlocks_skips_purged_entries sampleStore sampleDataEntry 2
              Hpol Hcase) as (_ & _ & _ & Hdb).
  rewrite (Hdb sampleOldBlocksPvtData true). reflexivity.
Defined.

(** ** Range scans *)

Lemma elem_of_GetIterator {K : Type} (inRange : Key → option K)
    (cmp : K → K → comparison) (d : DB) (k : K) (v : Value) :
  (k, v) ∈ GetIterator inRange cmp d ↔ ∃ key, d !! key = Some v ∧ inRange key = Some k.
Proof.
  unfold GetIterator. rewrite merge_sort_Permutation, list_elem_of_omap. split.
  - intros ([key v'] & Hin%elem_of_map_to_list & Hr). simpl in Hr.
    destruct (inRange key) as [k' |] eqn:E; [| done].
    injection Hr as <- <-. eauto.
  - intros (key & Hd & Hr). exists (key, v). split; [by apply elem_of_map_to_list |].
    simpl. by rewrite Hr.
Qed.

Lemma GetIterator_nil {K : Type} (inRange : Key → option K)
    (cmp : K → K → comparison) (d : DB) :
  (∀ key v, d !! key = Some v → inRange key = None) → GetIterator inRange cmp d = [].
Proof.
  intros H. destruct (GetIterator inRange cmp d) as [| [k v] l] eqn:E; [done |].
  assert (Hin : (k, v) ∈ GetIterator inRange cmp d) by (rewrite E; left).
  apply elem_of_GetIterator in Hin as (key & Hd & Hr).
  rewrite (H _ _ Hd) in Hr. done.
Qed.

(** ** The purge sweep *)

Lemma retrieveExpiryEntries_keys_aux (itr : list (expiryKey * Value))
    (acc entries : list expiryEntry) :
  foldRes (λ expiryEntries kv,
             expiryValue ← decodeExpiryValue kv.2;
             Ok (expiryEntries ++ [ {| expiryEntryKey := kv.1; expiryEntryValue := expiryValue |} ]))
          acc itr = Ok entries →
  expiryEntryKey <$> entries = (expiryEntryKey <$> acc) ++ itr.*1.
Proof.
  revert acc. induction itr as [| [k v] itr IH]; intros acc; simpl.
  - intros [= <-]. by rewrite app_nil_r.
  - intros (acc' & Hacc & Hrest)%bind_Ok.
    apply bind_Ok in Hacc as (ev & _ & [= <-]).
    rewrite (IH _ Hrest). rewrite fmap_app. simpl. by rewrite <- app_assoc.
Qed.

Lemma retrieveExpiryEntries_keys (s : Store) (minBlkNum maxBlkNum : N)
    (entries : list expiryEntry) (ek : expiryKey) :
  retrieveExpiryEntries s minBlkNum maxBlkNum = Ok entries →
  (ek ∈ expiryEntryKey <$> entries ↔
   is_Some (db s !! KExpiry ek) ∧ minBlkNum ≤ expiringBlk ek ≤ maxBlkNum).
Proof.
  unfold retrieveExpiryEntries. intros H%retrieveExpiryEntries_keys_aux.
  rewrite H. simpl. rewrite list_elem_of_fmap. split.
  - intros ([k v] & -> & (key & Hd & Hr)%elem_of_GetIterator). simpl.
    destruct key; try done. simpl in Hr.
    destruct ((minBlkNum <=? expiringBlk k0) && (expiringBlk k0 <=? maxBlkNum)) eqn:E;
      [| done].
    injection Hr as <-. apply andb_true_iff in E as [E1%N.leb_le E2%N.leb_le]. eauto.
  - intros [[v Hv] [H1 H2]]. exists (ek, v). split; [done |].
    apply elem_of_GetIterator. exists (KExpiry ek). split; [done |]. simpl.
    apply N.leb_le in H1, H2. by rewrite H1, H2.
Qed.


Lemma foldl_preserves {A B : Type} (P : B → Prop) (g : B → A → B) (l : list A) (b : B) :
  (∀ b' a, P b' → P (g b' a)) → P b → P (foldl g b l).
Proof.
  intros Hg. revert b. induction l as [| a l IH]; intros b Hb; simpl; [done |].
  apply IH. by apply Hg.
Qed.

Lemma allDeletes_Delete (k : Key) (batch : UpdateBatch) :
  allDeletes batch → allDeletes (Delete k batch).
Proof.
  intros H k' v. unfold Delete. rewrite lookup_insert.
  case_decide; [congruence | apply H].
Qed.

Lemma is_Some_Delete (k k' : Key) (batch : UpdateBatch) :
  is_Some (batch !! k') → is_Some (Delete k batch !! k').
Proof. unfold Delete. rewrite lookup_insert. case_decide; eauto. Qed.

(** The batch of one round of the purge: it only deletes, it keeps what the
    batch of the rounds before deleted, and it deletes the expiry key. *)
Lemma purgeRound_batch (batch : UpdateBatch) (expiryEntry : expiryEntry) :
  let batch' :=
    foldl (λ b missingDataKey, Delete (KMissingData missingDataKey) b)
      (foldl (λ b dataKey, Delete (KData dataKey) b)
         (Delete (KExpiry (expiryEntryKey expiryEntry)) batch)
         (deriveKeys expiryEntry).1)
      (deriveKeys expiryEntry).2 in
  allDeletes batch →
  allDeletes batch' ∧
  (∀ k, is_Some (batch !! k) → is_Some (batch' !! k)) ∧
  is_Some (batch' !! KExpiry (expiryEntryKey expiryEntry)).
Proof.
  intros batch' Hall. subst batch'. split; [| split].
  - apply (foldl_preserves allDeletes); [intros; by apply allDeletes_Delete |].
    apply (foldl_preserves allDeletes); [intros; by apply allDeletes_Delete |].
    by apply allDeletes_Delete.
  - intros k Hk.
    apply (foldl_preserves (λ b, is_Some (b !! k))); [intros; by apply is_Some_Delete |].
    apply (foldl_preserves (λ b, is_Some (b !! k))); [intros; by apply is_Some_Delete |].
    by apply is_Some_Delete.
  - apply (foldl_preserves (λ b, is_Some (b !! KExpiry (expiryEntryKey expiryEntry))));
      [intros; by apply is_Some_Delete |].
    apply (foldl_preserves (λ b, is_Some (b !! KExpiry (expiryEntryKey expiryEntry))));
      [intros; by apply is_Some_Delete |].
    unfold Delete. rewrite lookup_insert_eq. eauto.
Qed.

Lemma purgeLoop_cons (d : DB) (batch : UpdateBatch) (writeOk : nat → bool) (i : nat)
    (e : expiryEntry) (rest : list expiryEntry) :
  purgeLoop d batch writeOk i (e :: rest) =
    let batch' :=
      foldl (λ b missingDataKey, Delete (KMissingData missingDataKey) b)
        (foldl (λ b dataKey, Delete (KData dataKey) b)
           (Delete (KExpiry (expiryEntryKey e)) batch)
           (deriveKeys e).1)
        (deriveKeys e).2 in
    purgeLoop (WriteBatch d batch' (writeOk i)).1 batch' writeOk (S i) rest.
Proof. cbn [purgeLoop]. by destruct (deriveKeys e). Qed.

Lemma purgeLoop_spec (d : DB) (batch : UpdateBatch) (writeOk : nat → bool) (i : nat)
    (expiryEntries : list expiryEntry) :
  (∀ j, writeOk j = true) →
  allDeletes batch →
  (∀ k, is_Some (batch !! k) → d !! k = None) →
  let r := purgeLoop d batch writeOk i expiryEntries in
  (∀ k, is_Some (batch !! k) → r !! k = None) ∧
  (∀ e, e ∈ expiryEntries → r !! KExpiry (expiryEntryKey e) = None) ∧
  (∀ k v, r !! k = Some v → d !! k = Some v).
Proof.
  intros Hw. revert d batch i.
  induction expiryEntries as [| e rest IH]; intros d batch i Hall Happlied.
  - simpl. split; [done |]. split; [| done]. intros e' He'. by apply elem_of_nil in He'.
  - rewrite purgeLoop_cons.
    pose proof (purgeRound_batch batch e Hall) as (Hall' & Hmono & Hexp).
    set (batch' := foldl _ (foldl _ (Delete _ batch) _) _) in *.
    cbv zeta. rewrite Hw. unfold WriteBatch. cbn [fst].
    assert (Happlied' : ∀ k, is_Some (batch' !! k) → applyBatch batch' d !! k = None).
    { intros k [v Hv]. rewrite applyBatch_lookup, Hv. by apply Hall' in Hv. }
    destruct (IH (applyBatch batch' d) batch' (S i) Hall' Happlied') as (R1 & R2 & R3).
    split; [| split].
    + intros k Hk. exact (R1 k (Hmono k Hk)).
    + intros e' [-> | He']%elem_of_cons; [exact (R1 _ Hexp) | exact (R2 _ He')].
    + intros k v Hr. apply (R3 k v) in Hr. rewrite applyBatch_lookup in Hr.
      destruct (batch' !! k) as [o |] eqn:Eb; [| done].
      apply Hall' in Eb. by subst o.
Qed.

(** C8. The purge sweep is idempotent.  When the writes of a first sweep over
    the window [minBlkNum, maxBlkNum] go through, a second sweep over the
    same window scans the expiry range, finds no expiry entry left, returns
    what the first returned and leaves the store as the first left it,
    whatever the storage layer would answer to a write. *)
Theorem purgeExpiredData_idempotent (s : Store) (minBlkNum maxBlkNum : N)
    (writeOk1 writeOk2 : nat → bool) :
  (∀ i, writeOk1 i = true) →
  let once := purgeExpiredData s minBlkNum maxBlkNum writeOk1 in
  purgeExpiredData once.1 minBlkNum maxBlkNum writeOk2 = once ∧
  (once.2 = None → retrieveExpiryEntries once.1 minBlkNum maxBlkNum = Ok []).
Proof.
  intros Hw once. subst once. unfold purgeExpiredData at 2 4 5.
  destruct (retrieveExpiryEntries s minBlkNum maxBlkNum) as [[| e rest] | err] eqn:E;
    cbn [fst snd].
  - unfold purgeExpiredData. by rewrite E.
  - assert (Hnil : retrieveExpiryEntries
              (setDB s (purgeLoop (db s) NewUpdateBatch writeOk1 0 (e :: rest)))
              minBlkNum maxBlkNum = Ok []).
    { unfold retrieveExpiryEntries. rewrite GetIterator_nil; [done |].
      intros key v Hv. destruct key as [| ek | | | | |]; try done. simpl.
      destruct ((minBlkNum <=? expiringBlk ek) && (expiringBlk ek <=? maxBlkNum)) eqn:Er;
        [| done].
      exfalso. unfold setDB in Hv. cbn [db] in Hv.
      destruct (purgeLoop_spec (db s) NewUpdateBatch writeOk1 0 (e :: rest) Hw)
        as (_ & R2 & R3).
      { intros k v'. unfold NewUpdateBatch. by rewrite lookup_empty. }
      { intros k [v' Hv']. unfold NewUpdateBatch in Hv'. by rewrite lookup_empty in Hv'. }
      assert (Hin : ek ∈ expiryEntryKey <$> e :: rest).
      { apply (retrieveExpiryEntries_keys s minBlkNum maxBlkNum _ ek E).
        apply andb_true_iff in Er as [E1%N.leb_le E2%N.leb_le]. split; [| done].
        apply R3 in Hv. eauto. }
      apply list_elem_of_fmap in Hin as (e' & -> & He').
      apply R2 in He'. rewrite He' in Hv. done. }
    split; [| intros _; exact Hnil]. unfold purgeExpiredData. rewrite Hnil. by rewrite E.
  - unfold purgeExpiredData. rewrite E. done.
Qed.

Lemma purgeExpiredData_idempotent_witness :
  purgeExpiredData (purgeExpiredData sampleStore2 0 2 alwaysOk).1 0 2 neverOk
    = purgeExpiredData sampleStore2 0 2 alwaysOk.
Proof.
  apply (purgeExpiredData_idempotent sampleStore2 0 2 alwaysOk neverOk).
  intros i. reflexivity.
Defined.

(** ** Validation of reconciled private data *)

Section ValidationProperties.

Import Reconciliation.

Variable TxRwSet : Type.
Variable GetPvtDataHash : TxRwSet → string → string → option (list byte).
Variable ComputeSHA256 : list byte → list byte.

Abbreviation collValid := (collValid TxRwSet GetPvtDataHash ComputeSHA256).
Abbreviation findInvalidNsPvtData :=
  (findInvalidNsPvtData TxRwSet GetPvtDataHash ComputeSHA256).
Abbreviation findValidAndInvalidTxPvtData :=
  (findValidAndInvalidTxPvtData TxRwSet GetPvtDataHash ComputeSHA256).

Abbreviation mismatchOf := (mismatchOf TxRwSet GetPvtDataHash ComputeSHA256).
Abbreviation invalidOf := (invalidOf TxRwSet GetPvtDataHash ComputeSHA256).

Lemma findInvalidNsPvtData_spec (nsRwset : NsPvtReadWriteSet) (txRWSet : TxRwSet)
    (blk tx : N) :
  findInvalidNsPvtData nsRwset txRWSet blk tx =
    (omap (mismatchOf txRWSet blk tx (Namespace nsRwset)) (CollectionPvtRwset nsRwset),
     omap (invalidOf txRWSet (Namespace nsRwset)) (CollectionPvtRwset nsRwset)).
Proof.
  unfold Reconciliation.findInvalidNsPvtData.
  generalize (CollectionPvtRwset nsRwset) as cs.
  assert (H : ∀ cs acc1 acc2,
    foldl (λ acc collPvtRwset,
             match GetPvtDataHash txRWSet (Namespace nsRwset) (CollectionName collPvtRwset) with
             | None => (acc.1, acc.2 ++ [ {| nsOf := Namespace nsRwset;
                                             collOf := CollectionName collPvtRwset |} ])
             | Some rwsetHash =>
                 if negb (bool_decide (ComputeSHA256 (Rwset collPvtRwset) = rwsetHash)) then
                   (acc.1 ++ [ {| BlockNum := blk; TxNum := tx;
                                  mismatchNamespace := Namespace nsRwset;
                                  mismatchCollection := CollectionName collPvtRwset;
                                  ExpectedHash := rwsetHash |} ],
                    acc.2 ++ [ {| nsOf := Namespace nsRwset;
                                  collOf := CollectionName collPvtRwset |} ])
                 else acc
             end) (acc1, acc2) cs
    = (acc1 ++ omap (mismatchOf txRWSet blk tx (Namespace nsRwset)) cs,
       acc2 ++ omap (invalidOf txRWSet (Namespace nsRwset)) cs)).
  { induction cs as [| c cs IH]; intros acc1 acc2; simpl.
    - by rewrite !app_nil_r.
    - unfold mismatchOf, invalidOf, Reconciliation.collValid.
      destruct (GetPvtDataHash txRWSet (Namespace nsRwset) (CollectionName c)) as [h |];
        simpl.
      + destruct (bool_decide (ComputeSHA256 (Rwset c) = h)); simpl.
        * apply IH.
        * rewrite IH. by rewrite <- !app_assoc.
      + rewrite IH. by rewrite <- !app_assoc. }
  intros cs. apply (H cs [] []).
Qed.

Lemma findValidAndInvalidTxPvtData_spec (txPvtData : TxPvtData) (txRWSet : TxRwSet)
    (blk : N) :
  let nsRwsets := NsPvtRwset (WriteSet txPvtData) in
  let invalidPvtData :=
    nsRwsets ≫= λ n, omap (mismatchOf txRWSet blk (SeqInBlock txPvtData) (Namespace n))
                        (CollectionPvtRwset n) in
  let toDeleteNsColl :=
    nsRwsets ≫= λ n, omap (invalidOf txRWSet (Namespace n)) (CollectionPvtRwset n) in
  let writeSet :=
    foldl (λ l d, removeCollFromNsList l (nsOf d) (collOf d)) nsRwsets toDeleteNsColl in
  findValidAndInvalidTxPvtData txPvtData txRWSet blk =
    (if decide (length writeSet = 0%nat) then None
     else Some {| SeqInBlock := SeqInBlock txPvtData;
                  WriteSet := {| NsPvtRwset := writeSet |} |},
     invalidPvtData).
Proof.
  intros nsRwsets invalidPvtData toDeleteNsColl writeSet.
  unfold Reconciliation.findValidAndInvalidTxPvtData. fold nsRwsets.
  assert (H : ∀ l acc1 acc2,
    foldl (λ acc nsRwset,
             let '(invalidData, invalidNsColl) :=
               findInvalidNsPvtData nsRwset txRWSet blk (SeqInBlock txPvtData) in
             (acc.1 ++ invalidData, acc.2 ++ invalidNsColl)) (acc1, acc2) l
    = (acc1 ++ (l ≫= λ n, omap (mismatchOf txRWSet blk (SeqInBlock txPvtData) (Namespace n))
                            (CollectionPvtRwset n)),
       acc2 ++ (l ≫= λ n, omap (invalidOf txRWSet (Namespace n)) (CollectionPvtRwset n)))).
  { induction l as [| n l IH]; intros acc1 acc2; simpl.
    - by rewrite !app_nil_r.
    - rewrite findInvalidNsPvtData_spec. simpl. rewrite IH. by rewrite <- !app_assoc. }
  rewrite (H nsRwsets [] []). simpl.
  fold invalidPvtData toDeleteNsColl.
  assert (Hw : NsPvtRwset
            (foldl (λ p d, removeCollFromTxPvtReadWriteSet p (nsOf d) (collOf d))
                   (WriteSet txPvtData) toDeleteNsColl) = writeSet).
  { subst writeSet nsRwsets. generalize toDeleteNsColl as dels.
    generalize (WriteSet txPvtData) as p.
    intros p dels. revert p. induction dels as [| d dels IH]; intros p; simpl; [done |].
    by rewrite IH. }
  set (p := foldl (λ p d, removeCollFromTxPvtReadWriteSet p (nsOf d) (collOf d))
              (WriteSet txPvtData) toDeleteNsColl) in *.
  destruct p as [l]. simpl in Hw. subst l. simpl.
  by destruct (decide (length writeSet = 0%nat)).
Qed.

Lemma removeCollFromList_spec (cs : list CollectionPvtReadWriteSet) (collName : string) :
  NoDup (CollectionName <$> cs) →
  NoDup (CollectionName <$> removeCollFromList cs collName) ∧
  ∀ c, c ∈ removeCollFromList cs collName ↔ c ∈ cs ∧ CollectionName c ≠ collName.
Proof.
  induction cs as [| c0 cs IH]; simpl.
  - intros _. split; [constructor |]. intros c. split; [by intros ?%elem_of_nil | by intros [?%elem_of_nil _]].
  - intros [Hc0 Hnd]%NoDup_cons. destruct (IH Hnd) as [IHnd IHin].
    destruct (decide (CollectionName c0 = collName)) as [<- | Hne].
    + split; [done |]. intros c. rewrite elem_of_cons. split.
      * intros Hc. split; [by right |]. intros Heq. apply Hc0. rewrite <- Heq.
        by apply list_elem_of_fmap_2.
      * intros [[-> | Hc] Hn]; done.
    + split.
      * simpl. apply NoDup_cons. split; [| done].
        intros (c & Heq & Hc%IHin)%list_elem_of_fmap. apply Hc0. rewrite Heq.
        apply list_elem_of_fmap_2. tauto.
      * intros c. rewrite !elem_of_cons, IHin. split.
        -- intros [-> | [Hc Hn]]; [by split; [left |] | by split; [right |]].
        -- intros [[-> | Hc] Hn]; [by left | by right].
Qed.

Lemma removeCollFromNsList_namespaces (l : list NsPvtReadWriteSet) (n coll' : string) y :
  y ∈ removeCollFromNsList l n coll' → Namespace y ∈ Namespace <$> l.
Proof.
  induction l as [| x l IH]; simpl; [by intros ?%elem_of_nil |].
  destruct (decide (Namespace x = n)).
  - destruct (decide (length _ = 0%nat)).
    + intros Hy. right. by apply list_elem_of_fmap_2.
    + intros [-> | Hy]%elem_of_cons; [by left |]. right. by apply list_elem_of_fmap_2.
  - intros [-> | Hy]%elem_of_cons; [by left |]. right. by apply IH.
Qed.

Lemma removeCollFromNsList_spec (l : list NsPvtReadWriteSet) (n coll' : string) :
  wellFormedNsList l →
  wellFormedNsList (removeCollFromNsList l n coll') ∧
  ∀ n' c, inNsList (removeCollFromNsList l n coll') n' c ↔
          inNsList l n' c ∧ ¬ (n' = n ∧ CollectionName c = coll').
Proof.
  unfold wellFormedNsList, inNsList.
  induction l as [| x l IH]; simpl.
  - intros _. split; [split; constructor |]. intros n' c. split.
    + by intros (y & ?%elem_of_nil & _).
    + by intros [(y & ?%elem_of_nil & _) _].
  - intros [[Hx Hnd]%NoDup_cons [[Hne Hcs] Hall]%Forall_cons].
    destruct (IH (conj Hnd Hall)) as [[IHnd IHall] IHin].
    destruct (removeCollFromList_spec (CollectionPvtRwset x) coll' Hcs) as [Hcs' Hin'].
    assert (Htail : ∀ y, y ∈ l → Namespace y ≠ Namespace x).
    { intros y Hy Heq. apply Hx. rewrite <- Heq. by apply list_elem_of_fmap_2. }
    destruct (decide (Namespace x = n)) as [<- | Hn].
    + destruct (decide (length (removeCollFromList (CollectionPvtRwset x) coll') = 0%nat))
        as [Hlen | Hlen].
      * apply nil_length_inv in Hlen.
        split; [exact (conj Hnd Hall) |]. intros n' c. split.
        -- intros (y & Hy & <- & Hc). split; [exists y; by rewrite elem_of_cons; auto |].
           intros [Heq _]. by apply (Htail y).
        -- intros [(y & [-> | Hy]%elem_of_cons & <- & Hc) Hnot]; [| by exists y].
           exfalso. assert (Hc' : c ∈ removeCollFromList (CollectionPvtRwset x) coll').
           { apply Hin'. split; [done |]. intros Heq. by apply Hnot. }
           rewrite Hlen in Hc'. by apply elem_of_nil in Hc'.
      * split.
        -- split; [by apply NoDup_cons |]. apply Forall_cons. split; [| done].
           split; [| done]. simpl. intros Heq. apply Hlen. by rewrite Heq.
        -- intros n' c. split.
           ++ intros (y & [-> | Hy]%elem_of_cons & <- & Hc).
              ** simpl in Hc. apply Hin' in Hc as [Hc Hcn].
                 split; [exists x; by rewrite elem_of_cons; auto |]. by intros [_ ?].
              ** split; [exists y; by rewrite elem_of_cons; auto |].
                 intros [Heq _]. by apply (Htail y).
           ++ intros [(y & [-> | Hy]%elem_of_cons & <- & Hc) Hnot].
              ** exists (removeCollFromNsPvtWriteSet x coll').
                 split; [by left |]. split; [done |]. simpl. apply Hin'.
                 split; [done |]. intros Heq. by apply Hnot.
              ** exists y. by rewrite elem_of_cons; auto.
    + split.
      * split; [| by apply Forall_cons].
        apply NoDup_cons. split; [| done].
        intros (y & Heq & Hy)%list_elem_of_fmap.
        apply removeCollFromNsList_namespaces in Hy. rewrite <- Heq in Hy. done.
      * intros n' c. split.
        -- intros (y & [-> | Hy]%elem_of_cons & <- & Hc).
           ++ split; [exists x; by rewrite elem_of_cons; auto |]. by intros [? _].
           ++ destruct (proj1 (IHin (Namespace y) c)) as [(z & Hz & Hzn & Hzc) Hnot];
                [by exists y |].
              split; [exists z; by rewrite elem_of_cons; auto | done].
        -- intros [(y & [-> | Hy]%elem_of_cons & <- & Hc) Hnot].
           ++ exists x. by rewrite elem_of_cons; auto.
           ++ destruct (proj2 (IHin (Namespace y) c)) as (z & Hz & Hzn & Hzc);
                [split; [by exists y | done] |].
              exists z. by rewrite elem_of_cons; auto.
Qed.

Lemma foldl_removeColl_spec (dels : list nsColl) (l : list NsPvtReadWriteSet) :
  wellFormedNsList l →
  let l' := foldl (λ l d, removeCollFromNsList l (nsOf d) (collOf d)) l dels in
  wellFormedNsList l' ∧
  ∀ n c, inNsList l' n c ↔
         inNsList l n c ∧ ∀ d, d ∈ dels → ¬ (n = nsOf d ∧ CollectionName c = collOf d).
Proof.
  revert l. induction dels as [| d dels IH]; intros l Hwf; simpl.
  - split; [done |]. intros n c. split; [| tauto].
    intros H. split; [done |]. by intros d ?%elem_of_nil.
  - destruct (removeCollFromNsList_spec l (nsOf d) (collOf d) Hwf) as [Hwf1 Hin1].
    destruct (IH _ Hwf1) as [Hwf2 Hin2]. split; [done |].
    intros n c. rewrite Hin2, Hin1. split.
    + intros [[Hl Hd] Hrest]. split; [done |].
      intros d' [-> | Hd']%elem_of_cons; [done | by apply Hrest].
    + intros [Hl Hall]. split; [split; [done |] |].
      * apply Hall. by left.
      * intros d' Hd'. apply Hall. by right.
Qed.

Lemma NoDup_fmap_unique {A B : Type} (f : A → B) (l : list A) (x y : A) :
  NoDup (f <$> l) → x ∈ l → y ∈ l → f x = f y → x = y.
Proof.
  induction l as [| a l IH]; simpl; [by intros _ ?%elem_of_nil |].
  intros [Ha Hnd]%NoDup_cons [-> | Hx]%elem_of_cons [-> | Hy]%elem_of_cons Heq; auto.
  - exfalso. apply Ha. rewrite Heq. by apply list_elem_of_fmap_2.
  - exfalso. apply Ha. rewrite <- Heq. by apply list_elem_of_fmap_2.
Qed.

(** In a well-formed write-set the pairs collected for removal are the
    invalid collections. *)
Lemma toDelete_spec (l : list NsPvtReadWriteSet) (txRWSet : TxRwSet) (n : string)
    (c : CollectionPvtReadWriteSet) :
  wellFormedNsList l → inNsList l n c →
  (∀ d, d ∈ (l ≫= λ x, omap (invalidOf txRWSet (Namespace x)) (CollectionPvtRwset x)) →
        ¬ (n = nsOf d ∧ CollectionName c = collOf d))
  ↔ collValid txRWSet n c = true.
Proof.
  intros [Hnd Hall] (x & Hx & <- & Hc). split.
  - intros H. destruct (collValid txRWSet (Namespace x) c) eqn:E; [done |]. exfalso.
    apply (H {| nsOf := Namespace x; collOf := CollectionName c |}); [| done].
    apply list_elem_of_bind. exists x. split; [| done].
    apply list_elem_of_omap. exists c. split; [done |]. unfold invalidOf. by rewrite E.
  - intros Hv d (x' & Hd & Hx')%list_elem_of_bind [Hn Hcn].
    apply list_elem_of_omap in Hd as (c' & Hc' & Hd). unfold invalidOf in Hd.
    destruct (collValid txRWSet (Namespace x') c') eqn:E; [done |].
    injection Hd as <-. simpl in Hn, Hcn.
    assert (x = x') as <- by (by apply (NoDup_fmap_unique Namespace l)).
    assert (c = c') as <-.
    { apply (NoDup_fmap_unique CollectionName (CollectionPvtRwset x)); try done.
      rewrite Forall_forall in Hall. by apply Hall. }
    congruence.
Qed.

(** C3, as amended.  For a transaction write-set in which a namespace occurs
    once and lists at least one collection, and a collection occurs once in
    its namespace, [findValidAndInvalidTxPvtData] splits the collections three
    ways: a collection without a recorded hash is removed and no mismatch
    record names it; a collection whose data hashes differently from the
    recorded hash is removed and a mismatch record with the block number, the
    transaction number, the namespace, the collection and the expected hash is
    emitted; every other collection is kept.  The transaction is dropped (nil
    is returned for it) exactly when none of its collections is kept. *)
Theorem findValidAndInvalidTxPvtData_splits (txPvtData : TxPvtData) (txRWSet : TxRwSet)
    (blk : N) :
  wellFormedWriteSet (WriteSet txPvtData) →
  let r := findValidAndInvalidTxPvtData txPvtData txRWSet blk in
  let kept n c :=
    match r.1 with
    | Some t => inWriteSet (WriteSet t) n c
    | None => False
    end in
  (∀ n c, inWriteSet (WriteSet txPvtData) n c →
     (GetPvtDataHash txRWSet n (CollectionName c) = None →
        ¬ kept n c ∧
        ∀ m, m ∈ r.2 →
             ¬ (mismatchNamespace m = n ∧ mismatchCollection m = CollectionName c)) ∧
     (∀ h, GetPvtDataHash txRWSet n (CollectionName c) = Some h →
           ComputeSHA256 (Rwset c) ≠ h →
        ¬ kept n c ∧
        {| BlockNum := blk; TxNum := SeqInBlock txPvtData; mismatchNamespace := n;
           mismatchCollection := CollectionName c; ExpectedHash := h |} ∈ r.2) ∧
     (collValid txRWSet n c = true → kept n c)) ∧
  (r.1 = None ↔
   ∀ n c, inWriteSet (WriteSet txPvtData) n c → collValid txRWSet n c = false) ∧
  (∀ t, r.1 = Some t → SeqInBlock t = SeqInBlock txPvtData).
Proof.
  intros Hwf r kept. subst r kept. rewrite findValidAndInvalidTxPvtData_spec.
  unfold wellFormedWriteSet, inWriteSet in *.
  set (l := NsPvtRwset (WriteSet txPvtData)) in *.
  set (dels := l ≫= λ x, omap (invalidOf txRWSet (Namespace x)) (CollectionPvtRwset x)).
  set (mism := l ≫= λ x, omap (mismatchOf txRWSet blk (SeqInBlock txPvtData) (Namespace x))
                           (CollectionPvtRwset x)).
  destruct (foldl_removeColl_spec dels l Hwf) as [Hwf' Hin].
  set (final := foldl (λ l d, removeCollFromNsList l (nsOf d) (collOf d)) l dels) in *.
  cbn [fst snd].
  assert (Hfinal : ∀ n c,
    inNsList final n c ↔ inNsList l n c ∧ collValid txRWSet n c = true).
  { intros n c. rewrite Hin. split.
    - intros [Hl Hd]. split; [done |]. by apply (toDelete_spec l txRWSet n c).
    - intros [Hl Hv]. split; [done |]. by apply toDelete_spec. }
  assert (Hkept : ∀ n c,
    match (if decide (length final = 0%nat) then None
           else Some {| SeqInBlock := SeqInBlock txPvtData;
                        WriteSet := {| NsPvtRwset := final |} |}) with
    | Some t => inNsList (NsPvtRwset (WriteSet t)) n c
    | None => False
    end ↔ inNsList l n c ∧ collValid txRWSet n c = true).
  { intros n c. destruct (decide (length final = 0%nat)) as [Hlen | Hlen].
    - apply nil_length_inv in Hlen. split; [done |]. intros Hf%Hfinal.
      rewrite Hlen in Hf. destruct Hf as (y & ?%elem_of_nil & _). done.
    - simpl. apply Hfinal. }
  split; [| split].
  - intros n c Hl. split; [| split].
    + intros Hnone. split.
      * rewrite Hkept. intros [_ Hv]. unfold Reconciliation.collValid in Hv.
        by rewrite Hnone in Hv.
      * intros m (x & Hm & Hx)%list_elem_of_bind [Hn Hc].
        apply list_elem_of_omap in Hm as (c' & Hc' & Hm). unfold mismatchOf in Hm.
        destruct (GetPvtDataHash txRWSet (Namespace x) (CollectionName c')) as [h |] eqn:E;
          [| done].
        destruct (bool_decide (ComputeSHA256 (Rwset c') = h)); [done |].
        injection Hm as <-. simpl in Hn, Hc. congruence.
    + intros h Hsome Hsha. split.
      * rewrite Hkept. intros [_ Hv]. unfold Reconciliation.collValid in Hv.
        rewrite Hsome in Hv. by apply bool_decide_eq_true in Hv.
      * destruct Hl as (x & Hx & <- & Hc). apply list_elem_of_bind. exists x.
        split; [| done]. apply list_elem_of_omap. exists c. split; [done |].
        unfold mismatchOf. rewrite Hsome. by rewrite bool_decide_eq_false_2.
    + intros Hv. by apply Hkept.
  - destruct (decide (length final = 0%nat)) as [Hlen | Hlen].
    + split; [| done]. intros _ n c Hl.
      destruct (collValid txRWSet n c) eqn:E; [| done]. exfalso.
      pose proof (proj2 (Hkept n c) (conj Hl E)) as Hk.
      by destruct (decide (length final = 0%nat)).
    + split; [done |]. intros Hall. exfalso.
      assert (Hex : ∃ n c, inNsList final n c).
      { destruct Hwf' as [_ Hne]. destruct final as [| y final']; [done |].
        apply Forall_cons in Hne as [[Hy _] _].
        destruct (CollectionPvtRwset y) as [| c cs] eqn:Ec; [done |].
        exists (Namespace y), c, y. split; [by left |]. split; [done |].
        rewrite Ec. by left. }
      destruct Hex as (n & c & [Hl Hv]%Hfinal). rewrite (Hall _ _ Hl) in Hv. done.
  - intros t. destruct (decide (length final = 0%nat)); [done |]. by intros [= <-].
Qed.

End ValidationProperties.

Lemma findValidAndInvalidTxPvtData_splits_witness :
  {| Reconciliation.BlockNum := 7; Reconciliation.TxNum := 4;
     Reconciliation.mismatchNamespace := "ns2";
     Reconciliation.mismatchCollection := "collA";
     Reconciliation.ExpectedHash := [x01] |}
  ∈ (Reconciliation.findValidAndInvalidTxPvtData unit Reconciliation.sampleGetPvtDataHash
       Reconciliation.sampleSHA256
       (Reconciliation.sampleTxPvtData Reconciliation.mixedWriteSet) tt 7).2.
Proof.
  assert (Hwf : Reconciliation.wellFormedWriteSet
                  (WriteSet (Reconciliation.sampleTxPvtData Reconciliation.mixedWriteSet))).
  { split.
    - apply (bool_decide_unpack _). vm_compute. exact I.
    - repeat constructor; try discriminate; apply (bool_decide_unpack _); vm_compute; exact I. }
  destruct (findValidAndInvalidTxPvtData_splits unit Reconciliation.sampleGetPvtDataHash
              Reconciliation.sampleSHA256
              (Reconciliation.sampleTxPvtData Reconciliation.mixedWriteSet) tt 7 Hwf)
    as (Hsplit & _ & _).
  destruct (Hsplit "ns2" {| CollectionName := "collA"; Rwset := [x03] |})
    as (_ & Hmismatch & _).
  { eexists. split; [right; left |]. split; [reflexivity | left]. }
  destruct (Hmismatch [x01]) as [_ Hin]; [reflexivity | discriminate |].
  exact Hin.
Defined.

(** C3 as it is stated fails on write-sets that are not of that shape.  When
    a namespace occurs twice, the removal looks for the collection in the
    first occurrence only: [collB], for which no hash is recorded, stays in
    the valid write-set.  And a transaction whose only namespace entry lists
    no collection is not dropped although it keeps no collection. *)
Lemma findValidAndInvalidTxPvtData_duplicate_namespace :
  let collB := {| CollectionName := "collB"; Rwset := [x02] |} in
  let input := Reconciliation.sampleTxPvtData Reconciliation.duplicateNsWriteSet in
  let r := Reconciliation.findValidAndInvalidTxPvtData unit
             Reconciliation.sampleGetPvtDataHash Reconciliation.sampleSHA256 input tt 7 in
  (Reconciliation.inWriteSet (WriteSet input) "ns1" collB ∧
   Reconciliation.sampleGetPvtDataHash tt "ns1" "collB" = None ∧
   ∃ t, r.1 = Some t ∧ Reconciliation.inWriteSet (WriteSet t) "ns1" collB) ∧
  (Reconciliation.findValidAndInvalidTxPvtData unit
     Reconciliation.sampleGetPvtDataHash Reconciliation.sampleSHA256
     (Reconciliation.sampleTxPvtData Reconciliation.emptyNsWriteSet) tt 7).1
    = Some (Reconciliation.sampleTxPvtData Reconciliation.emptyNsWriteSet).
Proof.
  split; [| reflexivity].
  split; [| split; [reflexivity |]].
  - eexists. split; [right; left |]. split; [reflexivity | left].
  - eexists. split; [reflexivity |].
    eexists. split; [right; left |]. split; [reflexivity | left].
Qed.

(** ** What a read returns *)

Lemma flattenPvtData_app (l1 l2 : list TxPvtData) :
  flattenPvtData (l1 ++ l2) = flattenPvtData l1 ++ flattenPvtData l2.
Proof. unfold flattenPvtData. apply bind_app. Qed.

Lemma flattenPvtData_singleton (t : TxPvtData) : flattenPvtData [t] = flattenTxPvtData t.
Proof. unfold flattenPvtData. simpl. by rewrite app_nil_r. Qed.

Lemma flatten_assemblerAdd (a : txPvtdataAssembler) (n : string)
    (c : CollectionPvtReadWriteSet) :
  flattenTxPvtData (getTxPvtdata (assemblerAdd a n c))
    = flattenTxPvtData (getTxPvtdata a) ++ [(asmTxNum a, n, c)].
Proof.
  unfold flattenTxPvtData, getTxPvtdata, assemblerAdd.
  destruct a as [tx groups [g |]]; simpl.
  - destruct (decide (Namespace g = n)) as [<- | Hne]; simpl.
    + rewrite !bind_app. simpl. rewrite !app_nil_r, fmap_app. simpl.
      by rewrite <- app_assoc.
    + rewrite !bind_app. simpl. rewrite !app_nil_r. by rewrite <- app_assoc.
  - rewrite !bind_app. simpl. by rewrite !app_nil_r.
Qed.

Lemma pvtDataLoop_flatten v11Format v11RetrievePvtdata (s : Store) (blockNum : N)
    (filter : PvtNsCollFilter) (last : N) (itr : list (dataKey * Value))
    (blockPvtdata : list TxPvtData) (current : option txPvtdataAssembler)
    (out : list TxPvtData) :
  (∀ kv, kv ∈ itr → v11Format (KData kv.1) = inr false) →
  pvtDataLoop v11Format v11RetrievePvtdata s blockNum filter last itr blockPvtdata current
    = Ok out →
  flattenPvtData out =
    flattenPvtData blockPvtdata ++
    from_option (λ a, flattenTxPvtData (getTxPvtdata a)) [] current ++
    omap (readable s filter last) itr.
Proof.
  revert blockPvtdata current.
  induction itr as [| [key v] rest IH]; intros blockPvtdata current Hv11.
  - simpl. destruct current as [a |]; intros [= <-].
    + rewrite flattenPvtData_app, flattenPvtData_singleton. simpl. by rewrite app_nil_r.
    + simpl. by rewrite app_nil_r.
  - cbn [pvtDataLoop].
    assert (Hkey : v11Format (KData key) = inr false) by (apply (Hv11 (key, v)); left).
    rewrite Hkey. simpl.
    assert (Hrest : ∀ kv, kv ∈ rest → v11Format (KData kv.1) = inr false)
      by (intros kv Hkv; apply Hv11; by right).
    unfold readable at 1. simpl.
    destruct (isExpired (dataNsCollBlk key) (btlPolicy s) last) as [[|] | err]; simpl;
      [by apply IH | | done].
    destruct (passesFilter key filter); simpl; [| by apply IH].
    destruct v as [c | | | |]; simpl; try done.
    destruct current as [a |]; cbn [from_option].
    + destruct (txNum key =? asmTxNum a) eqn:Etx; cbn [negb]; intros Hout.
      * apply N.eqb_eq in Etx. rewrite (IH _ _ Hrest Hout). cbn [from_option].
        rewrite flatten_assemblerAdd, Etx. by rewrite <- !app_assoc.
      * rewrite (IH _ _ Hrest Hout). cbn [from_option].
        rewrite flattenPvtData_app, flattenPvtData_singleton, flatten_assemblerAdd.
        cbn [newTxPvtdataAssembler asmTxNum]. unfold flattenTxPvtData at 2. simpl.
        by rewrite <- !app_assoc.
    + cbn [newTxPvtdataAssembler asmTxNum]. rewrite N.eqb_refl. cbn [negb]. intros Hout.
      rewrite (IH _ _ Hrest Hout). cbn [from_option]. rewrite flatten_assemblerAdd.
      unfold flattenTxPvtData at 1. simpl. done.
Qed.

Lemma omap_filter_None {A B : Type} (f : A → option B) (P : A → Prop)
    `{∀ x, Decision (P x)} (l : list A) :
  (∀ x, x ∈ l → ¬ P x → f x = None) → omap f (filter P l) = omap f l.
Proof.
  induction l as [| x l IH]; intros Hf; [done |].
  assert (IH' : omap f (filter P l) = omap f l).
  { apply IH. intros y Hy. apply Hf. by right. }
  assert (Hcons : ∀ l', omap f (x :: l')
            = match f x with Some y => y :: omap f l' | None => omap f l' end) by done.
  rewrite filter_cons. case_decide as Hp.
  - by rewrite !Hcons, IH'.
  - rewrite IH', Hcons. rewrite (Hf x); [done | by left | done].
Qed.

Lemma elem_of_flattenPvtData (out : list TxPvtData) (tx : N) (n : string)
    (c : CollectionPvtReadWriteSet) :
  (tx, n, c) ∈ flattenPvtData out ↔
  ∃ t nsWset, t ∈ out ∧ nsWset ∈ NsPvtRwset (WriteSet t) ∧ c ∈ CollectionPvtRwset nsWset ∧
              SeqInBlock t = tx ∧ Namespace nsWset = n.
Proof.
  unfold flattenPvtData, flattenTxPvtData. rewrite list_elem_of_bind. split.
  - intros (t & (nsWset & Hc & Hn)%list_elem_of_bind & Ht).
    apply list_elem_of_fmap in Hc as (c' & [= -> -> ->] & Hc').
    exists t, nsWset. eauto.
  - intros (t & nsWset & Ht & Hn & Hc & <- & <-). exists t. split; [| done].
    apply list_elem_of_bind. exists nsWset. split; [| done].
    apply list_elem_of_fmap. eauto.
Qed.

Lemma elem_of_data_scan (d : DB) (blockNum : N) (key : dataKey) (v : Value) :
  (key, v) ∈ GetIterator (getDataKeysForRangeScanByBlockNum blockNum) dataKeyCompare d
  ↔ d !! KData key = Some v ∧ blkNum (dataNsCollBlk key) = blockNum.
Proof.
  rewrite elem_of_GetIterator. split.
  - intros (k & Hd & Hr). destruct k as [dk | | | | | |]; try done. simpl in Hr.
    destruct (blkNum (dataNsCollBlk dk) =? blockNum) eqn:E; [| done].
    injection Hr as ->. by apply N.eqb_eq in E.
  - intros [Hd <-]. exists (KData key). split; [done |]. simpl. by rewrite N.eqb_refl.
Qed.

Lemma GetPvtDataByBlockNum_Ok v11Format v11RetrievePvtdata (s : Store) (blockNum : N)
    (filter : PvtNsCollFilter) (out : list TxPvtData) :
  GetPvtDataByBlockNum v11Format v11RetrievePvtdata s blockNum filter = Ok out →
  isEmpty s = false ∧ blockNum ≤ lastCommittedBlock s ∧
  pvtDataLoop v11Format v11RetrievePvtdata s blockNum filter (lastCommittedBlock s)
    (GetIterator (getDataKeysForRangeScanByBlockNum blockNum) dataKeyCompare (db s))
    [] None = Ok out.
Proof.
  unfold GetPvtDataByBlockNum. destruct (isEmpty s); [done |].
  destruct (lastCommittedBlock s <? blockNum) eqn:E; [done |].
  apply N.ltb_ge in E. done.
Qed.

(** The flattened result of a read is the list of what the entries of the
    block contribute, in the order of the scan. *)
Lemma GetPvtDataByBlockNum_flatten v11Format v11RetrievePvtdata (s : Store) (blockNum : N)
    (filter : PvtNsCollFilter) (out : list TxPvtData) :
  (∀ key, is_Some (db s !! KData key) → blkNum (dataNsCollBlk key) = blockNum →
          v11Format (KData key) = inr false) →
  GetPvtDataByBlockNum v11Format v11RetrievePvtdata s blockNum filter = Ok out →
  flattenPvtData out =
    omap (readable s filter (lastCommittedBlock s))
      (GetIterator (getDataKeysForRangeScanByBlockNum blockNum) dataKeyCompare (db s)).
Proof.
  intros Hv11 (_ & _ & Hloop)%GetPvtDataByBlockNum_Ok.
  apply pvtDataLoop_flatten in Hloop; [done |].
  intros [key v] [Hd Hb]%elem_of_data_scan. apply Hv11; eauto.
Qed.

(** C2. Let the policy give the expiry height [h + k + 1] to data of
    (namespace, collection) committed at height [h] (BTL = [k]), and let the
    last committed block have reached that height.  Then the expiry check of
    the read path answers "expired" for these entries, and what
    [GetPvtDataByBlockNum] returns for block [h] is made of the other entries
    of the block only, whether or not a purge has deleted the expired ones:
    every collection write-set of the result is the value of a data entry of
    another (namespace, collection). *)
Theorem GetPvtDataByBlockNum_skips_expired (v11Format : Key → string + bool)
    (v11RetrievePvtdata : list (Key * Value) → PvtNsCollFilter → string + list TxPvtData)
    (s : Store) (n c : string) (h k : N) (collFilter : PvtNsCollFilter) :
  (∀ key, is_Some (db s !! KData key) → blkNum (dataNsCollBlk key) = h →
          v11Format (KData key) = inr false) →
  GetExpiringBlock (btlPolicy s) n c h = inr (h + k + 1) →
  neverExpires (h + k + 1) = false →
  h + k + 1 ≤ lastCommittedBlock s →
  isExpired (NsCollBlk n c h) (btlPolicy s) (lastCommittedBlock s) = Ok true ∧
  ∀ out, GetPvtDataByBlockNum v11Format v11RetrievePvtdata s h collFilter = Ok out →
    flattenPvtData out =
      omap (readable s collFilter (lastCommittedBlock s))
        (filter (λ kv, ¬ isNsColl n c (dataNsCollBlk kv.1))
           (GetIterator (getDataKeysForRangeScanByBlockNum h) dataKeyCompare (db s))) ∧
    ∀ t nsWset cw,
      t ∈ out → nsWset ∈ NsPvtRwset (WriteSet t) → cw ∈ CollectionPvtRwset nsWset →
      ∃ key, db s !! KData key = Some (VData cw) ∧
             blkNum (dataNsCollBlk key) = h ∧
             txNum key = SeqInBlock t ∧
             ns (dataNsCollBlk key) = Namespace nsWset ∧
             ¬ isNsColl n c (dataNsCollBlk key).
Proof.
  intros Hv11 Hpol Hnever Hlast.
  assert (Hexp : isExpired (NsCollBlk n c h) (btlPolicy s) (lastCommittedBlock s) = Ok true).
  { unfold isExpired. simpl. rewrite Hpol. simpl. rewrite Hnever.
    by apply N.leb_le in Hlast as ->. }
  split; [done |]. intros out Hout.
  assert (Hskip : ∀ kv,
    kv ∈ GetIterator (getDataKeysForRangeScanByBlockNum h) dataKeyCompare (db s) →
    ¬ ¬ isNsColl n c (dataNsCollBlk kv.1) →
    readable s collFilter (lastCommittedBlock s) kv = None).
  { intros [key v] [Hd Hb]%elem_of_data_scan Hnn. simpl in Hnn.
    destruct (decide (isNsColl n c (dataNsCollBlk key))) as [[Hn Hc] | Hno]; [| done].
    unfold readable. simpl.
    replace (dataNsCollBlk key) with (NsCollBlk n c h)
      by (destruct key as [[]]; simpl in *; congruence).
    by rewrite Hexp. }
  pose proof (GetPvtDataByBlockNum_flatten _ _ _ _ _ _ Hv11 Hout) as Hflat.
  split.
  - by rewrite omap_filter_None.
  - intros t nsWset cw Ht Hn Hc.
    assert (Hin : (SeqInBlock t, Namespace nsWset, cw) ∈ flattenPvtData out).
    { apply elem_of_flattenPvtData. exists t, nsWset. eauto. }
    rewrite Hflat in Hin. apply list_elem_of_omap in Hin as ([key v] & Hkv & Hr).
    pose proof Hkv as [Hd Hb]%elem_of_data_scan.
    destruct (decide (isNsColl n c (dataNsCollBlk key))) as [Hyes | Hno].
    { rewrite Hskip in Hr; [done | done |]. simpl. by intros Hnot. }
    unfold readable in Hr. cbn [fst snd] in Hr.
    destruct (isExpired (dataNsCollBlk key) (btlPolicy s) (lastCommittedBlock s))
      as [[|] |]; try done.
    destruct (passesFilter key collFilter); [| done].
    destruct v as [cw' | | | |]; try done. injection Hr as <- <- <-.
    exists key. split; [done |]. split; [done |]. split; [done |]. split; [done |].
    exact Hno.
Qed.

Lemma GetPvtDataByBlockNum_skips_expired_witness :
  isExpired (NsCollBlk "ns1" "coll1" 0) (btlPolicy sampleStore2)
    (lastCommittedBlock sampleStore2) = Ok true ∧
  GetPvtDataByBlockNum noV11Format noV11RetrievePvtdata sampleStore2 0 None =
    Ok [ {| SeqInBlock := 3;
            WriteSet := {| NsPvtRwset :=
              [ {| Namespace := "ns1";
                   CollectionPvtRwset := [sampleColl "coll2"] |} ] |} |} ].
Proof.
  split; [| reflexivity].
  apply (GetPvtDataByBlockNum_skips_expired noV11Format noV11RetrievePvtdata
           sampleStore2 "ns1" "coll1" 0 1 None).
  - intros key _ _. reflexivity.
  - reflexivity.
  - reflexivity.
  - vm_compute. discriminate.
Defined.

(** ** Missing private data of the most recent blocks *)

Lemma elem_of_posSetBits (p : positive) (i j : N) :
  j ∈ posSetBits p i ↔ ∃ m, j = i + m ∧ N.testbit (Npos p) m = true.
Proof.
  revert i. induction p as [q IH | q IH |]; intros i; cbn [posSetBits].
  - rewrite elem_of_cons, IH. change (N.pos q~1) with (2 * N.pos q + 1). split.
    + intros [-> | (m & -> & Hm)].
      * exists 0. split; [lia |]. apply N.testbit_odd_0.
      * exists (N.succ m). split; [lia |]. rewrite N.testbit_odd_succ; [done | lia].
    + intros (m & -> & Hm). destruct (N.eq_dec m 0) as [-> | Hne].
      * left. lia.
      * right. exists (N.pred m). split; [lia |].
        rewrite <- (N.succ_pred m) in Hm by done.
        rewrite N.testbit_odd_succ in Hm; [done | lia].
  - rewrite IH. change (N.pos q~0) with (2 * N.pos q). split.
    + intros (m & -> & Hm). exists (N.succ m). split; [lia |].
      rewrite N.testbit_even_succ; [done | lia].
    + intros (m & -> & Hm). destruct (N.eq_dec m 0) as [-> | Hne].
      * by rewrite N.testbit_even_0 in Hm.
      * exists (N.pred m). split; [lia |].
        rewrite <- (N.succ_pred m) in Hm by done.
        rewrite N.testbit_even_succ in Hm; [done | lia].
  - rewrite list_elem_of_singleton. split.
    + intros ->. exists 0. split; [lia | done].
    + intros (m & -> & Hm). destruct m as [| m']; [lia |]. by destruct m'.
Qed.

Lemma elem_of_bitsetSetBits (b : BitSet) (j : N) :
  j ∈ bitsetSetBits b ↔ bitsetTest b j = true.
Proof.
  unfold bitsetSetBits, bitsetTest. destruct b as [| p].
  - split; [by intros ?%elem_of_nil | by rewrite N.bits_0].
  - rewrite elem_of_posSetBits. split.
    + by intros (m & -> & Hm).
    + intros H. by exists j.
Qed.

Lemma missingInfoAdd_lookup_ne (info : MissingPvtDataInfo) (blk tx : N) (n c : string)
    (b : N) :
  b ≠ blk → missingInfoAdd info blk tx n c !! b = info !! b.
Proof. intros. unfold missingInfoAdd. by rewrite lookup_insert_ne. Qed.

Lemma missingInfoAdd_is_Some (info : MissingPvtDataInfo) (blk tx : N) (n c : string) :
  is_Some (missingInfoAdd info blk tx n c !! blk).
Proof. unfold missingInfoAdd. rewrite lookup_insert_eq. eauto. Qed.

Lemma inMissingInfo_Add (info : MissingPvtDataInfo) (blk tx : N) (n c : string)
    (b t : N) (n' c' : string) :
  inMissingInfo (missingInfoAdd info blk tx n c) b t n' c' ↔
  inMissingInfo info b t n' c' ∨ (b = blk ∧ t = tx ∧ n' = n ∧ c' = c).
Proof.
  unfold inMissingInfo, missingInfoAdd.
  destruct (decide (b = blk)) as [-> | Hb].
  - rewrite lookup_insert_eq. split.
    + intros (bi & l & [= <-] & Hl & Hin).
      destruct (decide (t = tx)) as [-> | Ht].
      * rewrite lookup_insert_eq in Hl. injection Hl as <-.
        apply elem_of_app in Hin as [Hin | Hin%list_elem_of_singleton].
        -- left. destruct (info !! blk) as [bi |] eqn:Eb; simpl in Hin.
           ++ destruct (bi !! tx) as [l |] eqn:El; simpl in Hin; [eauto |].
              by apply elem_of_nil in Hin.
           ++ rewrite lookup_empty in Hin. by apply elem_of_nil in Hin.
        -- injection Hin as -> ->. by right.
      * rewrite lookup_insert_ne in Hl by done. left.
        destruct (info !! blk) as [bi |] eqn:Eb; simpl in Hl; [eauto |].
        by rewrite lookup_empty in Hl.
    + intros [(bi & l & Hbi & Hl & Hin) | (_ & -> & -> & ->)].
      * rewrite Hbi. simpl. destruct (decide (t = tx)) as [-> | Ht].
        -- eexists _, _. split; [done |]. rewrite lookup_insert_eq. split; [done |].
           rewrite Hl. simpl. apply elem_of_app. by left.
        -- eexists _, _. split; [done |]. rewrite lookup_insert_ne by done. eauto.
      * eexists _, _. split; [done |]. rewrite lookup_insert_eq. split; [done |].
        apply elem_of_app. right. by left.
  - rewrite lookup_insert_ne by done. split; [by left |].
    intros [H | [? _]]; done.
Qed.

Lemma addMissingBits_lookup_ne (info : MissingPvtDataInfo) (key : nsCollBlk)
    (bitmap : BitSet) (b : N) :
  b ≠ blkNum key → addMissingBits info key bitmap !! b = info !! b.
Proof.
  intros Hb. unfold addMissingBits. generalize (bitsetSetBits bitmap) as txs.
  intros txs. revert info. induction txs as [| tx txs IH]; intros info; simpl; [done |].
  rewrite IH. by apply missingInfoAdd_lookup_ne.
Qed.

Lemma addMissingBits_is_Some (info : MissingPvtDataInfo) (key : nsCollBlk)
    (bitmap : BitSet) (b : N) :
  is_Some (info !! b) → is_Some (addMissingBits info key bitmap !! b).
Proof.
  unfold addMissingBits. generalize (bitsetSetBits bitmap) as txs.
  intros txs. revert info. induction txs as [| tx txs IH]; intros info Hs; simpl; [done |].
  apply IH. destruct (decide (b = blkNum key)) as [-> | Hb].
  - apply missingInfoAdd_is_Some.
  - by rewrite missingInfoAdd_lookup_ne.
Qed.

Lemma addMissingBits_is_Some_inv (info : MissingPvtDataInfo) (key : nsCollBlk)
    (bitmap : BitSet) (b : N) :
  is_Some (addMissingBits info key bitmap !! b) → is_Some (info !! b) ∨ b = blkNum key.
Proof.
  destruct (decide (b = blkNum key)) as [-> | Hb]; [by right |].
  rewrite addMissingBits_lookup_ne by done. by left.
Qed.

Lemma inMissingInfo_addMissingBits (info : MissingPvtDataInfo) (key : nsCollBlk)
    (bitmap : BitSet) (b t : N) (n c : string) :
  inMissingInfo (addMissingBits info key bitmap) b t n c ↔
  inMissingInfo info b t n c ∨
  (b = blkNum key ∧ n = ns key ∧ c = coll key ∧ bitsetTest bitmap t = true).
Proof.
  rewrite <- elem_of_bitsetSetBits. unfold addMissingBits.
  generalize (bitsetSetBits bitmap) as txs. intros txs. revert info.
  induction txs as [| tx txs IH]; intros info; simpl.
  - split; [by left |]. intros [H | (_ & _ & _ & ?%elem_of_nil)]; done.
  - rewrite IH, inMissingInfo_Add, elem_of_cons. split.
    + intros [[H | (-> & -> & -> & ->)] | (-> & -> & -> & H)].
      * by left.
      * right. split; [done |]. split; [done |]. split; [done |]. by left.
      * right. split; [done |]. split; [done |]. split; [done |]. by right.
    + intros [H | (-> & -> & -> & [-> | H])].
      * left. by left.
      * left. by right.
      * by right.
Qed.

Lemma addMissingBits_delete (info : MissingPvtDataInfo) (key : nsCollBlk)
    (bitmap : BitSet) :
  delete (blkNum key) (addMissingBits info key bitmap) = delete (blkNum key) info.
Proof.
  apply map_eq. intros b. destruct (decide (b = blkNum key)) as [-> | Hb].
  - by rewrite !lookup_delete_eq.
  - rewrite !lookup_delete_ne by done. by apply addMissingBits_lookup_ne.
Qed.

Lemma size_le_delete {A : Type} (m : gmap N A) (b : N) :
  (size m ≤ S (size (delete b m)))%nat.
Proof. rewrite map_size_delete. destruct (m !! b); simpl; lia. Qed.

(** One round of the loop. *)
Lemma missingInfoLoop_cons (s : Store) (maxBlock : Z) (mk : missingDataKey) (v : Value)
    (rest : list (missingDataKey * Value)) (info : MissingPvtDataInfo) (count : Z)
    (lastBlk : N) (reached : bool) :
  missingInfoLoop s maxBlock ((mk, v) :: rest) info count lastBlk reached =
    let key := missingNsCollBlk mk in
    if reached && negb (blkNum key =? lastBlk) then Ok info
    else
      match isExpired key (btlPolicy s) (lastCommittedBlock s) with
      | Err e => Err e
      | Ok true => missingInfoLoop s maxBlock rest info count lastBlk reached
      | Ok false =>
          match decodeMissingDataValue v with
          | Err e => Err e
          | Ok bitmap =>
              let st :=
                match info !! blkNum key with
                | Some _ => (count, lastBlk, reached)
                | None =>
                    if (count + 1 =? maxBlock)%Z then ((count + 1)%Z, blkNum key, true)
                    else ((count + 1)%Z, lastBlk, reached)
                end in
              missingInfoLoop s maxBlock rest (addMissingBits info key bitmap)
                st.1.1 st.1.2 st.2
          end
      end.
Proof.
  cbn [missingInfoLoop]. cbv zeta.
  destruct (reached && negb (blkNum (missingNsCollBlk mk) =? lastBlk)); [done |].
  destruct (isExpired _ _ _) as [[|] | e]; [done | | done]. cbn [mbind res_bind].
  destruct (info !! blkNum (missingNsCollBlk mk)); [by destruct (decodeMissingDataValue v) |].
  destruct (count + 1 =? maxBlock)%Z; by destruct (decodeMissingDataValue v).
Qed.

(** At most [maxBlock] blocks. *)
Lemma missingInfoLoop_size (s : Store) (maxBlock : Z) (itr : list (missingDataKey * Value))
    (info : MissingPvtDataInfo) (count : Z) (lastBlk : N) (reached : bool)
    (info' : MissingPvtDataInfo) :
  withinLimit maxBlock info count lastBlk reached →
  missingInfoLoop s maxBlock itr info count lastBlk reached = Ok info' →
  (Z.of_nat (size info') ≤ maxBlock)%Z.
Proof.
  assert (Hend : ∀ info count lastBlk reached,
            withinLimit maxBlock info count lastBlk reached →
            (Z.of_nat (size info) ≤ maxBlock)%Z).
  { intros i c l r. unfold withinLimit. destruct r; [| lia].
    pose proof (size_le_delete i l). lia. }
  revert info count lastBlk reached.
  induction itr as [| [mk v] rest IH]; intros info count lastBlk reached Hinv.
  - simpl. intros [= <-]. by apply (Hend _ count lastBlk reached).
  - rewrite missingInfoLoop_cons. cbv zeta.
    destruct (reached && negb (blkNum (missingNsCollBlk mk) =? lastBlk)) eqn:Ebrk.
    { intros [= <-]. by apply (Hend _ count lastBlk reached). }
    destruct (isExpired _ _ _) as [[|] | e]; [by apply IH | | done].
    destruct (decodeMissingDataValue v) as [bitmap | e]; [| done].
    apply IH. set (key := missingNsCollBlk mk) in *.
    pose proof (addMissingBits_delete info key bitmap) as Hdel.
    destruct (info !! blkNum key) as [bi |] eqn:Eb; cbn [fst snd].
    + unfold withinLimit in *. destruct reached.
      * apply andb_false_iff in Ebrk as [? | Ebrk]; [done |].
        apply negb_false_iff, N.eqb_eq in Ebrk. rewrite <- Ebrk, Hdel. by rewrite Ebrk.
      * destruct Hinv as [Hsz Hlt]. split; [| done].
        assert (Hs1 : is_Some (addMissingBits info key bitmap !! blkNum key))
          by (apply addMissingBits_is_Some; eauto).
        pose proof (map_size_delete_Some (blkNum key) _ Hs1) as E1.
        pose proof (map_size_delete_Some (blkNum key) info (mk_is_Some _ _ Eb)) as E2.
        rewrite Hdel in E1.
        assert (size info ≠ 0%nat).
        { intros H0%map_size_empty_inv. subst info. by rewrite lookup_empty in Eb. }
        assert (size (addMissingBits info key bitmap) ≠ 0%nat).
        { intros H0%map_size_empty_inv. rewrite H0 in Hs1.
          rewrite lookup_empty in Hs1. by destruct Hs1. }
        lia.
    + pose proof (map_size_delete_None (blkNum key) info Eb) as E2.
      pose proof (size_le_delete (addMissingBits info key bitmap) (blkNum key)) as E1.
      rewrite Hdel in E1.
      unfold withinLimit in *. destruct reached.
      * apply andb_false_iff in Ebrk as [? | Ebrk]; [done |].
        apply negb_false_iff, N.eqb_eq in Ebrk.
        destruct (count + 1 =? maxBlock)%Z; cbn [fst snd].
        -- rewrite Hdel. rewrite Ebrk. done.
        -- rewrite <- Ebrk, Hdel. by rewrite Ebrk.
      * destruct Hinv as [Hsz Hlt].
        destruct (count + 1 =? maxBlock)%Z eqn:En; cbn [fst snd].
        -- apply Z.eqb_eq in En. rewrite Hdel. lia.
        -- apply Z.eqb_neq in En. lia.
Qed.

(** What the loop adds comes from entries of the scan that are not expired,
    and it removes nothing. *)
Lemma missingInfoLoop_sound (s : Store) (maxBlock : Z) (itr : list (missingDataKey * Value))
    (info : MissingPvtDataInfo) (count : Z) (lastBlk : N) (reached : bool)
    (info' : MissingPvtDataInfo) :
  missingInfoLoop s maxBlock itr info count lastBlk reached = Ok info' →
  (∀ b, is_Some (info !! b) → is_Some (info' !! b)) ∧
  (∀ b t n c, inMissingInfo info b t n c → inMissingInfo info' b t n c) ∧
  (∀ b t n c, inMissingInfo info' b t n c →
     inMissingInfo info b t n c ∨
     ∃ mk bitmap, (mk, VBitmap bitmap) ∈ itr ∧
       missingNsCollBlk mk = NsCollBlk n c b ∧
       bitsetTest bitmap t = true ∧
       isExpired (NsCollBlk n c b) (btlPolicy s) (lastCommittedBlock s) = Ok false).
Proof.
  revert info count lastBlk reached.
  induction itr as [| [mk v] rest IH]; intros info count lastBlk reached.
  - simpl. intros [= <-]. split; [done |]. split; [done |]. intros. by left.
  - rewrite missingInfoLoop_cons. cbv zeta.
    destruct (reached && negb (blkNum (missingNsCollBlk mk) =? lastBlk)).
    { intros [= <-]. split; [done |]. split; [done |]. intros. by left. }
    destruct (isExpired _ _ _) as [[|] | e] eqn:Eexp; [| | done].
    { intros (H1 & H2 & H3)%IH. split; [done |]. split; [done |].
      intros b t n c [H | (mk' & bm & Hin & Hrest)]%H3; [by left |].
      right. exists mk', bm. split; [by right | done]. }
    destruct (decodeMissingDataValue v) as [bitmap | e] eqn:Edec; [| done].
    apply decodeMissingDataValue_Ok in Edec as ->.
    intros (H1 & H2 & H3)%IH. split; [| split].
    + intros b Hb. apply H1. by apply addMissingBits_is_Some.
    + intros b t n c Hin. apply H2. apply inMissingInfo_addMissingBits. by left.
    + intros b t n c [Hin | (mk' & bm & Hin & Hrest)]%H3.
      * apply inMissingInfo_addMissingBits in Hin as [Hin | (-> & -> & -> & Hbit)];
          [by left |].
        right. exists mk, bitmap. split; [by left |].
        destruct (missingNsCollBlk mk) as [n0 c0 b0] eqn:Ek. simpl in *. done.
      * right. exists mk', bm. split; [by right | done].
Qed.

(** A block that has entered the info is not split: every entry of the scan
    for that block has been processed. *)
Lemma missingInfoLoop_complete (s : Store) (maxBlock : Z)
    (itr : list (missingDataKey * Value)) (info : MissingPvtDataInfo) (count : Z)
    (lastBlk : N) (reached : bool) (info' : MissingPvtDataInfo) :
  StronglySorted blockDescending itr →
  aheadOfScan info lastBlk reached itr →
  missingInfoLoop s maxBlock itr info count lastBlk reached = Ok info' →
  ∀ mk bitmap t,
    (mk, VBitmap bitmap) ∈ itr →
    is_Some (info' !! blkNum (missingNsCollBlk mk)) →
    isExpired (missingNsCollBlk mk) (btlPolicy s) (lastCommittedBlock s) = Ok false →
    bitsetTest bitmap t = true →
    inMissingInfo info' (blkNum (missingNsCollBlk mk)) t
      (ns (missingNsCollBlk mk)) (coll (missingNsCollBlk mk)).
Proof.
  revert info count lastBlk reached.
  induction itr as [| [mk0 v0] rest IH]; intros info count lastBlk reached Hsorted Hahead.
  - intros _ mk bitmap t Hin. by apply elem_of_nil in Hin.
  - apply StronglySorted_cons in Hsorted as [Hhd Hsorted].
    rewrite Forall_forall in Hhd.
    destruct Hahead as [J1 J2].
    rewrite missingInfoLoop_cons. cbv zeta.
    set (key0 := missingNsCollBlk mk0) in *.
    destruct (reached && negb (blkNum key0 =? lastBlk)) eqn:Ebrk.
    { (* break *)
      intros [= <-] mk bitmap t Hin Hdom _ _. exfalso.
      apply andb_true_iff in Ebrk as [-> Hne%negb_true_iff%N.eqb_neq].
      destruct (J2 eq_refl) as [J2a J2b].
      pose proof (J2a _ Hdom) as Hge. pose proof (J2b _ Hin) as Hle. simpl in Hle.
      pose proof (J2b (mk0, v0) ltac:(left)) as Hle0. simpl in Hle0. fold key0 in Hle0.
      apply elem_of_cons in Hin as [[= -> _] | Hin].
      - fold key0 in Hge. lia.
      - pose proof (Hhd _ Hin) as Hd. unfold blockDescending in Hd. simpl in Hd.
        fold key0 in Hd. lia. }
    destruct (isExpired key0 (btlPolicy s) (lastCommittedBlock s)) as [[|] | e] eqn:Eexp;
      [| | done].
    { (* the entry is expired *)
      intros Hloop mk bitmap t Hin Hdom Hexp Hbit.
      apply elem_of_cons in Hin as [[= -> _] | Hin]; [fold key0 in Hexp; congruence |].
      apply (IH info count lastBlk reached Hsorted) with (bitmap := bitmap); try done.
      split.
      - intros b kv Hb Hkv. apply J1; [done | by right].
      - intros Hr. destruct (J2 Hr) as [J2a J2b]. split; [done |].
        intros kv Hkv. apply J2b. by right. }
    destruct (decodeMissingDataValue v0) as [bitmap0 | e] eqn:Edec; [| done].
    apply decodeMissingDataValue_Ok in Edec as ->.
    set (info1 := addMissingBits info key0 bitmap0).
    set (st := match info !! blkNum key0 with
               | Some _ => (count, lastBlk, reached)
               | None =>
                   if (count + 1 =? maxBlock)%Z then ((count + 1)%Z, blkNum key0, true)
                   else ((count + 1)%Z, lastBlk, reached)
               end).
    intros Hloop mk bitmap t Hin Hdom Hexp Hbit.
    assert (Hrest_le : ∀ kv, kv ∈ rest → blkNum (missingNsCollBlk kv.1) ≤ blkNum key0).
    { intros kv Hkv. apply (Hhd _ Hkv). }
    assert (Hlast0 : reached = true → blkNum key0 = lastBlk).
    { intros ->. simpl in Ebrk. by apply negb_false_iff, N.eqb_eq in Ebrk. }
    assert (Hahead1 : aheadOfScan info1 st.1.2 st.2 rest).
    { split.
      - intros b kv [Hb | ->]%addMissingBits_is_Some_inv Hkv.
        + apply J1; [done | by right].
        + by apply Hrest_le.
      - assert (Hold : reached = true →
                  (∀ b, is_Some (info1 !! b) → lastBlk ≤ b) ∧
                  (∀ kv, kv ∈ rest → blkNum (missingNsCollBlk kv.1) ≤ lastBlk)).
        { intros Hr. destruct (J2 Hr) as [J2a J2b]. split.
          - intros b [Hb | ->]%addMissingBits_is_Some_inv; [by apply J2a |].
            rewrite (Hlast0 Hr). lia.
          - intros kv Hkv. apply J2b. by right. }
        subst st. destruct (info !! blkNum key0) as [bi |] eqn:Eb; cbn [fst snd];
          [done |].
        destruct (count + 1 =? maxBlock)%Z; cbn [fst snd]; [| done].
        intros _. split.
        + intros b [Hb | ->]%addMissingBits_is_Some_inv; [| lia].
          apply (J1 b (mk0, VBitmap bitmap0)); [done | by left].
        + done. }
    apply elem_of_cons in Hin as [[= -> ->] | Hin].
    + destruct (missingInfoLoop_sound _ _ _ _ _ _ _ _ Hloop) as (_ & Hmono & _).
      apply Hmono. apply inMissingInfo_addMissingBits. right. fold key0. done.
    + by apply (IH info1 st.1.1 st.1.2 st.2 Hsorted Hahead1 Hloop) with (bitmap := bitmap).
Qed.

(** *** The order of a scan *)

Lemma lexCmp_antisym (c1 c2 : comparison) :
  lexCmp (CompOpp c1) (CompOpp c2) = CompOpp (lexCmp c1 c2).
Proof. by destruct c1. Qed.

Lemma pairCmp_antisym {A B : Type} (ca : A → A → comparison) (cb : B → B → comparison) :
  cmpAntisym ca → cmpAntisym cb → cmpAntisym (pairCmp ca cb).
Proof.
  intros Ha Hb x y. unfold pairCmp. by rewrite Ha, Hb, lexCmp_antisym.
Qed.

Lemma cmpVia_antisym {K T : Type} (fields : K → T) (cmp : T → T → comparison) :
  cmpAntisym cmp → cmpAntisym (cmpVia fields cmp).
Proof. intros H a b. apply H. Qed.

Lemma revCmp_antisym {A : Type} (cmp : A → A → comparison) :
  cmpAntisym cmp → cmpAntisym (revCmp cmp).
Proof. intros H a b. apply H. Qed.

Lemma N_compare_antisym : cmpAntisym N.compare.
Proof. intros a b. apply N.compare_antisym. Qed.

Lemma String_compare_antisym : cmpAntisym String.compare.
Proof. intros a b. apply String.compare_antisym. Qed.

Lemma keyLe_total {K : Type} (cmp : K → K → comparison) :
  cmpAntisym cmp → Total (keyLe cmp).
Proof.
  intros H a b. unfold keyLe. rewrite (H a.1 b.1).
  destruct (cmp a.1 b.1); simpl; [left | left | right]; discriminate.
Qed.

Lemma eligible_scan_sorted (d : DB) (blk : N) :
  StronglySorted blockDescending
    (GetIterator (createRangeScanKeysForEligibleMissingDataEntries blk)
       eligibleMissingDataKeyCompare d).
Proof.
  assert (Htotal : Total (keyLe eligibleMissingDataKeyCompare)).
  { apply keyLe_total, cmpVia_antisym, pairCmp_antisym.
    - apply revCmp_antisym, N_compare_antisym.
    - apply pairCmp_antisym; apply String_compare_antisym. }
  assert (Htrans : Transitive blockDescending).
  { intros a b c. unfold blockDescending. lia. }
  apply Sorted_StronglySorted; [done |].
  rewrite <- (list_fmap_id (GetIterator _ _ _)).
  apply (Sorted_fmap id (keyLe eligibleMissingDataKeyCompare) blockDescending).
  - intros a b. unfold keyLe, blockDescending, eligibleMissingDataKeyCompare, cmpVia,
      pairCmp, revCmp. simpl. intros Hle Hgt. apply Hle. by rewrite Hgt.
  - unfold GetIterator. apply Sorted_merge_sort. done.
Qed.

Lemma elem_of_eligible_scan (d : DB) (blk : N) (mk : missingDataKey) (v : Value) :
  (mk, v) ∈ GetIterator (createRangeScanKeysForEligibleMissingDataEntries blk)
              eligibleMissingDataKeyCompare d
  ↔ d !! KMissingData mk = Some v ∧ isEligible mk = true ∧
    blkNum (missingNsCollBlk mk) ≤ blk.
Proof.
  rewrite elem_of_GetIterator. split.
  - intros (k & Hd & Hr). destruct k as [| | m | | | |]; try done. simpl in Hr.
    destruct (isEligible m && (blkNum (missingNsCollBlk m) <=? blk)) eqn:E; [| done].
    injection Hr as ->. apply andb_true_iff in E as [E1 E2%N.leb_le]. done.
  - intros (Hd & He & Hb). exists (KMissingData mk). split; [done |]. simpl.
    apply N.leb_le in Hb. by rewrite He, Hb.
Qed.

(** C5. [GetMissingPvtDataInfoForMostRecentBlocks] returns the empty info for
    [maxBlock < 1].  Otherwise the info it returns has at most [maxBlock]
    blocks; a block that is in the info is there with all the eligible missing
    data of the scanned range that is not expired (the limit never cuts a
    block in two); and whatever is in the info is a set bit of an eligible
    entry of the store at or below the last committed block that is not
    expired at the last committed block. *)
Theorem GetMissingPvtDataInfoForMostRecentBlocks_spec (s : Store) (maxBlock : Z) :
  ((maxBlock < 1)%Z → GetMissingPvtDataInfoForMostRecentBlocks s maxBlock = Ok ∅) ∧
  ((1 ≤ maxBlock)%Z →
   ∀ info, GetMissingPvtDataInfoForMostRecentBlocks s maxBlock = Ok info →
     (Z.of_nat (size info) ≤ maxBlock)%Z ∧
     (∀ mk bitmap tx,
        is_Some (info !! blkNum (missingNsCollBlk mk)) →
        db s !! KMissingData mk = Some (VBitmap bitmap) →
        isEligible mk = true →
        blkNum (missingNsCollBlk mk) ≤ lastCommittedBlock s →
        isExpired (missingNsCollBlk mk) (btlPolicy s) (lastCommittedBlock s) = Ok false →
        bitsetTest bitmap tx = true →
        inMissingInfo info (blkNum (missingNsCollBlk mk)) tx
          (ns (missingNsCollBlk mk)) (coll (missingNsCollBlk mk))) ∧
     (∀ blk tx n c, inMissingInfo info blk tx n c →
        ∃ bitmap,
          db s !! KMissingData (MissingDataKey (NsCollBlk n c blk) true)
            = Some (VBitmap bitmap) ∧
          bitsetTest bitmap tx = true ∧
          blk ≤ lastCommittedBlock s ∧
          isExpired (NsCollBlk n c blk) (btlPolicy s) (lastCommittedBlock s) = Ok false)).
Proof.
  unfold GetMissingPvtDataInfoForMostRecentBlocks. split.
  - intros H. apply Z.ltb_lt in H. by rewrite H.
  - intros H info. apply Z.ltb_ge in H. rewrite H. intros Hloop.
    split; [| split].
    + apply Z.ltb_ge in H.
      eapply (missingInfoLoop_size s maxBlock _ ∅ 0 0 false info); [| exact Hloop].
      unfold withinLimit. rewrite map_size_empty. lia.
    + intros mk bitmap tx Hdom Hd He Hb Hexp Hbit.
      eapply missingInfoLoop_complete; try done.
      * apply eligible_scan_sorted.
      * split.
        -- intros b kv [x Hx]. by rewrite lookup_empty in Hx.
        -- done.
      * by apply elem_of_eligible_scan.
    + intros blk tx n c Hin.
      destruct (missingInfoLoop_sound _ _ _ _ _ _ _ _ Hloop) as (_ & _ & Hsound).
      apply Hsound in Hin as [(bi & l & Hbi & _) | (mk & bitmap & Hin & Hk & Hbit & Hexp)].
      { by rewrite lookup_empty in Hbi. }
      apply elem_of_eligible_scan in Hin as (Hd & He & Hb).
      exists bitmap. destruct mk as [k e]. simpl in *. subst k e. done.
Qed.

Lemma GetMissingPvtDataInfoForMostRecentBlocks_spec_witness :
  GetMissingPvtDataInfoForMostRecentBlocks sampleStore0 0 = Ok ∅ ∧
  ∃ info, GetMissingPvtDataInfoForMostRecentBlocks sampleStore0 1 = Ok info ∧
          (Z.of_nat (size info) ≤ 1)%Z.
Proof.
  split.
  - apply (proj1 (GetMissingPvtDataInfoForMostRecentBlocks_spec sampleStore0 0)). lia.
  - eexists. split; [vm_compute; reflexivity |].
    apply (proj2 (GetMissingPvtDataInfoForMostRecentBlocks_spec sampleStore0 1));
      [lia | vm_compute; reflexivity].
Defined.

(** ** Collections that never expire *)

(** *** The Entry Builder *)

Lemma foldRes_invariant_Forall {A B : Type} (P : B → Prop) (Q : A → Prop)
    (f : B → A → res B) (l : list A) (b b' : B) :
  (∀ b1 a b2, P b1 → Q a → f b1 a = Ok b2 → P b2) →
  Forall Q l → P b → foldRes f b l = Ok b' → P b'.
Proof.
  intros Hstep Hall. revert b. induction Hall as [| a l Ha Hall IH]; intros b Hb; simpl.
  - by intros [= <-].
  - intros (b1 & Hf & Hrest)%bind_Ok. eauto.
Qed.

Lemma newExpiryData_mentions (n c : string) : ¬ expiryMentions newExpiryData n c.
Proof.
  unfold expiryMentions, newExpiryData. simpl. intros [[x Hx] | H].
  - by rewrite lookup_empty in Hx.
  - by apply not_elem_of_empty in H.
Qed.

Lemma addMissingData_mentions (ed : ExpiryData) (n c n' c' : string) :
  expiryMentions (addMissingData ed n c) n' c' →
  (n' = n ∧ c' = c) ∨ expiryMentions ed n' c'.
Proof.
  unfold expiryMentions, addMissingData. simpl. intros [H | H].
  - right. by left.
  - apply elem_of_union in H as [[= -> ->]%elem_of_singleton | H]; [by left |].
    right. by right.
Qed.

Lemma getOrCreateExpiryData_mentions (btl : BTLPolicy) (blk : N) (m : gmap N ExpiryData)
    (e : N) (n c : string) :
  expiryMapInv btl blk m →
  expiryMentions (getOrCreateExpiryData m e) n c → GetExpiringBlock btl n c blk = inr e.
Proof.
  intros Hinv. unfold getOrCreateExpiryData.
  destruct (m !! e) as [ed |] eqn:E; simpl.
  - by apply Hinv.
  - by intros ?%newExpiryData_mentions.
Qed.

Lemma prepareExpiryEntriesForPresentData_inv (btl : BTLPolicy) (blk : N)
    (m m' : gmap N ExpiryData) (key : dataKey) :
  expiryMapInv btl blk m → blkNum (dataNsCollBlk key) = blk →
  prepareExpiryEntriesForPresentData btl m key = Ok m' → expiryMapInv btl blk m'.
Proof.
  intros Hinv <-. unfold prepareExpiryEntriesForPresentData.
  destruct (GetExpiringBlock _ _ _ _) as [msg | e] eqn:Ep; simpl; [done |].
  destruct (neverExpires e) eqn:En; intros [= <-]; [done |].
  intros e' ed'. destruct (decide (e' = e)) as [-> | Hne].
  - rewrite lookup_insert_eq. intros [= <-]. split; [done |].
    intros n c [[-> ->] | H]%addPresentData_mentions; [done |].
    by apply (getOrCreateExpiryData_mentions _ _ m).
  - rewrite lookup_insert_ne by done. apply Hinv.
Qed.

Lemma prepareExpiryEntriesForMissingData_inv (btl : BTLPolicy) (blk : N)
    (m m' : gmap N ExpiryData) (key : missingDataKey) :
  expiryMapInv btl blk m → blkNum (missingNsCollBlk key) = blk →
  prepareExpiryEntriesForMissingData btl m key = Ok m' → expiryMapInv btl blk m'.
Proof.
  intros Hinv <-. unfold prepareExpiryEntriesForMissingData.
  destruct (GetExpiringBlock _ _ _ _) as [msg | e] eqn:Ep; simpl; [done |].
  destruct (neverExpires e) eqn:En; intros [= <-]; [done |].
  intros e' ed'. destruct (decide (e' = e)) as [-> | Hne].
  - rewrite lookup_insert_eq. intros [= <-]. split; [done |].
    intros n c [[-> ->] | H]%addMissingData_mentions; [done |].
    by apply (getOrCreateExpiryData_mentions _ _ m).
  - rewrite lookup_insert_ne by done. apply Hinv.
Qed.

Lemma prepareDataEntries_blkNum (blockNum : N) (pvtData : list TxPvtData) :
  Forall (λ k, blkNum (dataNsCollBlk k) = blockNum)
         (dataEntryKey <$> prepareDataEntries blockNum pvtData).
Proof.
  apply Forall_forall. intros k (de & -> & Hde)%list_elem_of_fmap.
  unfold prepareDataEntries in Hde.
  apply list_elem_of_bind in Hde as (t & Hde & _).
  apply list_elem_of_bind in Hde as (nw & Hde & _).
  apply list_elem_of_bind in Hde as (cw & Hde & _).
  apply list_elem_of_singleton in Hde as ->. done.
Qed.

Lemma prepareMissingDataEntries_blkNum (blockNum : N) (missingPvtData : TxMissingPvtDataMap) :
  Forall (λ k, blkNum (missingNsCollBlk k) = blockNum)
         ((map_to_list (prepareMissingDataEntries blockNum missingPvtData)).*1).
Proof.
  apply Forall_forall. intros k ([k' v] & -> & Hkv%elem_of_map_to_list)%list_elem_of_fmap.
  simpl. revert k' v Hkv. unfold prepareMissingDataEntries.
  apply (foldl_preserves
           (λ m : gmap missingDataKey BitSet,
              ∀ k v, m !! k = Some v → blkNum (missingNsCollBlk k) = blockNum)).
  - intros m [tx l] Hm. simpl.
    apply (foldl_preserves
             (λ m : gmap missingDataKey BitSet,
                ∀ k v, m !! k = Some v → blkNum (missingNsCollBlk k) = blockNum));
      [| done].
    intros m' mp Hm' k v. unfold setMissingBit. rewrite lookup_insert.
    case_decide as Hk; [by subst k | apply Hm'].
  - intros k v. by rewrite lookup_empty.
Qed.

Lemma prepareExpiryEntries_spec (blk : N) (des : list dataEntry)
    (mis : gmap missingDataKey BitSet) (btl : BTLPolicy) (entries : list expiryEntry) :
  Forall (λ k, blkNum (dataNsCollBlk k) = blk) (dataEntryKey <$> des) →
  Forall (λ k, blkNum (missingNsCollBlk k) = blk) ((map_to_list mis).*1) →
  prepareExpiryEntries blk des mis btl = Ok entries →
  ∀ entry, entry ∈ entries →
    committingBlk (expiryEntryKey entry) = blk ∧
    neverExpires (expiringBlk (expiryEntryKey entry)) = false ∧
    ∀ n c, expiryMentions (expiryEntryValue entry) n c →
           GetExpiringBlock btl n c blk = inr (expiringBlk (expiryEntryKey entry)).
Proof.
  intros Hdes Hmis. unfold prepareExpiryEntries.
  intros (m1 & Hm1 & Hrest)%bind_Ok. apply bind_Ok in Hrest as (m2 & Hm2 & [= <-]).
  assert (H1 : expiryMapInv btl blk m1).
  { refine (foldRes_invariant_Forall (expiryMapInv btl blk) _ _ _ _ _
             (λ b1 a b2 Hb Ha, prepareExpiryEntriesForPresentData_inv btl blk b1 b2 a Hb Ha)
             Hdes _ Hm1).
    intros e ed. by rewrite lookup_empty. }
  assert (H2 : expiryMapInv btl blk m2).
  { exact (foldRes_invariant_Forall (expiryMapInv btl blk) _ _ _ _ _
             (λ b1 a b2 Hb Ha, prepareExpiryEntriesForMissingData_inv btl blk b1 b2 a Hb Ha)
             Hmis H1 Hm2). }
  intros entry ([e ed] & -> & Hin%elem_of_map_to_list)%list_elem_of_fmap. simpl.
  split; [done |]. by apply H2.
Qed.

(** *** What the commit paths write in the expiry family *)

Lemma foldl_Put_lookup_inv {A : Type} (fk : A → Key) (fv : A → Value) (l : list A)
    (b : UpdateBatch) (k : Key) (o : option Value) :
  foldl (λ b a, Put (fk a) (fv a) b) b l !! k = Some o →
  (∃ a, a ∈ l ∧ fk a = k ∧ o = Some (fv a)) ∨ b !! k = Some o.
Proof.
  revert b. induction l as [| a l IH]; intros b; simpl; [by right |].
  intros [(a' & Ha' & Hk & Ho) | Hb]%IH.
  - left. exists a'. split; [by right | done].
  - unfold Put in Hb. rewrite lookup_insert in Hb. case_decide as Hk.
    + injection Hb as <-. left. exists a. split; [by left | done].
    + by right.
Qed.

Lemma Commit_btlPolicy (s : Store) (blockNum : N) (pvtData : list TxPvtData)
    (missingPvtData : TxMissingPvtDataMap) (writeOk : bool) :
  btlPolicy (Commit s blockNum pvtData missingPvtData writeOk).1.1 = btlPolicy s.
Proof.
  unfold Commit. destruct (negb _); [done |].
  destruct (prepareStoreEntries _ _ _ _); [| done].
  destruct writeOk; simpl; [| done].
  by destruct (performPurgeIfScheduled _ _).
Qed.

Lemma CommitPvtDataOfOldBlocks_btlPolicy (s : Store)
    (blocksPvtData : list (N * list TxPvtData)) (writeOk : bool) :
  btlPolicy (CommitPvtDataOfOldBlocks s blocksPvtData writeOk).1 = btlPolicy s.
Proof.
  unfold CommitPvtDataOfOldBlocks. destruct (isLastUpdatedOldBlocksSet s); [done |].
  destruct (constructUpdateEntriesFromDataEntries _ _); [| done].
  unfold commitBatch. by destruct writeOk.
Qed.

Lemma purgeExpiredData_btlPolicy (s : Store) (minBlkNum maxBlkNum : N)
    (writeOk : nat → bool) :
  btlPolicy (purgeExpiredData s minBlkNum maxBlkNum writeOk).1 = btlPolicy s.
Proof.
  unfold purgeExpiredData.
  by destruct (retrieveExpiryEntries _ _ _) as [[| e l] | err].
Qed.

(** An expiry entry of the store after [Commit] is the one of the store
    before, or one the Entry Builder made for the committed block. *)
Lemma Commit_expiry_lookup (s : Store) (blockNum : N) (pvtData : list TxPvtData)
    (missingPvtData : TxMissingPvtDataMap) (writeOk : bool) (ek : expiryKey) :
  let s' := (Commit s blockNum pvtData missingPvtData writeOk).1.1 in
  db s' !! KExpiry ek = db s !! KExpiry ek ∨
  ∃ ed, db s' !! KExpiry ek = Some (VExpiry ed) ∧
        committingBlk ek = blockNum ∧
        neverExpires (expiringBlk ek) = false ∧
        ∀ n c, expiryMentions ed n c →
               GetExpiringBlock (btlPolicy s) n c blockNum = inr (expiringBlk ek).
Proof.
  unfold Commit. destruct (negb _); [by left |].
  destruct (prepareStoreEntries _ _ _ _) as [se | err] eqn:Ese; [| by left].
  destruct writeOk; unfold WriteBatch; [| by left].
  set (batch := Put KLastCommittedBlk _ _).
  assert (Hdb : ∀ d', db (match performPurgeIfScheduled
                               {| db := applyBatch batch (db s); btlPolicy := btlPolicy s;
                                  purgeInterval := purgeInterval s; isEmpty := false;
                                  lastCommittedBlock := nextBlockNum s;
                                  isLastUpdatedOldBlocksSet := isLastUpdatedOldBlocksSet s |}
                               (nextBlockNum s) with
                       | None => (d', Panicked "integer divide by zero", None)
                       | Some purge => (d', Returned None, purge)
                       end).1.1 = db d').
  { intros d'. by destruct (performPurgeIfScheduled _ _). }
  cbv zeta. rewrite Hdb. cbn [db]. rewrite applyBatch_lookup.
  destruct (batch !! KExpiry ek) as [o |] eqn:Eb; [| by left].
  right. subst batch. rewrite Put_lookup_ne in Eb by done.
  rewrite foldl_lookup_frame in Eb by (intros; by apply Put_lookup_ne).
  apply (foldl_Put_lookup_inv (λ e, KExpiry (expiryEntryKey e))
           (λ e, encodeExpiryValue (expiryEntryValue e))) in Eb
    as [(entry & Hin & [= <-] & ->) | Eb].
  - unfold prepareStoreEntries in Ese.
    apply bind_Ok in Ese as (entries & Hentries & [= <-]). simpl in Hin.
    pose proof (prepareExpiryEntries_spec _ _ _ _ _
                  (prepareDataEntries_blkNum blockNum pvtData)
                  (prepareMissingDataEntries_blkNum blockNum missingPvtData)
                  Hentries entry Hin) as (H1 & H2 & H3).
    exists (expiryEntryValue entry). done.
  - rewrite foldl_lookup_frame in Eb by (intros; by apply Put_lookup_ne).
    unfold NewUpdateBatch in Eb. by rewrite lookup_empty in Eb.
Qed.

(** An expiry entry of the store after [CommitPvtDataOfOldBlocks] is the one
    of the store before, or an update of it. *)
Lemma CommitPvtDataOfOldBlocks_expiry_lookup (s : Store)
    (blocksPvtData : list (N * list TxPvtData)) (writeOk : bool) (ek : expiryKey) :
  let s' := (CommitPvtDataOfOldBlocks s blocksPvtData writeOk).1 in
  db s' !! KExpiry ek = db s !! KExpiry ek ∨
  ∃ ed ed0, db s' !! KExpiry ek = Some (VExpiry ed) ∧
            db s !! KExpiry ek = Some (VExpiry ed0) ∧
            neverExpires (expiringBlk ek) = false ∧
            ∀ n c, expiryMentions ed n c →
                   expiryMentions ed0 n c ∨
                   GetExpiringBlock (btlPolicy s) n c (committingBlk ek)
                     = inr (expiringBlk ek).
Proof.
  unfold CommitPvtDataOfOldBlocks. destruct (isLastUpdatedOldBlocksSet s); [by left |].
  destruct (constructUpdateEntriesFromDataEntries _ _) as [ue | err] eqn:Eue; [| by left].
  unfold commitBatch, WriteBatch. destruct writeOk; [| by left].
  cbn [fst setDB db]. rewrite applyBatch_lookup, constructUpdateBatch_lookup.
  destruct (oldExpiryEntries ue !! ek) as [ed |] eqn:Eed; simpl; [| by left].
  right. apply constructUpdateEntries_inv in Eue as (_ & _ & I3 & _).
  destruct (I3 ek ed Eed) as (Hne & ed0 & Hd0 & Hm).
  exists ed, ed0. done.
Qed.

(** *** The purge sweep and the entries it does not name *)

Lemma foldl_Delete_frame {A : Type} (fk : A → Key) (l : list A) (b : UpdateBatch)
    (k : Key) :
  (∀ a, a ∈ l → fk a ≠ k) → foldl (λ b a, Delete (fk a) b) b l !! k = b !! k.
Proof.
  revert b. induction l as [| a l IH]; intros b Hl; simpl; [done |].
  rewrite IH by (intros a' Ha'; apply Hl; by right).
  apply Delete_lookup_ne. apply Hl. by left.
Qed.

Lemma deriveKeys_data (e : expiryEntry) (dk : dataKey) :
  dk ∈ (deriveKeys e).1 →
  blkNum (dataNsCollBlk dk) = committingBlk (expiryEntryKey e) ∧
  expiryMentions (expiryEntryValue e) (ns (dataNsCollBlk dk)) (coll (dataNsCollBlk dk)).
Proof.
  unfold deriveKeys. cbn [fst].
  intros ([[n c] txs] & Hdk & Hin%elem_of_map_to_list)%list_elem_of_bind.
  apply list_elem_of_fmap in Hdk as (tx & -> & _). simpl. split; [done |].
  left. eauto.
Qed.

(** A sweep leaves alone what none of its rounds names. *)
Lemma purgeLoop_frame (d : DB) (batch : UpdateBatch) (writeOk : nat → bool) (i : nat)
    (expiryEntries : list expiryEntry) (dk : dataKey) :
  (∀ e, e ∈ expiryEntries → dk ∉ (deriveKeys e).1) →
  batch !! KData dk = None →
  purgeLoop d batch writeOk i expiryEntries !! KData dk = d !! KData dk.
Proof.
  revert d batch i.
  induction expiryEntries as [| e rest IH]; intros d batch i Hnot Hb; [done |].
  rewrite purgeLoop_cons. cbv zeta.
  set (batch' := foldl _ (foldl _ (Delete _ batch) _) _).
  assert (Hb' : batch' !! KData dk = None).
  { subst batch'. rewrite foldl_Delete_frame by done.
    rewrite (foldl_Delete_frame KData).
    - by rewrite Delete_lookup_ne.
    - intros a Ha [= ->]. apply (Hnot e); [by left | done]. }
  rewrite IH; [| intros e' He'; apply Hnot; by right | done].
  unfold WriteBatch. destruct (writeOk i); cbn [fst]; [| done].
  by rewrite applyBatch_lookup, Hb'.
Qed.

(** A sweep only deletes, whatever the storage layer answers. *)
Lemma purgeLoop_subseteq (d : DB) (batch : UpdateBatch) (writeOk : nat → bool) (i : nat)
    (expiryEntries : list expiryEntry) (k : Key) (v : Value) :
  allDeletes batch →
  purgeLoop d batch writeOk i expiryEntries !! k = Some v → d !! k = Some v.
Proof.
  revert d batch i.
  induction expiryEntries as [| e rest IH]; intros d batch i Hall; [done |].
  rewrite purgeLoop_cons. cbv zeta.
  pose proof (purgeRound_batch batch e Hall) as (Hall' & _ & _).
  set (batch' := foldl _ (foldl _ (Delete _ batch) _) _) in *.
  intros Hr%(IH _ _ _ Hall'). revert Hr.
  unfold WriteBatch. destruct (writeOk i); cbn [fst]; [| done].
  rewrite applyBatch_lookup. destruct (batch' !! k) as [o |] eqn:Eb; [| done].
  apply Hall' in Eb. by subst o.
Qed.

Lemma retrieveExpiryEntries_values_aux (itr : list (expiryKey * Value))
    (acc entries : list expiryEntry) (e : expiryEntry) :
  foldRes (λ expiryEntries kv,
             expiryValue ← decodeExpiryValue kv.2;
             Ok (expiryEntries ++ [ {| expiryEntryKey := kv.1; expiryEntryValue := expiryValue |} ]))
          acc itr = Ok entries →
  e ∈ entries → e ∈ acc ∨ (expiryEntryKey e, VExpiry (expiryEntryValue e)) ∈ itr.
Proof.
  revert acc. induction itr as [| [k v] itr IH]; intros acc; simpl.
  - intros [= <-]. by left.
  - intros (acc' & Hacc & Hrest)%bind_Ok He.
    apply bind_Ok in Hacc as (ev & Hev & [= <-]). simpl in Hev.
    apply decodeExpiryValue_Ok in Hev as ->.
    destruct (IH _ Hrest He) as [[Hin | ->%list_elem_of_singleton]%elem_of_app | Hin].
    + by left.
    + right. simpl. by left.
    + right. by right.
Qed.

(** The sweep works on the expiry entries of the store. *)
Lemma retrieveExpiryEntries_values (s : Store) (minBlkNum maxBlkNum : N)
    (entries : list expiryEntry) (e : expiryEntry) :
  retrieveExpiryEntries s minBlkNum maxBlkNum = Ok entries → e ∈ entries →
  db s !! KExpiry (expiryEntryKey e) = Some (VExpiry (expiryEntryValue e)).
Proof.
  unfold retrieveExpiryEntries. intros H He.
  destruct (retrieveExpiryEntries_values_aux _ _ _ e H He) as [Hin | Hin].
  - by apply elem_of_nil in Hin.
  - apply elem_of_GetIterator in Hin as (key & Hd & Hr).
    destruct key; try done. simpl in Hr.
    destruct (_ && _); [| done]. by injection Hr as ->.
Qed.

(** *** The expiry entries of a running store *)

Lemma reachable_btlPolicy (btl : BTLPolicy) (s : Store) :
  reachable btl s → btlPolicy s = btl.
Proof.
  induction 1 as [| s ????? IH | s ??? IH | s ???? IH]; [done | | |].
  - by rewrite Commit_btlPolicy.
  - by rewrite CommitPvtDataOfOldBlocks_btlPolicy.
  - by rewrite purgeExpiredData_btlPolicy.
Qed.

Lemma purgeExpiredData_subseteq (s : Store) (minBlkNum maxBlkNum : N)
    (writeOk : nat → bool) (k : Key) (v : Value) :
  db (purgeExpiredData s minBlkNum maxBlkNum writeOk).1 !! k = Some v →
  db s !! k = Some v.
Proof.
  unfold purgeExpiredData.
  destruct (retrieveExpiryEntries _ _ _) as [[| e l] | err]; [done | | done].
  cbn [fst setDB db]. apply purgeLoop_subseteq.
  intros k' v'. unfold NewUpdateBatch. by rewrite lookup_empty.
Qed.

Lemma reachable_noNeverExpiringInExpiry (btl : BTLPolicy) (s : Store) :
  reachable btl s → noNeverExpiringInExpiry s.
Proof.
  induction 1 as [| s blockNum pvtData missingPvtData writeOk Hs IH
                  | s blocksPvtData writeOk Hs IH
                  | s minBlkNum maxBlkNum writeOk Hs IH];
    intros ek n c e (ed & Hd & Hm).
  - simpl in Hd. by rewrite lookup_empty in Hd.
  - rewrite Commit_btlPolicy. intros Hp.
    destruct (Commit_expiry_lookup s blockNum pvtData missingPvtData writeOk ek)
      as [Heq | (ed' & Hd' & Hblk & Hne & Hall)].
    + rewrite Heq in Hd. apply (IH ek n c e); [by exists ed | done].
    + rewrite Hd' in Hd. injection Hd as ->. apply Hall in Hm.
      rewrite <- Hblk, Hp in Hm. by injection Hm as ->.
  - rewrite CommitPvtDataOfOldBlocks_btlPolicy. intros Hp.
    destruct (CommitPvtDataOfOldBlocks_expiry_lookup s blocksPvtData writeOk ek)
      as [Heq | (ed' & ed0 & Hd' & Hd0 & Hne & Hall)].
    + rewrite Heq in Hd. apply (IH ek n c e); [by exists ed | done].
    + rewrite Hd' in Hd. injection Hd as ->. apply Hall in Hm as [Hm | Hm].
      * apply (IH ek n c e); [by exists ed0 | done].
      * rewrite Hp in Hm. by injection Hm as ->.
  - rewrite purgeExpiredData_btlPolicy. intros Hp.
    apply purgeExpiredData_subseteq in Hd.
    apply (IH ek n c e); [by exists ed | done].
Qed.

(** A sweep deletes no data entry of a pair that no expiry entry lists. *)
Lemma purgeExpiredData_frame (s : Store) (minBlkNum maxBlkNum : N)
    (writeOk : nat → bool) (dk : dataKey) :
  (∀ ek, committingBlk ek = blkNum (dataNsCollBlk dk) →
         ¬ dbMentions (db s) ek (ns (dataNsCollBlk dk)) (coll (dataNsCollBlk dk))) →
  db (purgeExpiredData s minBlkNum maxBlkNum writeOk).1 !! KData dk = db s !! KData dk.
Proof.
  intros Hnone. unfold purgeExpiredData.
  destruct (retrieveExpiryEntries _ _ _) as [[| e l] | err] eqn:Er; [done | | done].
  cbn [fst setDB db]. apply purgeLoop_frame; [| unfold NewUpdateBatch; by rewrite lookup_empty].
  intros e' He' [Hblk Hm]%deriveKeys_data.
  apply (Hnone (expiryEntryKey e')); [done |].
  exists (expiryEntryValue e'). split; [| done].
  by apply (retrieveExpiryEntries_values s minBlkNum maxBlkNum (e :: l)).
Qed.

(** C6. Let the policy answer a never-expiring height for the data of
    (namespace, collection) committed in block [b].  Then
    - neither [Commit] nor [CommitPvtDataOfOldBlocks] makes an expiry entry
      list the pair for block [b]: an expiry entry of that committing block
      that lists it afterwards listed it before; and neither writes under an
      expiry key of a never-expiring height;
    - the expiry check of the read path answers "not expired" at every
      committed height, and a read of block [b] that succeeds returns every
      stored write-set of the pair that passes the filter;
    - in a store that runs from a fresh database, a purge sweep over any
      window, whatever the storage layer answers, leaves every data entry of
      the pair as it is. *)
Theorem never_expiring_data_is_kept (s : Store) (n c : string) (b e : N) :
  GetExpiringBlock (btlPolicy s) n c b = inr e →
  neverExpires e = true →
  (∀ ek, committingBlk ek = b →
     (∀ blockNum pvtData missingPvtData writeOk,
        dbMentions (db (Commit s blockNum pvtData missingPvtData writeOk).1.1) ek n c →
        dbMentions (db s) ek n c) ∧
     (∀ blocksPvtData writeOk,
        dbMentions (db (CommitPvtDataOfOldBlocks s blocksPvtData writeOk).1) ek n c →
        dbMentions (db s) ek n c)) ∧
  (∀ ek, neverExpires (expiringBlk ek) = true →
     (∀ blockNum pvtData missingPvtData writeOk,
        db (Commit s blockNum pvtData missingPvtData writeOk).1.1 !! KExpiry ek
          = db s !! KExpiry ek) ∧
     (∀ blocksPvtData writeOk,
        db (CommitPvtDataOfOldBlocks s blocksPvtData writeOk).1 !! KExpiry ek
          = db s !! KExpiry ek)) ∧
  (∀ last, isExpired (NsCollBlk n c b) (btlPolicy s) last = Ok false) ∧
  (∀ v11Format v11RetrievePvtdata collFilter tx cw out,
     (∀ key, is_Some (db s !! KData key) → blkNum (dataNsCollBlk key) = b →
             v11Format (KData key) = inr false) →
     db s !! KData (DataKey (NsCollBlk n c b) tx) = Some (VData cw) →
     passesFilter (DataKey (NsCollBlk n c b) tx) collFilter = true →
     GetPvtDataByBlockNum v11Format v11RetrievePvtdata s b collFilter = Ok out →
     (tx, n, cw) ∈ flattenPvtData out) ∧
  (reachable (btlPolicy s) s →
   ∀ tx minBlkNum maxBlkNum writeOk,
     db (purgeExpiredData s minBlkNum maxBlkNum writeOk).1
       !! KData (DataKey (NsCollBlk n c b) tx)
     = db s !! KData (DataKey (NsCollBlk n c b) tx)).
Proof.
  intros Hpol Hnever.
  assert (Hexp : ∀ last, isExpired (NsCollBlk n c b) (btlPolicy s) last = Ok false).
  { intros last. unfold isExpired. simpl. rewrite Hpol. simpl. by rewrite Hnever. }
  split; [| split; [| split; [| split]]].
  - intros ek Hblk. split.
    + intros blockNum pvtData missingPvtData writeOk (ed & Hd & Hm).
      destruct (Commit_expiry_lookup s blockNum pvtData missingPvtData writeOk ek)
        as [Heq | (ed' & Hd' & Hblk' & Hne & Hall)].
      * rewrite Heq in Hd. by exists ed.
      * assert (Hed : ed' = ed) by congruence. subst ed'. apply Hall in Hm.
        rewrite <- Hblk', Hblk, Hpol in Hm. injection Hm as ->. congruence.
    + intros blocksPvtData writeOk (ed & Hd & Hm).
      destruct (CommitPvtDataOfOldBlocks_expiry_lookup s blocksPvtData writeOk ek)
        as [Heq | (ed' & ed0 & Hd' & Hd0 & Hne & Hall)].
      * rewrite Heq in Hd. by exists ed.
      * assert (Hed : ed' = ed) by congruence. subst ed'.
        destruct (Hall n c Hm) as [Hm' | Hm'].
        -- by exists ed0.
        -- rewrite Hblk, Hpol in Hm'. injection Hm' as ->. congruence.
  - intros ek Hs. split.
    + intros blockNum pvtData missingPvtData writeOk.
      destruct (Commit_expiry_lookup s blockNum pvtData missingPvtData writeOk ek)
        as [Heq | (ed' & _ & _ & Hne & _)]; [done | congruence].
    + intros blocksPvtData writeOk.
      destruct (CommitPvtDataOfOldBlocks_expiry_lookup s blocksPvtData writeOk ek)
        as [Heq | (ed' & ed0 & _ & _ & Hne & _)]; [done | congruence].
  - exact Hexp.
  - intros v11Format v11RetrievePvtdata collFilter tx cw out Hv11 Hd Hpass Hout.
    rewrite (GetPvtDataByBlockNum_flatten _ _ _ _ _ _ Hv11 Hout).
    apply list_elem_of_omap. exists (DataKey (NsCollBlk n c b) tx, VData cw). split.
    + by apply elem_of_data_scan.
    + unfold readable. cbn [fst snd dataNsCollBlk]. by rewrite Hexp, Hpass.
  - intros Hreach tx minBlkNum maxBlkNum writeOk.
    apply purgeExpiredData_frame. cbn [dataNsCollBlk blkNum ns coll].
    intros ek Hblk Hm.
    pose proof (reachable_noNeverExpiringInExpiry _ _ Hreach ek n c e Hm) as Hno.
    rewrite Hblk, Hpol in Hno. specialize (Hno eq_refl). congruence.
Qed.

Lemma never_expiring_data_is_kept_witness :
  isExpired (NsCollBlk "ns1" "coll2" 0) (btlPolicy sampleStore2)
    (lastCommittedBlock sampleStore2) = Ok false ∧
  db (purgeExpiredData sampleStore2 0 2 alwaysOk).1
    !! KData (DataKey (NsCollBlk "ns1" "coll2" 0) 3)
  = Some (VData (sampleColl "coll2")).
Proof.
  destruct (never_expiring_data_is_kept sampleStore2 "ns1" "coll2" 0 MaxUint64)
    as (_ & _ & Hexp & _ & Hpurge); [reflexivity | reflexivity |].
  split; [apply Hexp |].
  rewrite Hpurge; [reflexivity |].
  unfold sampleStore2, sampleStore1, sampleStore0, storeAfter.
  do 3 apply (reachable_Commit samplePolicy). apply reachable_new.
Defined.

(** * Further properties of the store *)

(** ** Commit *)

Lemma add64_succ_ne (b : N) : add64 b 1 ≠ b.
Proof.
  unfold add64, uint64_modulus. intros H.
  assert (Hlt : (b + 1) mod 2 ^ 64 < 2 ^ 64) by (apply N.mod_lt; lia).
  assert (Hb : b < 2 ^ 64) by lia.
  destruct (N.eq_dec (b + 1) (2 ^ 64)) as [E | E].
  - rewrite E, N.Div0.mod_same in H. lia.
  - rewrite N.mod_small in H by lia. lia.
Qed.

(** What a call of [Commit] comes to: an error with the store as it was, or
    the block written with the counters advanced. *)
Lemma Commit_cases (s : Store) (blockNum : N) (pvtData : list TxPvtData)
    (missingPvtData : TxMissingPvtDataMap) (writeOk : bool) :
  let r := Commit s blockNum pvtData missingPvtData writeOk in
  (isError r.1.2 = true ∧ r.1.1 = s ∧ r.2 = None ∧
   (nextBlockNum s ≠ blockNum ∨ writeOk = false ∨
    ∃ e, prepareStoreEntries blockNum pvtData (btlPolicy s) missingPvtData = Err e)) ∨
  (isError r.1.2 = false ∧ nextBlockNum s = blockNum ∧ writeOk = true ∧
   (∃ se, prepareStoreEntries blockNum pvtData (btlPolicy s) missingPvtData = Ok se) ∧
   r.1.2 = (if purgeInterval s =? 0 then Panicked "integer divide by zero"
            else Returned None) ∧
   r.2 = (if purgeInterval s =? 0 then None
          else if blockNum mod purgeInterval s =? 0 then Some (0, blockNum) else None) ∧
   btlPolicy r.1.1 = btlPolicy s ∧ purgeInterval r.1.1 = purgeInterval s ∧
   isEmpty r.1.1 = false ∧ lastCommittedBlock r.1.1 = blockNum ∧
   isLastUpdatedOldBlocksSet r.1.1 = isLastUpdatedOldBlocksSet s ∧
   db r.1.1 !! KLastCommittedBlk = Some (VBlockNum blockNum) ∧
   ∀ k, isEntryKey k = false → k ≠ KLastCommittedBlk → db r.1.1 !! k = db s !! k).
Proof.
  unfold Commit.
  destruct (nextBlockNum s =? blockNum) eqn:E; simpl.
  2: { apply N.eqb_neq in E. left. eauto 10. }
  apply N.eqb_eq in E.
  destruct (prepareStoreEntries _ _ _ _) as [se | e] eqn:Ese; simpl.
  2: { left. eauto 10. }
  destruct writeOk; simpl.
  2: { left. eauto 10. }
  right. unfold performPurgeIfScheduled. cbn [purgeInterval].
  set (batch := Put KLastCommittedBlk _ _).
  assert (Hlast : applyBatch batch (db s) !! KLastCommittedBlk = Some (VBlockNum blockNum)).
  { rewrite applyBatch_lookup. subst batch. unfold Put at 1.
    rewrite lookup_insert_eq. by rewrite E. }
  assert (Hframe : ∀ k, isEntryKey k = false → k ≠ KLastCommittedBlk →
                        applyBatch batch (db s) !! k = db s !! k).
  { intros k Hk Hne. rewrite applyBatch_lookup. subst batch.
    rewrite Put_lookup_ne by done.
    rewrite foldl_lookup_frame
      by (intros; apply Put_lookup_ne; intros <-; discriminate).
    rewrite foldl_lookup_frame
      by (intros; apply Put_lookup_ne; intros <-; discriminate).
    rewrite foldl_lookup_frame
      by (intros; apply Put_lookup_ne; intros <-; discriminate).
    unfold NewUpdateBatch. by rewrite lookup_empty. }
  destruct (purgeInterval s =? 0) eqn:Ei; simpl.
  - rewrite E. eauto 20.
  - rewrite E. destruct (blockNum mod purgeInterval s =? 0); simpl; eauto 20.
Qed.

(** X1. A [Commit] that returns an error, whichever it is (a block number
    out of sequence, a failure of the BTL policy while the entries are
    prepared, a failed write of the batch), leaves the store, database and
    counters, as it was and starts no purge. *)
Theorem Commit_error_leaves_store (s : Store) (blockNum : N) (pvtData : list TxPvtData)
    (missingPvtData : TxMissingPvtDataMap) (writeOk : bool) (err : error) :
  (Commit s blockNum pvtData missingPvtData writeOk).1.2 = Returned (Some err) →
  (Commit s blockNum pvtData missingPvtData writeOk).1.1 = s ∧
  (Commit s blockNum pvtData missingPvtData writeOk).2 = None.
Proof.
  intros Herr.
  destruct (Commit_cases s blockNum pvtData missingPvtData writeOk)
    as [(_ & Hs & Hp & _) | (Hne & _)]; [done |].
  rewrite Herr in Hne. discriminate.
Qed.

Lemma Commit_error_leaves_store_witness :
  (Commit sampleStore0 1 samplePvtData sampleMissing false).1.1 = sampleStore0 ∧
  (Commit sampleStore0 1 samplePvtData sampleMissing false).2 = None.
Proof.
  apply (Commit_error_leaves_store sampleStore0 1 samplePvtData sampleMissing false
           (ErrCollaborator "error writing the batch")).
  reflexivity.
Defined.

(** X2. Whatever its outcome, [Commit] writes entries of the three entry
    families and the key of the last committed block only: the
    collection-eligibility events and the markers of the older format are as
    before the call. *)
Theorem Commit_keeps_bookkeeping (s : Store) (blockNum : N) (pvtData : list TxPvtData)
    (missingPvtData : TxMissingPvtDataMap) (writeOk : bool) :
  let s' := (Commit s blockNum pvtData missingPvtData writeOk).1.1 in
  (∀ blk, db s' !! KCollElg blk = db s !! KCollElg blk) ∧
  db s' !! KPendingCommit = db s !! KPendingCommit ∧
  db s' !! KLastUpdatedOldBlocks = db s !! KLastUpdatedOldBlocks ∧
  isLastUpdatedOldBlocksSet s' = isLastUpdatedOldBlocksSet s.
Proof.
  destruct (Commit_cases s blockNum pvtData missingPvtData writeOk)
    as [(_ & Hs & _) | (_ & _ & _ & _ & _ & _ & _ & _ & _ & _ & Hflag & _ & Hframe)];
    cbv zeta.
  - by rewrite Hs.
  - split; [| split; [| split]]; [intros blk | | | done]; by apply Hframe.
Qed.

(** X3. The height of the store goes up by exactly one (in [uint64]) with
    every [Commit] that does not return an error, and stays with one that
    does. *)
Theorem Commit_height_by_one (s : Store) (blockNum : N) (pvtData : list TxPvtData)
    (missingPvtData : TxMissingPvtDataMap) (writeOk : bool) :
  let r := Commit s blockNum pvtData missingPvtData writeOk in
  LastCommittedBlockHeight r.1.1 =
    if isError r.1.2 then LastCommittedBlockHeight s
    else add64 (LastCommittedBlockHeight s) 1.
Proof.
  destruct (Commit_cases s blockNum pvtData missingPvtData writeOk)
    as [(He & Hs & _) | (He & Hnext & _ & _ & _ & _ & _ & _ & Hempty & Hlast & _)];
    cbv zeta; rewrite He.
  - by rewrite Hs.
  - unfold LastCommittedBlockHeight at 1. rewrite Hempty, Hlast.
    unfold LastCommittedBlockHeight. unfold nextBlockNum in Hnext. by rewrite Hnext.
Qed.

(** X4. A block is committed once: after a [Commit] of [blockNum] that
    returned nil, every further [Commit] of the same [blockNum] is refused
    with [ErrIllegalArgs] and changes nothing. *)
Theorem Commit_not_twice (s : Store) (blockNum : N) (pvtData pvtData' : list TxPvtData)
    (missingPvtData missingPvtData' : TxMissingPvtDataMap) (writeOk writeOk' : bool) :
  (Commit s blockNum pvtData missingPvtData writeOk).1.2 = Returned None →
  let s' := (Commit s blockNum pvtData missingPvtData writeOk).1.1 in
  Commit s' blockNum pvtData' missingPvtData' writeOk' =
    (s', Returned (Some (ErrIllegalArgs
                           (illegalArgsMsg (add64 blockNum 1) blockNum))), None).
Proof.
  intros Hok s'.
  destruct (Commit_cases s blockNum pvtData missingPvtData writeOk)
    as [(He & _) | (_ & _ & _ & _ & _ & _ & _ & _ & Hempty & Hlast & _)].
  { rewrite Hok in He. discriminate. }
  fold s' in Hempty, Hlast. unfold Commit.
  assert (Hnext : nextBlockNum s' = add64 blockNum 1)
    by (unfold nextBlockNum; by rewrite Hempty, Hlast).
  rewrite Hnext.
  destruct (add64 blockNum 1 =? blockNum) eqn:E; [| done].
  apply N.eqb_eq in E. by apply add64_succ_ne in E.
Qed.

Lemma Commit_not_twice_witness :
  Commit sampleStore0 0 [] [] true =
    (sampleStore0,
     Returned (Some (ErrIllegalArgs "Expected block number=1, received block number=0")),
     None).
Proof.
  exact (Commit_not_twice sampleStore 0 samplePvtData [] sampleMissing [] true true
           eq_refl).
Defined.

(** X5. A [Commit] that passes its checks and whose batch is written ends in
    one of three ways, by the purge interval [n] of the store: for [n = 0]
    it panics on the remainder, the block being written already; otherwise
    it returns nil, and it starts a purge of the window from 0 to
    [blockNum] exactly when [n] divides [blockNum]. *)
Theorem Commit_purge_schedule (s : Store) (blockNum : N) (pvtData : list TxPvtData)
    (missingPvtData : TxMissingPvtDataMap) (se : storeEntries) :
  nextBlockNum s = blockNum →
  prepareStoreEntries blockNum pvtData (btlPolicy s) missingPvtData = Ok se →
  let r := Commit s blockNum pvtData missingPvtData true in
  db r.1.1 !! KLastCommittedBlk = Some (VBlockNum blockNum) ∧
  lastCommittedBlock r.1.1 = blockNum ∧
  (purgeInterval s = 0 → r.1.2 = Panicked "integer divide by zero" ∧ r.2 = None) ∧
  (purgeInterval s ≠ 0 →
     r.1.2 = Returned None ∧
     (blockNum mod purgeInterval s = 0 → r.2 = Some (0, blockNum)) ∧
     (blockNum mod purgeInterval s ≠ 0 → r.2 = None)).
Proof.
  intros Hnext Hse.
  destruct (Commit_cases s blockNum pvtData missingPvtData true)
    as [(_ & _ & _ & [H | [H | [e H]]]) |
        (_ & _ & _ & _ & Hout & Hp & _ & _ & _ & Hlast & _ & Hdb & _)];
    [done | done | congruence |].
  cbv zeta. split; [done |]. split; [done |]. rewrite Hout, Hp. split.
  - intros ->. done.
  - intros Hi. apply N.eqb_neq in Hi. rewrite Hi. split; [done |]. split.
    + intros Hm. apply N.eqb_eq in Hm. by rewrite Hm.
    + intros Hm. apply N.eqb_neq in Hm. by rewrite Hm.
Qed.

Lemma Commit_purge_schedule_witness :
  (Commit (newStore samplePolicy 0) 0 samplePvtData sampleMissing true).1.2
    = Panicked "integer divide by zero" ∧
  (Commit sampleStore 0 samplePvtData sampleMissing true).2 = Some (0, 0) ∧
  (Commit sampleStore0 1 [] [] true).2 = None.
Proof.
  split; [| split].
  - destruct (Commit_purge_schedule (newStore samplePolicy 0) 0 samplePvtData sampleMissing
                (match prepareStoreEntries 0 samplePvtData samplePolicy sampleMissing with
                 | Ok se => se
                 | Err _ => {| dataEntries := []; expiryEntries := [];
                               missingDataEntries := ∅ |}
                 end) eq_refl eq_refl) as (_ & _ & H & _).
    by apply H.
  - destruct (Commit_purge_schedule sampleStore 0 samplePvtData sampleMissing
                (match prepareStoreEntries 0 samplePvtData samplePolicy sampleMissing with
                 | Ok se => se
                 | Err _ => {| dataEntries := []; expiryEntries := [];
                               missingDataEntries := ∅ |}
                 end) eq_refl eq_refl) as (_ & _ & _ & H).
    destruct H as (_ & H & _); [vm_compute; discriminate |]. by apply H.
  - destruct (Commit_purge_schedule sampleStore0 1 [] []
                {| dataEntries := []; expiryEntries := []; missingDataEntries := ∅ |}
                eq_refl eq_refl) as (_ & _ & _ & H).
    destruct H as (_ & _ & H); [vm_compute; discriminate |].
    apply H. vm_compute. discriminate.
Defined.

(** ** Committing the private data of old blocks *)

(** What a call of [CommitPvtDataOfOldBlocks] comes to: an error with the
    store as it was, or the batch of the update entries written. *)
Lemma CommitPvtDataOfOldBlocks_cases (s : Store)
    (blocksPvtData : list (N * list TxPvtData)) (writeOk : bool) :
  let r := CommitPvtDataOfOldBlocks s blocksPvtData writeOk in
  (∃ err, r = (s, Some err)) ∨
  (∃ ue, isLastUpdatedOldBlocksSet s = false ∧ writeOk = true ∧
         constructUpdateEntriesFromDataEntries s
           (constructDataEntriesFromBlocksPvtData blocksPvtData) = Ok ue ∧
         r = (setDB s (applyBatch (constructUpdateBatchFromUpdateEntries ue) (db s)),
              None)).
Proof.
  unfold CommitPvtDataOfOldBlocks.
  destruct (isLastUpdatedOldBlocksSet s); [left; eauto |].
  destruct (constructUpdateEntriesFromDataEntries _ _) as [ue | err]; [| left; eauto].
  unfold commitBatch, WriteBatch. destruct writeOk; [| left; eauto].
  right. exists ue. done.
Qed.

(** X6. [CommitPvtDataOfOldBlocks] is refused with [ErrIllegalCall] while the
    list of updated old blocks is set.  Whenever it returns an error (this
    one, a failure of the BTL policy, a stored value that cannot be decoded,
    a failed write) the store is as it was; and when it returns nil, the
    policy, the purge interval and the flag are as they were. *)
Theorem CommitPvtDataOfOldBlocks_error_leaves_store (s : Store)
    (blocksPvtData : list (N * list TxPvtData)) (writeOk : bool) :
  let r := CommitPvtDataOfOldBlocks s blocksPvtData writeOk in
  (isLastUpdatedOldBlocksSet s = true → r = (s, Some (ErrIllegalCall illegalCallMsg))) ∧
  (∀ err, r.2 = Some err → r.1 = s) ∧
  (writeOk = false → ∃ err, r = (s, Some err)) ∧
  btlPolicy r.1 = btlPolicy s ∧ purgeInterval r.1 = purgeInterval s ∧
  isLastUpdatedOldBlocksSet r.1 = isLastUpdatedOldBlocksSet s.
Proof.
  cbv zeta. split; [| split; [| split]].
  - intros Hflag. unfold CommitPvtDataOfOldBlocks. by rewrite Hflag.
  - intros err Herr.
    destruct (CommitPvtDataOfOldBlocks_cases s blocksPvtData writeOk)
      as [[err' ->] | (ue & _ & _ & _ & Hr)]; [done |].
    rewrite Hr in Herr. discriminate.
  - intros ->.
    destruct (CommitPvtDataOfOldBlocks_cases s blocksPvtData false)
      as [[err' ->] | (ue & _ & [=] & _)]. eauto.
  - destruct (CommitPvtDataOfOldBlocks_cases s blocksPvtData writeOk)
      as [[err' ->] | (ue & _ & _ & _ & ->)]; done.
Qed.

(** The store after [CommitPvtDataOfOldBlocks], key by key. *)
Lemma CommitPvtDataOfOldBlocks_lookup (s : Store)
    (blocksPvtData : list (N * list TxPvtData)) (writeOk : bool) (k : Key) :
  let s' := (CommitPvtDataOfOldBlocks s blocksPvtData writeOk).1 in
  db s' !! k = db s !! k ∨
  ∃ ue, updateEntriesInv s ue ∧
        constructUpdateEntriesFromDataEntries s
          (constructDataEntriesFromBlocksPvtData blocksPvtData) = Ok ue ∧
        db s' !! k =
          match constructUpdateBatchFromUpdateEntries ue !! k with
          | Some o => o
          | None => db s !! k
          end.
Proof.
  destruct (CommitPvtDataOfOldBlocks_cases s blocksPvtData writeOk)
    as [[err' Hr] | (ue & _ & _ & Hue & Hr)]; cbv zeta; rewrite Hr; [by left |].
  right. exists ue. split; [exact (constructUpdateEntries_inv s _ ue Hue) |].
  split; [done |]. cbn [fst setDB db]. apply applyBatch_lookup.
Qed.

(** X7. [CommitPvtDataOfOldBlocks] only updates the bookkeeping that is in
    the store.  It creates no expiry entry and no missing-data entry, deletes
    no expiry entry and no data entry, sets no bit of a missing-data bitmap,
    and leaves alone the ineligible missing-data entries and every key
    outside the three entry families. *)
Theorem CommitPvtDataOfOldBlocks_only_updates (s : Store)
    (blocksPvtData : list (N * list TxPvtData)) (writeOk : bool) :
  let s' := (CommitPvtDataOfOldBlocks s blocksPvtData writeOk).1 in
  (∀ k, isEntryKey k = false → db s' !! k = db s !! k) ∧
  (∀ ncb, db s' !! KMissingData (MissingDataKey ncb false)
          = db s !! KMissingData (MissingDataKey ncb false)) ∧
  (∀ ek, is_Some (db s' !! KExpiry ek) ↔ is_Some (db s !! KExpiry ek)) ∧
  (∀ mk, db s !! KMissingData mk = None → db s' !! KMissingData mk = None) ∧
  (∀ mk bm' i, db s' !! KMissingData mk = Some (VBitmap bm') →
     bitsetTest bm' i = true →
     ∃ bm, db s !! KMissingData mk = Some (VBitmap bm) ∧ bitsetTest bm i = true) ∧
  (∀ dk, is_Some (db s !! KData dk) → is_Some (db s' !! KData dk)).
Proof.
  cbv zeta. split; [| split; [| split; [| split; [| split]]]].
  - intros k Hk.
    destruct (CommitPvtDataOfOldBlocks_lookup s blocksPvtData writeOk k)
      as [H | (ue & _ & _ & H)]; [done |].
    rewrite H, constructUpdateBatch_lookup. by destruct k.
  - intros ncb.
    destruct (CommitPvtDataOfOldBlocks_lookup s blocksPvtData writeOk
                (KMissingData (MissingDataKey ncb false)))
      as [H | (ue & _ & _ & H)]; [done |].
    by rewrite H, constructUpdateBatch_lookup.
  - intros ek.
    destruct (CommitPvtDataOfOldBlocks_lookup s blocksPvtData writeOk (KExpiry ek))
      as [H | (ue & (_ & _ & I3 & _) & _ & H)]; [by rewrite H |].
    rewrite H, constructUpdateBatch_lookup.
    destruct (oldExpiryEntries ue !! ek) as [ed |] eqn:E; simpl; [| done].
    destruct (I3 _ _ E) as (_ & ed0 & -> & _). split; eauto.
  - intros mk Hnone.
    destruct (CommitPvtDataOfOldBlocks_lookup s blocksPvtData writeOk (KMissingData mk))
      as [H | (ue & (_ & I2 & _) & _ & H)]; [by rewrite H |].
    rewrite H, constructUpdateBatch_lookup. destruct mk as [ncb [|]]; [| done].
    destruct (oldMissingDataEntries ue !! ncb) as [bm |] eqn:E; simpl; [| done].
    destruct (I2 _ _ E) as (bm0 & Hbm0 & _). congruence.
  - intros mk bm' i Hs' Hbit.
    destruct (CommitPvtDataOfOldBlocks_lookup s blocksPvtData writeOk (KMissingData mk))
      as [H | (ue & (_ & I2 & _) & _ & H)].
    { rewrite H in Hs'. eauto. }
    rewrite H, constructUpdateBatch_lookup in Hs'. destruct mk as [ncb [|]]; [| eauto].
    destruct (oldMissingDataEntries ue !! ncb) as [bm |] eqn:E; simpl in Hs'; [| eauto].
    destruct (I2 _ _ E) as (bm0 & Hbm0 & Hbits).
    destruct (bitsetNone bm); [done |]. injection Hs' as <-.
    exists bm0. split; [done |]. rewrite Hbits in Hbit.
    by apply andb_true_iff in Hbit as [-> _].
  - intros dk Hdk.
    destruct (CommitPvtDataOfOldBlocks_lookup s blocksPvtData writeOk (KData dk))
      as [H | (ue & _ & _ & H)]; [by rewrite H |].
    rewrite H, constructUpdateBatch_lookup.
    destruct (oldDataEntries ue !! dk); simpl; eauto.
Qed.

(** *** The reconciled data that is stored *)

Lemma foldRes_invariant_prefix {A B : Type} (P : list A → B → Prop)
    (f : B → A → res B) (l : list A) (b b' : B) :
  (∀ pre a b1 b2, P pre b1 → f b1 a = Ok b2 → P (pre ++ [a]) b2) →
  P [] b → foldRes f b l = Ok b' → P l b'.
Proof.
  intros Hstep.
  assert (H : ∀ pre b, P pre b → foldRes f b l = Ok b' → P (pre ++ l) b').
  { induction l as [| a l IH]; intros pre b1 Hb; simpl.
    - intros [= <-]. by rewrite app_nil_r.
    - intros (b2 & Hf & Hrest)%bind_Ok.
      rewrite (cons_middle a pre l), app_assoc. eapply IH; [| exact Hrest]. eauto. }
  intros Hb. exact (H [] b Hb).
Qed.

(** The rounds of the loop of [constructUpdateEntriesFromDataEntries]: the
    entry is skipped, or merged with the bitmap and, for an expiring
    collection, the expiry data that were looked up. *)
Lemma updateEntriesStep_Ok (s : Store) (ue ue' : entriesForPvtDataOfOldBlocks)
    (de : dataEntry) :
  updateEntriesStep s ue de = Ok ue' →
  let key := dataEntryKey de in
  let ncb := dataNsCollBlk key in
  ∃ e, GetExpiringBlock (btlPolicy s) (ns ncb) (coll ncb) (blkNum ncb) = inr e ∧
    ((ue' = ue ∧
      ((neverExpires e = false ∧
        getExpiryDataFromUpdateEntriesOrStore s ue (ExpiryKey e (blkNum ncb)) = Ok None) ∨
       getMissingDataFromUpdateEntriesOrStore s ue ncb = Ok None)) ∨
     (∃ md, getMissingDataFromUpdateEntriesOrStore s ue ncb = Ok (Some md) ∧
        ((neverExpires e = true ∧
          ue' = updateAndAddMissingDataEntry (addDataEntry ue de) md key) ∨
         (neverExpires e = false ∧
          ∃ ed, getExpiryDataFromUpdateEntriesOrStore s ue (ExpiryKey e (blkNum ncb))
                  = Ok (Some ed) ∧
                ue' = updateAndAddMissingDataEntry
                        (updateAndAddExpiryEntry (addDataEntry ue de)
                           {| expiryEntryKey := ExpiryKey e (blkNum ncb);
                              expiryEntryValue := ed |} key)
                        md key)))).
Proof.
  intros Hstep key ncb. unfold updateEntriesStep in Hstep.
  apply bind_Ok in Hstep as (ek & Hek & Hrest).
  unfold constructExpiryKeyFromDataEntry in Hek. fold key ncb in Hek.
  destruct (GetExpiringBlock _ _ _ _) as [msg | e] eqn:Hpol; simpl in Hek; [done |].
  injection Hek as <-. exists e. split; [done |]. cbn [expiringBlk] in Hrest.
  destruct (neverExpires e) eqn:Hne; simpl in Hrest.
  - unfold mergeDataEntry in Hrest. fold key ncb in Hrest.
    apply bind_Ok in Hrest as (omd & Hmd & Hrest).
    destruct omd as [md |]; injection Hrest as <-.
    + right. exists md. split; [done |]. left. done.
    + left. split; [done |]. by right.
  - apply bind_Ok in Hrest as (oed & Hoed & Hrest).
    destruct oed as [ed |].
    + unfold mergeDataEntry in Hrest. fold key ncb in Hrest.
      apply bind_Ok in Hrest as (omd & Hmd & Hrest).
      destruct omd as [md |]; injection Hrest as <-.
      * right. exists md. split; [done |]. right. split; [done |]. exists ed. done.
      * left. split; [done |]. by right.
    + injection Hrest as <-. left. split; [done |]. left. done.
Qed.

Lemma presentTxs_addPresentData (ed : ExpiryData) (n c n' c' : string) (tx tx' : N) :
  tx' ∈ presentTxs (addPresentData ed n c tx) n' c' ↔
  tx' ∈ presentTxs ed n' c' ∨ (n' = n ∧ c' = c ∧ tx' = tx).
Proof.
  unfold presentTxs, addPresentData. cbn [presentData].
  destruct (decide ((n, c) = (n', c'))) as [[= -> ->] | Hne].
  - rewrite lookup_insert_eq. cbn [default id]. rewrite elem_of_app, list_elem_of_singleton.
    split; intros [H | H]; eauto. destruct H as (_ & _ & ->). by right.
  - rewrite lookup_insert_ne by done. split; [eauto |].
    intros [H | (-> & -> & _)]; done.
Qed.

Lemma dataKey_eta (k : dataKey) : DataKey (dataNsCollBlk k) (txNum k) = k.
Proof. by destruct k. Qed.

Lemma getMissingData_None_store (s : Store) (ue : entriesForPvtDataOfOldBlocks)
    (ncb : nsCollBlk) :
  getMissingDataFromUpdateEntriesOrStore s ue ncb = Ok None →
  db s !! KMissingData (MissingDataKey ncb true) = None.
Proof.
  unfold getMissingDataFromUpdateEntriesOrStore.
  destruct (oldMissingDataEntries ue !! ncb); [done |].
  by intros ?%getBitmapOfMissingDataKey_None.
Qed.

Lemma getExpiryData_None_store (s : Store) (ue : entriesForPvtDataOfOldBlocks)
    (ek : expiryKey) :
  getExpiryDataFromUpdateEntriesOrStore s ue ek = Ok None → db s !! KExpiry ek = None.
Proof.
  unfold getExpiryDataFromUpdateEntriesOrStore.
  destruct (oldExpiryEntries ue !! ek); [done |].
  by intros ?%getExpiryDataOfExpiryKey_None.
Qed.

Lemma updateEntriesData_step (s : Store) (pre : list dataEntry)
    (ue ue' : entriesForPvtDataOfOldBlocks) (de : dataEntry) :
  updateEntriesData s pre ue → updateEntriesStep s ue de = Ok ue' →
  updateEntriesData s (pre ++ [de]) ue'.
Proof.
  intros (D1 & D2 & D3 & D4) Hstep.
  apply updateEntriesStep_Ok in Hstep as (e & Hpol & Hcases).
  set (key := dataEntryKey de) in *. set (ncb := dataNsCollBlk key) in *.
  destruct Hcases as [[-> Hskip] | (md & Hmd & Hmerged)].
  - (* the entry is skipped *)
    split; [| split; [| split]]; [| | done | done].
    + intros dk v Hv. destruct (D1 dk v Hv) as (de' & Hin & Hk & Hval).
      exists de'. split; [apply elem_of_app; by left | done].
    + intros de' [Hin | ->%list_elem_of_singleton]%elem_of_app Hbk; [by apply D2 |].
      exfalso. destruct Hbk as [Hmis Hexp]. fold key ncb in Hmis, Hexp.
      destruct Hskip as [[Hne Hnone%getExpiryData_None_store] | Hnone%getMissingData_None_store].
      * destruct (Hexp e Hpol Hne) as [v Hv]. congruence.
      * destruct Hmis as [v Hv]. congruence.
  - (* the entry is merged *)
    assert (Hdata : oldDataEntries ue' = <[key := dataEntryValue de]> (oldDataEntries ue)).
    { destruct Hmerged as [[_ ->] | (_ & ed & _ & ->)]; simpl;
        fold key; by rewrite dataKey_eta. }
    assert (Hexp : ∀ ek ed', oldExpiryEntries ue' !! ek = Some ed' →
              oldExpiryEntries ue !! ek = Some ed' ∨
              (neverExpires e = false ∧ ek = ExpiryKey e (blkNum ncb) ∧
               ∃ ed, getExpiryDataFromUpdateEntriesOrStore s ue ek = Ok (Some ed) ∧
                     ed' = addPresentData ed (ns ncb) (coll ncb) (txNum key))).
    { intros ek ed'. destruct Hmerged as [[_ ->] | (Hne & ed & Hed & ->)]; simpl.
      - by left.
      - destruct (decide (ek = ExpiryKey e (blkNum ncb))) as [-> | Hneq].
        + rewrite lookup_insert_eq. intros [= <-]. right. eauto.
        + rewrite lookup_insert_ne by done. by left. }
    assert (Hmono : ∀ ek ed, oldExpiryEntries ue !! ek = Some ed →
              ∃ ed', oldExpiryEntries ue' !! ek = Some ed' ∧
                     ∀ n c tx, tx ∈ presentTxs ed n c → tx ∈ presentTxs ed' n c).
    { intros ek ed Hek. destruct Hmerged as [[_ ->] | (Hne & ed1 & Hed1 & ->)]; simpl.
      - eauto.
      - destruct (decide (ek = ExpiryKey e (blkNum ncb))) as [-> | Hneq].
        + rewrite lookup_insert_eq.
          unfold getExpiryDataFromUpdateEntriesOrStore in Hed1. rewrite Hek in Hed1.
          injection Hed1 as <-. eexists. split; [done |].
          intros n c tx Htx. apply presentTxs_addPresentData. by left.
        + rewrite lookup_insert_ne by done. eauto. }
    split; [| split; [| split]].
    + intros dk v. rewrite Hdata.
      destruct (decide (dk = key)) as [-> | Hneq].
      * rewrite lookup_insert_eq. intros [= <-]. exists de.
        split; [apply elem_of_app; right; by apply list_elem_of_singleton | done].
      * rewrite lookup_insert_ne by done. intros Hv.
        destruct (D1 dk v Hv) as (de' & Hin & Hk & Hval).
        exists de'. split; [apply elem_of_app; by left | done].
    + intros de' Hin Hbk. rewrite Hdata.
      destruct (decide (dataEntryKey de' = key)) as [-> | Hneq].
      * rewrite lookup_insert_eq. eauto.
      * rewrite lookup_insert_ne by done.
        apply elem_of_app in Hin as [Hin | ->%list_elem_of_singleton]; [by apply D2 | done].
    + intros dk e' Hdk Hpol' Hne'. rewrite Hdata in Hdk.
      destruct (decide (dk = key)) as [-> | Hneq].
      * fold ncb in Hpol'. rewrite Hpol in Hpol'. injection Hpol' as <-.
        destruct Hmerged as [[Hne _] | (_ & ed & Hed & ->)]; [congruence |].
        simpl. fold ncb. rewrite lookup_insert_eq. eexists. split; [done |].
        apply presentTxs_addPresentData. right. done.
      * rewrite lookup_insert_ne in Hdk by done.
        destruct (D3 dk e' Hdk Hpol' Hne') as (ed & Hed & Htx).
        destruct (Hmono _ _ Hed) as (ed' & Hed' & Hsub). eauto.
    + intros ek ed' [Hold | (Hne & -> & ed & Hed & ->)]%Hexp; [by apply D4 |].
      unfold getExpiryDataFromUpdateEntriesOrStore in Hed.
      destruct (oldExpiryEntries ue !! ExpiryKey e (blkNum ncb)) as [ed1 |] eqn:E.
      * injection Hed as <-. destruct (D4 _ _ E) as (ed0 & Hd0 & Hm0 & Hsub).
        exists ed0. split; [done |]. split; [done |].
        intros n c tx Htx. apply presentTxs_addPresentData. left. by apply Hsub.
      * apply getExpiryDataOfExpiryKey_Some in Hed.
        exists ed. split; [done |]. split; [done |].
        intros n c tx Htx. apply presentTxs_addPresentData. by left.
Qed.

Lemma constructUpdateEntries_data (s : Store) (dataEntries : list dataEntry)
    (ue : entriesForPvtDataOfOldBlocks) :
  constructUpdateEntriesFromDataEntries s dataEntries = Ok ue →
  updateEntriesData s dataEntries ue.
Proof.
  apply (foldRes_invariant_prefix (updateEntriesData s)).
  - intros pre a b1 b2. apply updateEntriesData_step.
  - split; [| split; [| split]]; simpl.
    + intros dk v Hv. by rewrite lookup_empty in Hv.
    + intros de Hde. by apply elem_of_nil in Hde.
    + intros dk e [v Hv]. by rewrite lookup_empty in Hv.
    + intros ek ed Hed. by rewrite lookup_empty in Hed.
Qed.

Lemma CommitPvtDataOfOldBlocks_Ok (s : Store)
    (blocksPvtData : list (N * list TxPvtData)) (writeOk : bool) :
  (CommitPvtDataOfOldBlocks s blocksPvtData writeOk).2 = None →
  ∃ ue, constructUpdateEntriesFromDataEntries s
          (constructDataEntriesFromBlocksPvtData blocksPvtData) = Ok ue ∧
        ∀ k, db (CommitPvtDataOfOldBlocks s blocksPvtData writeOk).1 !! k =
               match constructUpdateBatchFromUpdateEntries ue !! k with
               | Some o => o
               | None => db s !! k
               end.
Proof.
  destruct (CommitPvtDataOfOldBlocks_cases s blocksPvtData writeOk)
    as [[err' ->] | (ue & _ & _ & Hue & ->)]; [done |].
  intros _. exists ue. split; [done |]. intros k. apply applyBatch_lookup.
Qed.

(** X8. When [CommitPvtDataOfOldBlocks] returns nil, every supplied data
    entry whose bookkeeping is in the store (the eligible missing-data bitmap
    and, for an expiring collection, the expiry entry) is stored under its
    key, with the value of a supplied entry of that key; and a data key whose
    entry changed holds the value of a supplied entry of that key. *)
Theorem CommitPvtDataOfOldBlocks_stores_data (s : Store)
    (blocksPvtData : list (N * list TxPvtData)) (writeOk : bool) :
  (CommitPvtDataOfOldBlocks s blocksPvtData writeOk).2 = None →
  let s' := (CommitPvtDataOfOldBlocks s blocksPvtData writeOk).1 in
  let supplied := constructDataEntriesFromBlocksPvtData blocksPvtData in
  (∀ de, de ∈ supplied → hasBookkeeping s (dataEntryKey de) →
     ∃ de', de' ∈ supplied ∧ dataEntryKey de' = dataEntryKey de ∧
            db s' !! KData (dataEntryKey de) = Some (VData (dataEntryValue de'))) ∧
  (∀ dk, db s' !! KData dk ≠ db s !! KData dk →
     ∃ de, de ∈ supplied ∧ dataEntryKey de = dk ∧
           db s' !! KData dk = Some (VData (dataEntryValue de))).
Proof.
  intros (ue & Hue & Hdb)%CommitPvtDataOfOldBlocks_Ok s' supplied.
  destruct (constructUpdateEntries_data _ _ _ Hue) as (D1 & D2 & _).
  fold s' in Hdb. fold supplied in D1, D2. split.
  - intros de Hin Hbk. destruct (D2 de Hin Hbk) as [v Hv].
    destruct (D1 _ _ Hv) as (de' & Hin' & Hk & <-).
    exists de'. split; [done |]. split; [done |].
    by rewrite Hdb, constructUpdateBatch_lookup, Hv.
  - intros dk Hneq. rewrite Hdb, constructUpdateBatch_lookup in Hneq.
    destruct (oldDataEntries ue !! dk) as [v |] eqn:Hv; [| done].
    destruct (D1 _ _ Hv) as (de & Hin & Hk & <-).
    exists de. split; [done |]. split; [done |].
    by rewrite Hdb, constructUpdateBatch_lookup, Hv.
Qed.

Lemma CommitPvtDataOfOldBlocks_stores_data_witness :
  ∃ de', de' ∈ constructDataEntriesFromBlocksPvtData sampleOldBlocksPvtData ∧
         dataEntryKey de' = DataKey (NsCollBlk "ns1" "coll1" 0) 5 ∧
         db (CommitPvtDataOfOldBlocks sampleStore0 sampleOldBlocksPvtData true).1
           !! KData (DataKey (NsCollBlk "ns1" "coll1" 0) 5)
         = Some (VData (dataEntryValue de')).
Proof.
  assert (Hnil : (CommitPvtDataOfOldBlocks sampleStore0 sampleOldBlocksPvtData true).2
                 = None) by (vm_compute; reflexivity).
  destruct (CommitPvtDataOfOldBlocks_stores_data sampleStore0 sampleOldBlocksPvtData true
              Hnil) as [H _].
  apply (H sampleDataEntry).
  - left.
  - split; [vm_compute; eauto |].
    intros e He _. vm_compute in He. injection He as <-. vm_compute. eauto.
Defined.

(** X9. When [CommitPvtDataOfOldBlocks] returns nil, the expiry entry of
    every data entry it stores for an expiring collection lists the
    transaction as present, so that a later purge finds the new data entry;
    and an expiry entry keeps the missing pairs and the present transactions
    that it listed before the call. *)
Theorem CommitPvtDataOfOldBlocks_records_expiry (s : Store)
    (blocksPvtData : list (N * list TxPvtData)) (writeOk : bool) :
  (CommitPvtDataOfOldBlocks s blocksPvtData writeOk).2 = None →
  let s' := (CommitPvtDataOfOldBlocks s blocksPvtData writeOk).1 in
  (∀ de e, de ∈ constructDataEntriesFromBlocksPvtData blocksPvtData →
     hasBookkeeping s (dataEntryKey de) →
     let ncb := dataNsCollBlk (dataEntryKey de) in
     GetExpiringBlock (btlPolicy s) (ns ncb) (coll ncb) (blkNum ncb) = inr e →
     neverExpires e = false →
     ∃ ed', db s' !! KExpiry (ExpiryKey e (blkNum ncb)) = Some (VExpiry ed') ∧
            txNum (dataEntryKey de) ∈ presentTxs ed' (ns ncb) (coll ncb)) ∧
  (∀ ek ed0, db s !! KExpiry ek = Some (VExpiry ed0) →
     ∃ ed', db s' !! KExpiry ek = Some (VExpiry ed') ∧
            missingData ed' = missingData ed0 ∧
            ∀ n c tx, tx ∈ presentTxs ed0 n c → tx ∈ presentTxs ed' n c).
Proof.
  intros (ue & Hue & Hdb)%CommitPvtDataOfOldBlocks_Ok s'.
  destruct (constructUpdateEntries_data _ _ _ Hue) as (_ & D2 & D3 & D4).
  fold s' in Hdb. split.
  - intros de e Hin Hbk ncb Hpol Hne.
    destruct (D3 _ e (D2 de Hin Hbk) Hpol Hne) as (ed & Hed & Htx).
    exists ed. split; [| done]. subst ncb.
    rewrite Hdb, constructUpdateBatch_lookup. by rewrite Hed.
  - intros ek ed0 Hd0. rewrite Hdb, constructUpdateBatch_lookup.
    destruct (oldExpiryEntries ue !! ek) as [ed |] eqn:Hed; simpl.
    + destruct (D4 _ _ Hed) as (ed0' & Hd0' & Hm & Hsub).
      assert (ed0' = ed0) as -> by congruence. eauto.
    + eauto.
Qed.

Lemma CommitPvtDataOfOldBlocks_records_expiry_witness :
  ∃ ed', db (CommitPvtDataOfOldBlocks sampleStore0 sampleOldBlocksPvtData true).1
           !! KExpiry (ExpiryKey 2 0) = Some (VExpiry ed') ∧
         5 ∈ presentTxs ed' "ns1" "coll1".
Proof.
  assert (Hnil : (CommitPvtDataOfOldBlocks sampleStore0 sampleOldBlocksPvtData true).2
                 = None) by (vm_compute; reflexivity).
  destruct (CommitPvtDataOfOldBlocks_records_expiry sampleStore0 sampleOldBlocksPvtData true
              Hnil) as [H _].
  apply (H sampleDataEntry 2).
  - left.
  - split; [vm_compute; eauto |].
    intros e He _. vm_compute in He. injection He as <-. vm_compute. eauto.
  - reflexivity.
  - reflexivity.
Defined.

(** ** The purge sweep *)

Lemma foldl_Delete_elem {A : Type} (fk : A → Key) (l : list A) (b : UpdateBatch) (a : A) :
  a ∈ l → is_Some (foldl (λ b a, Delete (fk a) b) b l !! fk a).
Proof.
  revert b. induction l as [| a' l IH]; intros b Ha; [by apply elem_of_nil in Ha |].
  simpl. apply elem_of_cons in Ha as [-> | Ha]; [| by apply IH].
  apply (foldl_preserves (λ b, is_Some (b !! fk a'))); [intros; by apply is_Some_Delete |].
  unfold Delete. rewrite lookup_insert_eq. eauto.
Qed.

(** The batch of one round holds the keys that the expiry entry stands
    for. *)
Lemma purgeRound_batch_keys (batch : UpdateBatch) (e : expiryEntry) :
  let batch' :=
    foldl (λ b missingDataKey, Delete (KMissingData missingDataKey) b)
      (foldl (λ b dataKey, Delete (KData dataKey) b)
         (Delete (KExpiry (expiryEntryKey e)) batch)
         (deriveKeys e).1)
      (deriveKeys e).2 in
  (∀ dk, dk ∈ (deriveKeys e).1 → is_Some (batch' !! KData dk)) ∧
  (∀ mk, mk ∈ (deriveKeys e).2 → is_Some (batch' !! KMissingData mk)).
Proof.
  intros batch'. subst batch'. split.
  - intros dk Hdk.
    apply (foldl_preserves (λ b, is_Some (b !! KData dk))); [intros; by apply is_Some_Delete |].
    by apply (foldl_Delete_elem KData).
  - intros mk Hmk. by apply (foldl_Delete_elem KMissingData).
Qed.

(** The batch of the sweep is not reset between the rounds: when the write
    of the last round goes through, everything that the rounds named is
    deleted, whatever happened to the writes before. *)
Lemma purgeLoop_last_write (d : DB) (batch : UpdateBatch) (writeOk : nat → bool) (i : nat)
    (expiryEntries : list expiryEntry) :
  allDeletes batch →
  expiryEntries ≠ [] →
  writeOk (i + Nat.pred (length expiryEntries))%nat = true →
  let r := purgeLoop d batch writeOk i expiryEntries in
  (∀ k, is_Some (batch !! k) → r !! k = None) ∧
  (∀ e, e ∈ expiryEntries →
     r !! KExpiry (expiryEntryKey e) = None ∧
     (∀ dk, dk ∈ (deriveKeys e).1 → r !! KData dk = None) ∧
     (∀ mk, mk ∈ (deriveKeys e).2 → r !! KMissingData mk = None)).
Proof.
  revert d batch i.
  induction expiryEntries as [| e rest IH]; intros d batch i Hall Hne Hw; [done |].
  rewrite purgeLoop_cons.
  pose proof (purgeRound_batch batch e Hall) as (Hall' & Hmono & Hexp).
  pose proof (purgeRound_batch_keys batch e) as (Hdata & Hmis).
  set (batch' := foldl _ (foldl _ (Delete _ batch) _) _) in *.
  cbv zeta.
  assert (Hr : ∀ k, is_Some (batch' !! k) →
            purgeLoop (WriteBatch d batch' (writeOk i)).1 batch' writeOk (S i) rest !! k
            = None).
  { destruct rest as [| e' rest'].
    - cbn [length Nat.pred] in Hw. rewrite Nat.add_0_r in Hw.
      intros k [v Hv]. cbn [purgeLoop]. rewrite Hw. unfold WriteBatch. cbn [fst].
      rewrite applyBatch_lookup, Hv. by apply Hall' in Hv.
    - apply IH; [done | done |].
      cbn [length Nat.pred] in Hw |- *. by rewrite Nat.add_succ_comm. }
  split.
  - intros k Hk. by apply Hr, Hmono.
  - intros e0 [-> | He0]%elem_of_cons.
    + split; [by apply Hr |]. split.
      * intros dk Hdk. by apply Hr, Hdata.
      * intros mk Hmk. by apply Hr, Hmis.
    + destruct rest as [| e' rest']; [by apply elem_of_nil in He0 |].
      apply IH; [done | done | | done].
      cbn [length Nat.pred] in Hw |- *. by rewrite Nat.add_succ_comm.
Qed.

Lemma purgeLoop_other_keys (d : DB) (batch : UpdateBatch) (writeOk : nat → bool) (i : nat)
    (expiryEntries : list expiryEntry) (k : Key) :
  isEntryKey k = false → batch !! k = None →
  purgeLoop d batch writeOk i expiryEntries !! k = d !! k.
Proof.
  intros Hk. revert d batch i.
  induction expiryEntries as [| e rest IH]; intros d batch i Hb; [done |].
  rewrite purgeLoop_cons. cbv zeta.
  set (batch' := foldl _ (foldl _ (Delete _ batch) _) _).
  assert (Hb' : batch' !! k = None).
  { subst batch'.
    rewrite foldl_Delete_frame by (intros a _ <-; discriminate).
    rewrite foldl_Delete_frame by (intros a _ <-; discriminate).
    rewrite Delete_lookup_ne by (intros <-; discriminate). done. }
  rewrite IH by done.
  unfold WriteBatch. destruct (writeOk i); cbn [fst]; [| done].
  by rewrite applyBatch_lookup, Hb'.
Qed.

Lemma purgeLoop_failed_writes (d : DB) (batch : UpdateBatch) (writeOk : nat → bool)
    (i : nat) (expiryEntries : list expiryEntry) :
  (∀ j, writeOk j = false) → purgeLoop d batch writeOk i expiryEntries = d.
Proof.
  intros Hw. revert d batch i.
  induction expiryEntries as [| e rest IH]; intros d batch i; [done |].
  rewrite purgeLoop_cons. cbv zeta. rewrite IH. unfold WriteBatch. by rewrite Hw.
Qed.

(** X10. A purge sweep only deletes, and only entries of the three entry
    families: whatever the window and the verdicts of the storage layer,
    every entry of the store after the sweep is an entry of the store before
    with the same value, the bookkeeping keys are untouched, and so are the
    policy and the counters. *)
Theorem purgeExpiredData_only_deletes (s : Store) (minBlkNum maxBlkNum : N)
    (writeOk : nat → bool) :
  let s' := (purgeExpiredData s minBlkNum maxBlkNum writeOk).1 in
  (∀ k v, db s' !! k = Some v → db s !! k = Some v) ∧
  (∀ k, isEntryKey k = false → db s' !! k = db s !! k) ∧
  btlPolicy s' = btlPolicy s ∧ purgeInterval s' = purgeInterval s ∧
  isEmpty s' = isEmpty s ∧ lastCommittedBlock s' = lastCommittedBlock s ∧
  isLastUpdatedOldBlocksSet s' = isLastUpdatedOldBlocksSet s.
Proof.
  cbv zeta. split; [intros k v; apply purgeExpiredData_subseteq |].
  unfold purgeExpiredData.
  destruct (retrieveExpiryEntries _ _ _) as [[| e l] | err]; [done | | done].
  cbn [fst setDB db btlPolicy purgeInterval isEmpty lastCommittedBlock
       isLastUpdatedOldBlocksSet].
  split; [| done]. intros k Hk. apply purgeLoop_other_keys; [done |].
  unfold NewUpdateBatch. by rewrite lookup_empty.
Qed.

(** X11. When the expiry entries of the window can be read and the write of
    the last round of the sweep goes through, every expiry entry of the
    window is deleted together with the data entries and the missing-data
    entries that it stands for, whatever became of the writes of the rounds
    before: the batch accumulates over the rounds. *)
Theorem purgeExpiredData_deletes_designated (s : Store) (minBlkNum maxBlkNum : N)
    (writeOk : nat → bool) (expiryEntries : list expiryEntry) :
  retrieveExpiryEntries s minBlkNum maxBlkNum = Ok expiryEntries →
  writeOk (Nat.pred (length expiryEntries)) = true →
  let s' := (purgeExpiredData s minBlkNum maxBlkNum writeOk).1 in
  ∀ ek ed, db s !! KExpiry ek = Some (VExpiry ed) →
    minBlkNum ≤ expiringBlk ek ≤ maxBlkNum →
    let entry := {| expiryEntryKey := ek; expiryEntryValue := ed |} in
    db s' !! KExpiry ek = None ∧
    (∀ dk, dk ∈ (deriveKeys entry).1 → db s' !! KData dk = None) ∧
    (∀ mk, mk ∈ (deriveKeys entry).2 → db s' !! KMissingData mk = None).
Proof.
  intros Hret Hw s' ek ed Hdb Hwin entry.
  assert (Hin : entry ∈ expiryEntries).
  { assert (Hk : ek ∈ expiryEntryKey <$> expiryEntries).
    { apply (retrieveExpiryEntries_keys s minBlkNum maxBlkNum); eauto. }
    apply list_elem_of_fmap in Hk as (e & -> & He).
    pose proof (retrieveExpiryEntries_values _ _ _ _ e Hret He) as Hv.
    rewrite Hdb in Hv. injection Hv as ->. subst entry. by destruct e. }
  subst s'. unfold purgeExpiredData. rewrite Hret.
  destruct expiryEntries as [| e0 rest] eqn:El; [by apply elem_of_nil in Hin |].
  cbn [fst setDB db].
  assert (Hall : allDeletes NewUpdateBatch).
  { intros k v. unfold NewUpdateBatch. by rewrite lookup_empty. }
  destruct (purgeLoop_last_write (db s) NewUpdateBatch writeOk 0 (e0 :: rest) Hall)
    as [_ Hdel]; [done | done |].
  exact (Hdel entry Hin).
Qed.

Lemma purgeExpiredData_deletes_designated_witness :
  length sampleExpiryEntries = 2%nat ∧
  db (purgeExpiredData sampleStoreTwoBlocks 0 3 secondWriteOnly).1
    !! KData (DataKey (NsCollBlk "ns1" "coll1" 0) 3) = None.
Proof.
  split; [vm_compute; reflexivity |].
  assert (Hret : retrieveExpiryEntries sampleStoreTwoBlocks 0 3 = Ok sampleExpiryEntries)
    by (vm_compute; reflexivity).
  assert (Hw : secondWriteOnly (Nat.pred (length sampleExpiryEntries)) = true)
    by (vm_compute; reflexivity).
  assert (Hdb : db sampleStoreTwoBlocks !! KExpiry (ExpiryKey 2 0)
                = Some (VExpiry sampleExpiryData)) by (vm_compute; reflexivity).
  assert (Hwin : 0 ≤ expiringBlk (ExpiryKey 2 0) ≤ 3)
    by (vm_compute; split; discriminate).
  assert (Hdk : DataKey (NsCollBlk "ns1" "coll1" 0) 3
                  ∈ (deriveKeys {| expiryEntryKey := ExpiryKey 2 0;
                                   expiryEntryValue := sampleExpiryData |}).1)
    by (vm_compute; left).
  destruct (purgeExpiredData_deletes_designated sampleStoreTwoBlocks 0 3 secondWriteOnly
              sampleExpiryEntries Hret Hw (ExpiryKey 2 0) sampleExpiryData Hdb Hwin)
    as (_ & Hdata & _).
  exact (Hdata _ Hdk).
Defined.

(** X12. [purgeExpiredData] reports the failure to read the expiry entries of
    the window, in which case it changes nothing, and nothing else: the
    outcome of a write is dropped, so that a sweep all of whose writes fail
    returns nil with the store as it was. *)
Theorem purgeExpiredData_drops_write_errors (s : Store) (minBlkNum maxBlkNum : N)
    (writeOk : nat → bool) :
  let r := purgeExpiredData s minBlkNum maxBlkNum writeOk in
  r.2 = match retrieveExpiryEntries s minBlkNum maxBlkNum with
        | Err err => Some err
        | Ok _ => None
        end ∧
  (∀ err, r.2 = Some err → r.1 = s) ∧
  ((∀ i, writeOk i = false) → r.1 = s).
Proof.
  cbv zeta. unfold purgeExpiredData.
  destruct (retrieveExpiryEntries _ _ _) as [[| e l] | err]; [done | | done].
  split; [done |]. split; [done |].
  intros Hw. cbn [fst]. rewrite purgeLoop_failed_writes by done. by destruct s.
Qed.

(** ** Opening the store and the legacy markers *)

Lemma CommitPvtDataOfOldBlocks_other_keys (s : Store)
    (blocksPvtData : list (N * list TxPvtData)) (writeOk : bool) (k : Key) :
  isEntryKey k = false →
  db (CommitPvtDataOfOldBlocks s blocksPvtData writeOk).1 !! k = db s !! k.
Proof.
  intros Hk.
  destruct (CommitPvtDataOfOldBlocks_lookup s blocksPvtData writeOk k)
    as [H | (ue & _ & _ & H)]; [done |].
  rewrite H, constructUpdateBatch_lookup. by destruct k.
Qed.

Lemma CommitPvtDataOfOldBlocks_counters (s : Store)
    (blocksPvtData : list (N * list TxPvtData)) (writeOk : bool) :
  let s' := (CommitPvtDataOfOldBlocks s blocksPvtData writeOk).1 in
  isEmpty s' = isEmpty s ∧ lastCommittedBlock s' = lastCommittedBlock s ∧
  isLastUpdatedOldBlocksSet s' = isLastUpdatedOldBlocksSet s ∧
  purgeInterval s' = purgeInterval s.
Proof.
  destruct (CommitPvtDataOfOldBlocks_cases s blocksPvtData writeOk)
    as [[err' ->] | (ue & _ & _ & _ & ->)]; done.
Qed.

Lemma purgeExpiredData_other_keys (s : Store) (minBlkNum maxBlkNum : N)
    (writeOk : nat → bool) (k : Key) :
  isEntryKey k = false →
  db (purgeExpiredData s minBlkNum maxBlkNum writeOk).1 !! k = db s !! k.
Proof.
  intros Hk. unfold purgeExpiredData.
  destruct (retrieveExpiryEntries _ _ _) as [[| e l] | err]; [done | | done].
  cbn [fst setDB db]. apply purgeLoop_other_keys; [done |].
  unfold NewUpdateBatch. by rewrite lookup_empty.
Qed.

Lemma purgeExpiredData_counters (s : Store) (minBlkNum maxBlkNum : N)
    (writeOk : nat → bool) :
  let s' := (purgeExpiredData s minBlkNum maxBlkNum writeOk).1 in
  isEmpty s' = isEmpty s ∧ lastCommittedBlock s' = lastCommittedBlock s ∧
  isLastUpdatedOldBlocksSet s' = isLastUpdatedOldBlocksSet s ∧
  purgeInterval s' = purgeInterval s.
Proof.
  unfold purgeExpiredData.
  by destruct (retrieveExpiryEntries _ _ _) as [[| e l] | err].
Qed.

(** What the database of a running store holds under the bookkeeping keys:
    the height as the counters have it, and none of the markers of the older
    format. *)
Lemma reachable_persisted (btl : BTLPolicy) (s : Store) :
  reachable btl s →
  db s !! KPendingCommit = None ∧
  db s !! KLastUpdatedOldBlocks = None ∧
  isLastUpdatedOldBlocksSet s = false ∧
  db s !! KLastCommittedBlk
    = (if isEmpty s then None else Some (VBlockNum (lastCommittedBlock s))) ∧
  (isEmpty s = true → lastCommittedBlock s = 0).
Proof.
  induction 1 as [interval
                  | s blockNum pvtData missingPvtData writeOk Hs IH
                  | s blocksPvtData writeOk Hs IH
                  | s minBlkNum maxBlkNum writeOk Hs IH].
  - simpl. by rewrite !lookup_empty.
  - destruct IH as (I1 & I2 & I3 & I4 & I5).
    destruct (Commit_cases s blockNum pvtData missingPvtData writeOk)
      as [(_ & -> & _) |
          (_ & _ & _ & _ & _ & _ & _ & _ & Hempty & Hlast & Hflag & Hdb & Hframe)];
      [done |].
    rewrite !Hframe by done. rewrite Hempty, Hlast, Hflag, Hdb. done.
  - destruct IH as (I1 & I2 & I3 & I4 & I5).
    destruct (CommitPvtDataOfOldBlocks_counters s blocksPvtData writeOk)
      as (-> & -> & -> & _).
    by rewrite !CommitPvtDataOfOldBlocks_other_keys.
  - destruct IH as (I1 & I2 & I3 & I4 & I5).
    destruct (purgeExpiredData_counters s minBlkNum maxBlkNum writeOk)
      as (-> & -> & -> & _).
    by rewrite !purgeExpiredData_other_keys.
Qed.

(** A loop fails when the round of one of its elements fails whatever the
    state. *)
Lemma foldRes_Err_elem {A B : Type} (f : B → A → res B) (l : list A) (a : A) :
  a ∈ l → (∀ b, ∃ e, f b a = Err e) → ∀ b, ∃ e, foldRes f b l = Err e.
Proof.
  intros Ha Hf. induction l as [| a' l IH]; intros b; [by apply elem_of_nil in Ha |].
  simpl. apply elem_of_cons in Ha as [<- | Ha].
  - destruct (Hf b) as [e ->]. eauto.
  - destruct (f b a') as [b' | e]; simpl; [by apply IH | eauto].
Qed.

Section RecoveryProperties.

Variable corruptedBlockVal : Value → N.
Variable valueBytes : Value → list byte.
Variable DecodeVarint : list byte → string + (N * list byte).

Abbreviation getLastCommittedBlockNum' := (getLastCommittedBlockNum corruptedBlockVal).
Abbreviation getLastUpdatedOldBlocksList' :=
  (getLastUpdatedOldBlocksList valueBytes DecodeVarint).
Abbreviation initState' := (initState corruptedBlockVal valueBytes DecodeVarint).
Abbreviation OpenStore' := (OpenStore corruptedBlockVal valueBytes DecodeVarint).

(** [initState] when no batch is pending: the counters are those of the
    database, nothing is written. *)
Lemma initState_no_pending (s : Store) (writeOk : bool) :
  db s !! KPendingCommit = None →
  let s0 :=
    {| db := db s; btlPolicy := btlPolicy s; purgeInterval := purgeInterval s;
       isEmpty := (getLastCommittedBlockNum' s).1;
       lastCommittedBlock := (getLastCommittedBlockNum' s).2;
       isLastUpdatedOldBlocksSet := isLastUpdatedOldBlocksSet s |} in
  initState' s writeOk =
    match getLastUpdatedOldBlocksList' s with
    | Err err => (s0, Some err)
    | Ok blist =>
        (if decide (0 < length blist)%nat then
           {| db := db s; btlPolicy := btlPolicy s; purgeInterval := purgeInterval s;
              isEmpty := (getLastCommittedBlockNum' s).1;
              lastCommittedBlock := (getLastCommittedBlockNum' s).2;
              isLastUpdatedOldBlocksSet := true |}
         else s0, None)
    end.
Proof.
  intros Hp s0. unfold initState.
  destruct (getLastCommittedBlockNum' s) as [e l] eqn:E.
  unfold hasPendingCommit. cbn [db]. rewrite Hp.
  rewrite bool_decide_eq_false_2 by (by intros [v Hv]).
  change (getLastUpdatedOldBlocksList valueBytes DecodeVarint
            {| db := db s; btlPolicy := btlPolicy s; purgeInterval := purgeInterval s;
               isEmpty := e; lastCommittedBlock := l;
               isLastUpdatedOldBlocksSet := isLastUpdatedOldBlocksSet s |})
    with (getLastUpdatedOldBlocksList' s).
  subst s0. cbn [fst snd].
  destruct (getLastUpdatedOldBlocksList' s) as [blist | err]; [| done].
  by destruct (decide (0 < length blist)%nat).
Qed.

(** [initState] when a batch is pending and the write goes through. *)
Lemma initState_pending (s : Store) (v : Value) :
  db s !! KPendingCommit = Some v →
  let next :=
    if (getLastCommittedBlockNum' s).1 then 0
    else add64 (getLastCommittedBlockNum' s).2 1 in
  let d :=
    applyBatch (Delete KPendingCommit
                  (Put KLastCommittedBlk (encodeLastCommittedBlockVal next) NewUpdateBatch))
               (db s) in
  let s1 :=
    {| db := d; btlPolicy := btlPolicy s; purgeInterval := purgeInterval s;
       isEmpty := false; lastCommittedBlock := next;
       isLastUpdatedOldBlocksSet := isLastUpdatedOldBlocksSet s |} in
  initState' s true =
    match getLastUpdatedOldBlocksList' s1 with
    | Err err => (s1, Some err)
    | Ok blist =>
        (if decide (0 < length blist)%nat then
           {| db := d; btlPolicy := btlPolicy s; purgeInterval := purgeInterval s;
              isEmpty := false; lastCommittedBlock := next;
              isLastUpdatedOldBlocksSet := true |}
         else s1, None)
    end.
Proof.
  intros Hp next d s1. unfold initState. subst next.
  destruct (getLastCommittedBlockNum' s) as [e l] eqn:E.
  unfold hasPendingCommit. cbn [db]. rewrite Hp.
  rewrite bool_decide_eq_true_2 by eauto.
  unfold WriteBatch, nextBlockNum. cbn [isEmpty lastCommittedBlock db btlPolicy
    purgeInterval isLastUpdatedOldBlocksSet fst snd].
  subst s1 d. cbn [fst snd].
  destruct (getLastUpdatedOldBlocksList valueBytes DecodeVarint _) as [blist | err];
    [| done].
  by destruct (decide (0 < length blist)%nat).
Qed.

Lemma getLastUpdatedOldBlocksList_db (s s' : Store) :
  db s = db s' → getLastUpdatedOldBlocksList' s = getLastUpdatedOldBlocksList' s'.
Proof. unfold getLastUpdatedOldBlocksList. by intros ->. Qed.

Lemma pendingBatch_lookup (d : DB) (next : N) (k : Key) :
  applyBatch (Delete KPendingCommit
                (Put KLastCommittedBlk (encodeLastCommittedBlockVal next) NewUpdateBatch))
             d !! k
  = if decide (k = KPendingCommit) then None
    else if decide (k = KLastCommittedBlk) then Some (VBlockNum next)
    else d !! k.
Proof.
  rewrite applyBatch_lookup. unfold Delete, Put, NewUpdateBatch.
  destruct (decide (k = KPendingCommit)) as [-> | H1].
  { by rewrite lookup_insert_eq. }
  rewrite lookup_insert_ne by done.
  destruct (decide (k = KLastCommittedBlk)) as [-> | H2].
  { by rewrite lookup_insert_eq. }
  rewrite lookup_insert_ne by done. by rewrite lookup_empty.
Qed.

(** [initState] when a batch is pending and the write fails. *)
Lemma initState_pending_write_fails (s : Store) (v : Value) :
  db s !! KPendingCommit = Some v →
  (initState' s false).2 = Some (ErrCollaborator "error writing the batch") ∧
  db (initState' s false).1 = db s.
Proof.
  intros Hp. unfold initState. destruct (getLastCommittedBlockNum' s) as [e l].
  unfold hasPendingCommit. cbn [db]. rewrite Hp.
  by rewrite bool_decide_eq_true_2 by eauto.
Qed.

(** X13. Closing and reopening loses nothing: for every state that a store
    opened on a fresh database reaches through commits, commits of old
    blocks and purge sweeps, [OpenStore] on its database (with the same purge
    interval, followed by [Init] with the same policy) writes nothing and
    gives back that state, emptiness flag and last committed block
    included. *)
Theorem OpenStore_reopen (btl : BTLPolicy) (s : Store) (writeOk : bool) :
  reachable btl s →
  OpenStore' (db s) (purgeInterval s) btl writeOk = Ok s.
Proof.
  intros Hr. pose proof (reachable_btlPolicy _ _ Hr) as Hbtl.
  destruct (reachable_persisted _ _ Hr) as (Hp & Hl & Hflag & Hlast & Hzero).
  unfold OpenStore. rewrite initState_no_pending by done.
  unfold getLastUpdatedOldBlocksList, getLastCommittedBlockNum. cbn [db].
  rewrite Hl, Hlast. cbn [length]. destruct s as [d b i e l f]. simpl in *.
  subst b f. destruct e; simpl; [| done]. by rewrite Hzero.
Qed.

(** X14. A pending batch of the older format is completed when the store is
    opened: when [initState] finds the pending marker and returns nil, the
    marker is deleted, the store is not empty, its last committed block is
    the block after the persisted one (block 0 when none is persisted) and is
    persisted, and no other key has changed.  When the write fails,
    [initState] returns the error with the database as it was. *)
Theorem initState_completes_pending (s : Store) (v : Value) :
  db s !! KPendingCommit = Some v →
  let next :=
    match db s !! KLastCommittedBlk with
    | None => 0
    | Some last => add64 (decodeLastCommittedBlockVal corruptedBlockVal last) 1
    end in
  ((initState' s false).2 = Some (ErrCollaborator "error writing the batch") ∧
   db (initState' s false).1 = db s) ∧
  ((initState' s true).2 = None →
   let s' := (initState' s true).1 in
   db s' !! KPendingCommit = None ∧
   isEmpty s' = false ∧ lastCommittedBlock s' = next ∧
   db s' !! KLastCommittedBlk = Some (VBlockNum next) ∧
   ∀ k, k ≠ KPendingCommit → k ≠ KLastCommittedBlk → db s' !! k = db s !! k).
Proof.
  intros Hp next. split; [by apply (initState_pending_write_fails s v) |].
  pose proof (initState_pending s v Hp) as Hinit. cbv zeta in Hinit.
  assert (Hnext : (if (getLastCommittedBlockNum' s).1 then 0
                   else add64 (getLastCommittedBlockNum' s).2 1) = next).
  { subst next. unfold getLastCommittedBlockNum.
    by destruct (db s !! KLastCommittedBlk). }
  rewrite Hnext in Hinit. rewrite Hinit.
  destruct (getLastUpdatedOldBlocksList valueBytes DecodeVarint _) as [blist | err];
    [| done].
  intros _ s'.
  assert (Hs' : db s' = applyBatch
                  (Delete KPendingCommit
                     (Put KLastCommittedBlk (encodeLastCommittedBlockVal next)
                        NewUpdateBatch)) (db s) ∧
                isEmpty s' = false ∧ lastCommittedBlock s' = next)
    by (subst s'; by destruct (decide (0 < length blist)%nat)).
  destruct Hs' as (-> & -> & ->).
  rewrite !pendingBatch_lookup. repeat split; try done.
  intros k H1 H2. rewrite pendingBatch_lookup.
  by rewrite decide_False, decide_False.
Qed.

(** X15. [initState] is idempotent: run again on the store that a run which
    returned nil has left, it writes nothing, returns nil and leaves that
    store. *)
Theorem initState_idempotent (s : Store) (writeOk writeOk' : bool) :
  (initState' s writeOk).2 = None →
  initState' (initState' s writeOk).1 writeOk' = ((initState' s writeOk).1, None).
Proof.
  destruct (db s !! KPendingCommit) as [v |] eqn:Hp.
  - destruct writeOk.
    2: { destruct (initState_pending_write_fails s v Hp) as [He _].
         rewrite He. discriminate. }
    pose proof (initState_pending s v Hp) as Hinit. cbv zeta in Hinit.
    set (next := if (getLastCommittedBlockNum' s).1 then 0
                 else add64 (getLastCommittedBlockNum' s).2 1) in *.
    set (d := applyBatch _ (db s)) in *.
    rewrite Hinit.
    destruct (getLastUpdatedOldBlocksList valueBytes DecodeVarint _) as [blist | err]
      eqn:El; [| done].
    intros _. cbn [fst].
    assert (Hd1 : d !! KPendingCommit = None)
      by (subst d; by rewrite pendingBatch_lookup).
    assert (Hd2 : d !! KLastCommittedBlk = Some (VBlockNum next))
      by (subst d; by rewrite pendingBatch_lookup).
    destruct (decide (0 < length blist)%nat) as [Hlen | Hlen].
    + rewrite initState_no_pending by done. cbn [db btlPolicy purgeInterval
        isLastUpdatedOldBlocksSet].
      erewrite getLastUpdatedOldBlocksList_db; [rewrite El | done].
      unfold getLastCommittedBlockNum. cbn [db]. rewrite Hd2. cbn [fst snd].
      by rewrite decide_True.
    + rewrite initState_no_pending by done. cbn [db btlPolicy purgeInterval
        isLastUpdatedOldBlocksSet].
      rewrite El. unfold getLastCommittedBlockNum. cbn [db]. rewrite Hd2. cbn [fst snd].
      by rewrite decide_False.
  - rewrite (initState_no_pending s writeOk Hp).
    destruct (getLastUpdatedOldBlocksList' s) as [blist | err] eqn:El; [| done].
    intros _. cbn [fst].
    destruct (decide (0 < length blist)%nat) as [Hlen | Hlen].
    + rewrite initState_no_pending by done. cbn [db btlPolicy purgeInterval
        isLastUpdatedOldBlocksSet].
      erewrite getLastUpdatedOldBlocksList_db; [rewrite El | done].
      by rewrite decide_True.
    + rewrite initState_no_pending by done. cbn [db btlPolicy purgeInterval
        isLastUpdatedOldBlocksSet].
      erewrite getLastUpdatedOldBlocksList_db; [rewrite El | done].
      by rewrite decide_False.
Qed.

Lemma decodeBlocks_length (numBlks : N) (buf rest : list byte) (l : list N) :
  decodeBlocks DecodeVarint numBlks buf = Ok (l, rest) →
  length l = N.to_nat (Z.to_N (intOfUint64 numBlks)).
Proof.
  unfold decodeBlocks. generalize (Z.to_N (intOfUint64 numBlks)) as k. intros k.
  revert l rest.
  apply (N.iter_ind _ _ _
           (λ k st, ∀ l rest, st = Ok (l, rest) → length l = N.to_nat k)).
  - by intros l rest [= <- _].
  - intros n st IH l rest Hst.
    apply bind_Ok in Hst as ([l0 buf0] & -> & Hst).
    apply bind_Ok in Hst as ([x buf1] & _ & [= <- _]).
    rewrite length_app, (IH l0 buf0 eq_refl). simpl. lia.
Qed.

(** X16. The list of updated old blocks is read as the count that its bytes
    announce: an absent key is the empty list, a count that cannot be read
    is the error of the reader, and a list that is returned has as many
    blocks as announced, except that a count of 2^63 or more, negative once
    converted to [int], gives the empty list without any block being read. *)
Theorem getLastUpdatedOldBlocksList_count (s : Store) :
  (db s !! KLastUpdatedOldBlocks = None → getLastUpdatedOldBlocksList' s = Ok []) ∧
  (∀ v msg, db s !! KLastUpdatedOldBlocks = Some v →
     DecodeVarint (valueBytes v) = inl msg →
     getLastUpdatedOldBlocksList' s = Err (ErrCollaborator msg)) ∧
  (∀ v numBlks buf, db s !! KLastUpdatedOldBlocks = Some v →
     DecodeVarint (valueBytes v) = inr (numBlks, buf) →
     (2 ^ 63 ≤ numBlks < 2 ^ 64 → getLastUpdatedOldBlocksList' s = Ok []) ∧
     (numBlks < 2 ^ 63 →
      ∀ l, getLastUpdatedOldBlocksList' s = Ok l → length l = N.to_nat numBlks)).
Proof.
  unfold getLastUpdatedOldBlocksList. split; [by intros -> | split].
  - intros v msg -> Hd. by rewrite Hd.
  - intros v numBlks buf -> Hd. rewrite Hd. cbn [lift mbind res_bind fst snd]. split.
    + intros [Hlo Hhi]. unfold decodeBlocks, intOfUint64.
      assert ((numBlks <? 2 ^ 63) = false) as -> by (apply N.ltb_ge; lia).
      replace (Z.to_N (Z.of_N numBlks - 2 ^ 64)) with 0 by lia. done.
    + intros Hlt l Hl.
      destruct (decodeBlocks DecodeVarint numBlks buf) as [[l' rest] |] eqn:E; [| done].
      injection Hl as <-. rewrite (decodeBlocks_length _ _ _ _ E).
      unfold intOfUint64. apply N.ltb_lt in Hlt. rewrite Hlt. by rewrite N2Z.id.
Qed.

Lemma getLastUpdatedOldBlocksList_absent (s : Store) :
  db s !! KLastUpdatedOldBlocks = None → getLastUpdatedOldBlocksList' s = Ok [].
Proof. unfold getLastUpdatedOldBlocksList. by intros ->. Qed.

(** X17. A [ResetLastUpdatedOldBlocksList] whose write fails changes nothing.
    One whose write goes through deletes the list and nothing else, lowers
    the flag and keeps the counters; afterwards the list reads as empty, and
    opening the store again does not raise the flag. *)
Theorem ResetLastUpdatedOldBlocksList_clears (s : Store) :
  ResetLastUpdatedOldBlocksList s false
    = (s, Some (ErrCollaborator "error writing the batch")) ∧
  let r := ResetLastUpdatedOldBlocksList s true in
  r.2 = None ∧
  isLastUpdatedOldBlocksSet r.1 = false ∧
  db r.1 !! KLastUpdatedOldBlocks = None ∧
  (∀ k, k ≠ KLastUpdatedOldBlocks → db r.1 !! k = db s !! k) ∧
  isEmpty r.1 = isEmpty s ∧ lastCommittedBlock r.1 = lastCommittedBlock s ∧
  getLastUpdatedOldBlocksList' r.1 = Ok [] ∧
  (∀ writeOk, (initState' r.1 writeOk).2 = None →
     isLastUpdatedOldBlocksSet (initState' r.1 writeOk).1 = false).
Proof.
  split; [done |]. cbv zeta. unfold ResetLastUpdatedOldBlocksList, WriteBatch.
  cbn [fst snd db isLastUpdatedOldBlocksSet isEmpty lastCommittedBlock].
  assert (Hdel : applyBatch (Delete KLastUpdatedOldBlocks NewUpdateBatch) (db s)
                   !! KLastUpdatedOldBlocks = None).
  { rewrite applyBatch_lookup. unfold Delete. by rewrite lookup_insert_eq. }
  split; [done |]. split; [done |]. split; [done |]. split.
  { intros k Hk. rewrite applyBatch_lookup, Delete_lookup_ne by done.
    unfold NewUpdateBatch. by rewrite lookup_empty. }
  split; [done |]. split; [done |]. split.
  { unfold getLastUpdatedOldBlocksList. cbn [db]. by rewrite Hdel. }
  intros writeOk.
  set (s1 := {| db := applyBatch (Delete KLastUpdatedOldBlocks NewUpdateBatch) (db s);
                btlPolicy := btlPolicy s; purgeInterval := purgeInterval s;
                isEmpty := isEmpty s; lastCommittedBlock := lastCommittedBlock s;
                isLastUpdatedOldBlocksSet := false |}).
  destruct (db s1 !! KPendingCommit) as [v |] eqn:Hp.
  - destruct writeOk.
    2: { destruct (initState_pending_write_fails s1 v Hp) as [He _].
         rewrite He. discriminate. }
    rewrite (initState_pending s1 v Hp). cbv zeta.
    rewrite getLastUpdatedOldBlocksList_absent.
    2: { cbn [db]. rewrite pendingBatch_lookup.
         rewrite decide_False, decide_False by done. exact Hdel. }
    cbn [length]. rewrite decide_False by lia. intros _. reflexivity.
  - rewrite (initState_no_pending s1 writeOk Hp). cbv zeta.
    rewrite getLastUpdatedOldBlocksList_absent by exact Hdel.
    cbn [length]. rewrite decide_False by lia. intros _. reflexivity.
Qed.

Section LastUpdatedOldBlocksPvtData.

Variable v11Format : Key → string + bool.
Variable v11RetrievePvtdata :
  list (Key * Value) → PvtNsCollFilter → string + list TxPvtData.

Abbreviation GetLastUpdatedOldBlocksPvtData' :=
  (GetLastUpdatedOldBlocksPvtData valueBytes DecodeVarint v11Format v11RetrievePvtdata).
Abbreviation GetPvtDataByBlockNum' :=
  (GetPvtDataByBlockNum v11Format v11RetrievePvtdata).

(** X18. [GetLastUpdatedOldBlocksPvtData] answers nil while the flag is
    down, whatever the database holds.  With the flag up, a result maps
    exactly the blocks of the list, each to what [GetPvtDataByBlockNum]
    returns for it without a filter; and the call fails as soon as the read
    of one listed block does, a block above the last committed one for
    instance. *)
Theorem GetLastUpdatedOldBlocksPvtData_spec (s : Store) :
  (isLastUpdatedOldBlocksSet s = false → GetLastUpdatedOldBlocksPvtData' s = Ok None) ∧
  (isLastUpdatedOldBlocksSet s = true →
   (∀ r, GetLastUpdatedOldBlocksPvtData' s = Ok r →
      ∃ blksPvtData updatedBlksList,
        r = Some blksPvtData ∧
        getLastUpdatedOldBlocksList' s = Ok updatedBlksList ∧
        (∀ blkNum, is_Some (blksPvtData !! blkNum) ↔ blkNum ∈ updatedBlksList) ∧
        (∀ blkNum pvtData, blksPvtData !! blkNum = Some pvtData →
           GetPvtDataByBlockNum' s blkNum None = Ok pvtData)) ∧
   (∀ updatedBlksList blkNum e,
      getLastUpdatedOldBlocksList' s = Ok updatedBlksList →
      blkNum ∈ updatedBlksList →
      GetPvtDataByBlockNum' s blkNum None = Err e →
      ∃ e', GetLastUpdatedOldBlocksPvtData' s = Err e')).
Proof.
  unfold GetLastUpdatedOldBlocksPvtData. split; [by intros -> |].
  intros ->. cbn [negb]. split.
  - intros r Hr. apply bind_Ok in Hr as (l & Hl & Hr).
    destruct (foldRes _ ∅ l) as [m |] eqn:Hm; [| done]. injection Hr as <-.
    exists m, l. split; [done |]. split; [done |].
    revert Hm.
    apply (foldRes_invariant_prefix
             (λ pre (m : gmap N (list TxPvtData)),
                (∀ blkNum, is_Some (m !! blkNum) ↔ blkNum ∈ pre) ∧
                (∀ blkNum pvtData, m !! blkNum = Some pvtData →
                   GetPvtDataByBlockNum' s blkNum None = Ok pvtData))).
    + intros pre a m1 m2 [H1 H2] Hstep.
      apply bind_Ok in Hstep as (pvt & Hpvt & [= <-]). split.
      * intros blkNum. rewrite elem_of_app, list_elem_of_singleton, <- H1.
        destruct (decide (blkNum = a)) as [-> | Hne].
        -- rewrite lookup_insert_eq. split; eauto.
        -- rewrite lookup_insert_ne by done. split; [eauto | by intros [? | ?]].
      * intros blkNum pvtData.
        destruct (decide (blkNum = a)) as [-> | Hne].
        -- rewrite lookup_insert_eq. by intros [= <-].
        -- rewrite lookup_insert_ne by done. apply H2.
    + split.
      * intros blkNum. rewrite lookup_empty. split; [by intros [? ?] |].
        by intros ?%elem_of_nil.
      * intros blkNum pvtData. by rewrite lookup_empty.
  - intros l blkNum e -> Hin Hget. cbn [mbind res_bind].
    destruct (foldRes_Err_elem
                (λ (blksPvtData : gmap N (list TxPvtData)) blkNum,
                   GetPvtDataByBlockNum' s blkNum None ≫= λ pvtData,
                   Ok (<[blkNum := pvtData]> blksPvtData))
                l blkNum Hin) with (b := (∅ : gmap N (list TxPvtData))) as [e' He'].
    { intros b. rewrite Hget. eauto. }
    rewrite He'. eauto.
Qed.

End LastUpdatedOldBlocksPvtData.

End RecoveryProperties.

Lemma OpenStore_reopen_witness :
  OpenStore sampleCorruptedBlockVal sampleValueBytes sampleDecodeVarint
    (db sampleStore2) (purgeInterval sampleStore2) samplePolicy true = Ok sampleStore2.
Proof.
  apply (OpenStore_reopen sampleCorruptedBlockVal sampleValueBytes sampleDecodeVarint
           samplePolicy sampleStore2 true).
  unfold sampleStore2, sampleStore1, sampleStore0, storeAfter.
  do 3 apply (reachable_Commit samplePolicy). apply reachable_new.
Defined.

Lemma initState_completes_pending_witness :
  let s' := (initState sampleCorruptedBlockVal sampleValueBytes sampleDecodeVarint
               samplePendingStore true).1 in
  db s' !! KPendingCommit = None ∧ isEmpty s' = false ∧ lastCommittedBlock s' = 1.
Proof.
  assert (Hp : db samplePendingStore !! KPendingCommit = Some (VOpaque []))
    by (vm_compute; reflexivity).
  assert (Hnil : (initState sampleCorruptedBlockVal sampleValueBytes sampleDecodeVarint
                    samplePendingStore true).2 = None) by (vm_compute; reflexivity).
  destruct (initState_completes_pending sampleCorruptedBlockVal sampleValueBytes
              sampleDecodeVarint samplePendingStore (VOpaque []) Hp) as [_ H].
  destruct (H Hnil) as (H1 & H2 & H3 & _).
  split; [exact H1 |]. split; [exact H2 |]. rewrite H3. vm_compute. reflexivity.
Defined.

Lemma initState_idempotent_witness :
  initState sampleCorruptedBlockVal sampleValueBytes sampleDecodeVarint
    (initState sampleCorruptedBlockVal sampleValueBytes sampleDecodeVarint
       samplePendingStore true).1 false
  = ((initState sampleCorruptedBlockVal sampleValueBytes sampleDecodeVarint
        samplePendingStore true).1, None).
Proof.
  apply (initState_idempotent sampleCorruptedBlockVal sampleValueBytes sampleDecodeVarint
           samplePendingStore true false).
  vm_compute. reflexivity.
Defined.

(** ** Validation of reconciled private data, on any write-set *)

Section ValidationOfBlocks.

Import Reconciliation.

Variable TxRwSet : Type.
Variable GetPvtDataHash : TxRwSet → string → string → option (list byte).
Variable ComputeSHA256 : list byte → list byte.
Variable retrieveRwsetForTx : N → N → string + TxRwSet.

Abbreviation collValid' := (collValid TxRwSet GetPvtDataHash ComputeSHA256).
Abbreviation findValidAndInvalidTxPvtData' :=
  (findValidAndInvalidTxPvtData TxRwSet GetPvtDataHash ComputeSHA256).
Abbreviation findValidAndInvalidPvtdata' :=
  (findValidAndInvalidPvtdata TxRwSet GetPvtDataHash ComputeSHA256 retrieveRwsetForTx).
Abbreviation constructValidAndInvalidPvtData' :=
  (constructValidAndInvalidPvtData TxRwSet GetPvtDataHash ComputeSHA256
     retrieveRwsetForTx).
Abbreviation mismatchOf' := (mismatchOf TxRwSet GetPvtDataHash ComputeSHA256).
Abbreviation invalidOf' := (invalidOf TxRwSet GetPvtDataHash ComputeSHA256).

Lemma bind_nil_all {A B : Type} (f : A → list B) (l : list A) :
  (∀ a, a ∈ l → f a = []) → l ≫= f = [].
Proof.
  induction l as [| a l IH]; intros H; [done |]. rewrite bind_cons.
  rewrite (H a) by (by left). rewrite IH; [done |]. intros a' Ha'. apply H. by right.
Qed.

Lemma omap_nil_all {A B : Type} (f : A → option B) (l : list A) :
  (∀ a, a ∈ l → f a = None) → omap f l = [].
Proof.
  induction l as [| a l IH]; intros H; [done |]. simpl.
  rewrite (H a) by (by left). apply IH. intros a' Ha'. apply H. by right.
Qed.

(** X19. When every collection of the write-set of a transaction has a
    recorded hash that its data matches, [findValidAndInvalidTxPvtData]
    returns the transaction as it is with no mismatch; except that a
    transaction whose write-set lists no namespace at all is dropped. *)
Theorem findValidAndInvalidTxPvtData_all_valid (txPvtData : TxPvtData)
    (txRWSet : TxRwSet) (blk : N) :
  (∀ nsRwset c, nsRwset ∈ NsPvtRwset (WriteSet txPvtData) →
                c ∈ CollectionPvtRwset nsRwset →
                collValid' txRWSet (Namespace nsRwset) c = true) →
  findValidAndInvalidTxPvtData' txPvtData txRWSet blk =
    (if decide (NsPvtRwset (WriteSet txPvtData) = []) then None else Some txPvtData, []).
Proof.
  intros Hvalid. rewrite findValidAndInvalidTxPvtData_spec. cbv zeta.
  rewrite (bind_nil_all (λ n, omap (invalidOf' txRWSet (Namespace n)) (CollectionPvtRwset n))).
  2: { intros x Hx. apply omap_nil_all. intros c Hc. unfold invalidOf.
       by rewrite (Hvalid x c Hx Hc). }
  rewrite (bind_nil_all (λ n, omap (mismatchOf' txRWSet blk (SeqInBlock txPvtData)
                                      (Namespace n)) (CollectionPvtRwset n))).
  2: { intros x Hx. apply omap_nil_all. intros c Hc.
       pose proof (Hvalid x c Hx Hc) as Hv. unfold collValid in Hv. unfold mismatchOf.
       destruct (GetPvtDataHash txRWSet (Namespace x) (CollectionName c)); [| done].
       by rewrite Hv. }
  cbn [foldl]. destruct txPvtData as [seq [l]]. cbn [NsPvtRwset WriteSet SeqInBlock].
  destruct l; done.
Qed.

Lemma removeCollFromList_subseteq (cs : list CollectionPvtReadWriteSet) (collName : string)
    (c : CollectionPvtReadWriteSet) :
  c ∈ removeCollFromList cs collName → c ∈ cs.
Proof.
  induction cs as [| c0 cs IH]; simpl; [done |].
  destruct (decide (CollectionName c0 = collName)).
  - intros Hc. by right.
  - intros [-> | Hc]%elem_of_cons; [by left | right; by apply IH].
Qed.

Lemma removeCollFromNsList_subseteq (l : list NsPvtReadWriteSet) (n coll' n' : string)
    (c : CollectionPvtReadWriteSet) :
  inNsList (removeCollFromNsList l n coll') n' c → inNsList l n' c.
Proof.
  unfold inNsList. induction l as [| x l IH]; simpl; [done |].
  destruct (decide (Namespace x = n)) as [Hx | Hx].
  - destruct (decide (length _ = 0%nat)).
    + intros (y & Hy & Hn & Hc). exists y. split; [by right | done].
    + intros (y & [-> | Hy]%elem_of_cons & Hn & Hc).
      * exists x. split; [by left |]. split; [done |].
        simpl in Hc. by apply removeCollFromList_subseteq in Hc.
      * exists y. split; [by right | done].
  - intros (y & [-> | Hy]%elem_of_cons & Hn & Hc).
    + exists x. split; [by left | done].
    + destruct IH as (z & Hz & Hzn & Hzc); [by exists y |].
      exists z. split; [by right | done].
Qed.

(** X20. On any write-set, canonical or not: the mismatch records of
    [findValidAndInvalidTxPvtData] are exactly the records, with the block
    and transaction number of the call, of the collections whose data does
    not hash to the recorded hash; and the transaction that is returned
    carries the transaction number of the input and only collections of the
    input, under their namespace. *)
Theorem findValidAndInvalidTxPvtData_sound (txPvtData : TxPvtData) (txRWSet : TxRwSet)
    (blk : N) :
  let r := findValidAndInvalidTxPvtData' txPvtData txRWSet blk in
  (∀ m, m ∈ r.2 ↔
     ∃ n c h, inWriteSet (WriteSet txPvtData) n c ∧
              GetPvtDataHash txRWSet n (CollectionName c) = Some h ∧
              ComputeSHA256 (Rwset c) ≠ h ∧
              m = {| BlockNum := blk; TxNum := SeqInBlock txPvtData;
                     mismatchNamespace := n; mismatchCollection := CollectionName c;
                     ExpectedHash := h |}) ∧
  (∀ t, r.1 = Some t →
     SeqInBlock t = SeqInBlock txPvtData ∧
     NsPvtRwset (WriteSet t) ≠ [] ∧
     ∀ n c, inWriteSet (WriteSet t) n c → inWriteSet (WriteSet txPvtData) n c).
Proof.
  cbv zeta. rewrite findValidAndInvalidTxPvtData_spec. cbv zeta. cbn [fst snd].
  unfold inWriteSet. set (l := NsPvtRwset (WriteSet txPvtData)). split.
  - intros m. rewrite list_elem_of_bind. split.
    + intros (x & Hm & Hx). apply list_elem_of_omap in Hm as (c & Hc & Hm).
      unfold mismatchOf in Hm.
      destruct (GetPvtDataHash txRWSet (Namespace x) (CollectionName c)) as [h |] eqn:E;
        [| done].
      destruct (bool_decide (ComputeSHA256 (Rwset c) = h)) eqn:Eb; [done |].
      injection Hm as <-. apply bool_decide_eq_false in Eb.
      exists (Namespace x), c, h. split; [by exists x |]. done.
    + intros (n & c & h & (x & Hx & <- & Hc) & Hh & Hne & ->).
      exists x. split; [| done]. apply list_elem_of_omap. exists c. split; [done |].
      unfold mismatchOf. rewrite Hh. by rewrite bool_decide_eq_false_2.
  - intros t. set (dels := l ≫= _).
    destruct (decide (length (foldl _ l dels) = 0%nat)) as [Hlen | Hlen]; [done |].
    intros [= <-]. cbn [SeqInBlock WriteSet NsPvtRwset]. split; [done |]. split.
    + intros Heq. by rewrite Heq in Hlen.
    + clear Hlen. generalize dels as ds. clear dels. generalize l as l0. clear l.
      intros l0 ds. revert l0.
      induction ds as [| d ds IH]; intros l0 n c; [done |]. simpl.
      intros H%IH. by apply removeCollFromNsList_subseteq in H.
Qed.

(** The loop of [findValidAndInvalidPvtdata], from any accumulator. *)
Lemma findValidAndInvalidPvtdata_loop (blk : N) (txs : list TxPvtData)
    (acc r : list TxPvtData * list PvtdataHashMismatch) :
  foldRes (λ acc txPvtData,
             txRWSet ← lift (retrieveRwsetForTx blk (SeqInBlock txPvtData));
             let '(validData, invalidData) :=
               findValidAndInvalidTxPvtData' txPvtData txRWSet blk in
             Ok (acc.1 ++ option_list validData, acc.2 ++ invalidData))
          acc txs = Ok r →
  ∃ rs, Forall2 (λ t res, ∃ rw, retrieveRwsetForTx blk (SeqInBlock t) = inr rw ∧
                                res = findValidAndInvalidTxPvtData' t rw blk) txs rs ∧
        r = (acc.1 ++ (rs ≫= λ res, option_list res.1), acc.2 ++ (rs ≫= snd)).
Proof.
  revert acc. induction txs as [| t txs IH]; intros acc; simpl.
  - intros [= <-]. exists []. split; [constructor |]. rewrite !app_nil_r. by destruct acc.
  - intros (acc' & Hstep & Hrest)%bind_Ok.
    apply bind_Ok in Hstep as (rw & Hrw & Hstep).
    destruct (retrieveRwsetForTx blk (SeqInBlock t)) as [msg | rw'] eqn:Eret; [done |].
    injection Hrw as ->.
    destruct (findValidAndInvalidTxPvtData' t rw blk) as [validData invalidData] eqn:Etx.
    injection Hstep as <-.
    destruct (IH _ Hrest) as (rs & Hall & ->).
    exists ((validData, invalidData) :: rs). split.
    + constructor; [| done]. exists rw. by rewrite Etx.
    + cbn [fst snd]. rewrite !bind_cons. cbn [fst snd]. by rewrite <- !app_assoc.
Qed.

Lemma findValidAndInvalidTxPvtData_SeqInBlock (t t' : TxPvtData) (rw : TxRwSet) (blk : N) :
  (findValidAndInvalidTxPvtData' t rw blk).1 = Some t' → SeqInBlock t' = SeqInBlock t.
Proof.
  rewrite findValidAndInvalidTxPvtData_spec. cbv zeta. cbn [fst].
  destruct (decide _); [done |]. by intros [= <-].
Qed.

(** X21. [findValidAndInvalidPvtdata] works through the transactions of a
    block in their order.  If the committed read/write set of one of them
    cannot be retrieved the call fails, with no partial result.  Otherwise
    the valid list is made of the transactions that
    [findValidAndInvalidTxPvtData] does not drop, in the order of the input
    (the transaction numbers of the result are a sublist of those of the
    input), and the mismatch list is the concatenation of theirs. *)
Theorem findValidAndInvalidPvtdata_in_order (reconciledPvtdata : ReconciledPvtdata) :
  let blk := rpBlockNum reconciledPvtdata in
  (∀ t msg, t ∈ WriteSets reconciledPvtdata →
     retrieveRwsetForTx blk (SeqInBlock t) = inl msg →
     ∃ e, findValidAndInvalidPvtdata' reconciledPvtdata = Err e) ∧
  (∀ valid invalid,
     findValidAndInvalidPvtdata' reconciledPvtdata = Ok (valid, invalid) →
     (∃ rs, Forall2 (λ t res, ∃ rw, retrieveRwsetForTx blk (SeqInBlock t) = inr rw ∧
                                    res = findValidAndInvalidTxPvtData' t rw blk)
                    (WriteSets reconciledPvtdata) rs ∧
            valid = (rs ≫= λ res, option_list res.1) ∧ invalid = (rs ≫= snd)) ∧
     sublist (SeqInBlock <$> valid) (SeqInBlock <$> WriteSets reconciledPvtdata)).
Proof.
  intros blk. unfold findValidAndInvalidPvtdata. fold blk. split.
  - intros t msg Ht Hret.
    apply (foldRes_Err_elem _ _ t Ht). intros b. rewrite Hret. simpl. eauto.
  - intros valid invalid (rs & Hall & [= -> ->])%findValidAndInvalidPvtdata_loop.
    cbn [fst snd app]. split; [by exists rs |].
    clear -Hall. induction Hall as [| t res txs rs (rw & Hrw & ->) Hall IH]; [constructor |].
    rewrite bind_cons, !fmap_cons, fmap_app.
    destruct (findValidAndInvalidTxPvtData' t rw blk).1 as [t' |] eqn:E; simpl.
    + rewrite (findValidAndInvalidTxPvtData_SeqInBlock _ _ _ _ E). by constructor.
    + by constructor.
Qed.

(** X22. [constructValidAndInvalidPvtData] fails when the validation of one
    of the blocks fails.  When it returns, a block number is in the map of
    valid data only with a non-empty list, which is the valid list of a
    supplied entry of that block; every supplied entry was validated, its
    mismatches are all in the mismatch list, and, when some of its data is
    valid, its block is in the map; and every mismatch comes from a supplied
    entry. *)
Theorem constructValidAndInvalidPvtData_blocks (reconciledPvtdata : list ReconciledPvtdata) :
  (∀ pvtdata e, pvtdata ∈ reconciledPvtdata →
     findValidAndInvalidPvtdata' pvtdata = Err e →
     ∃ e', constructValidAndInvalidPvtData' reconciledPvtdata = Err e') ∧
  (∀ validPvtData invalidPvtData,
     constructValidAndInvalidPvtData' reconciledPvtdata
       = Ok (validPvtData, invalidPvtData) →
     (∀ blk validData, validPvtData !! blk = Some validData →
        validData ≠ [] ∧
        ∃ pvtdata invalidData,
          pvtdata ∈ reconciledPvtdata ∧ rpBlockNum pvtdata = blk ∧
          findValidAndInvalidPvtdata' pvtdata = Ok (validData, invalidData)) ∧
     (∀ pvtdata, pvtdata ∈ reconciledPvtdata →
        ∃ validData invalidData,
          findValidAndInvalidPvtdata' pvtdata = Ok (validData, invalidData) ∧
          (∀ m, m ∈ invalidData → m ∈ invalidPvtData) ∧
          (validData ≠ [] → is_Some (validPvtData !! rpBlockNum pvtdata))) ∧
     (∀ m, m ∈ invalidPvtData →
        ∃ pvtdata validData invalidData,
          pvtdata ∈ reconciledPvtdata ∧
          findValidAndInvalidPvtdata' pvtdata = Ok (validData, invalidData) ∧
          m ∈ invalidData)).
Proof.
  unfold constructValidAndInvalidPvtData. split.
  - intros pvtdata e Hin Herr.
    apply (foldRes_Err_elem _ _ pvtdata Hin). intros b. rewrite Herr. simpl. eauto.
  - intros validPvtData invalidPvtData.
    apply (foldRes_invariant_prefix
      (λ pre (acc : gmap N (list TxPvtData) * list PvtdataHashMismatch),
         (∀ blk validData, acc.1 !! blk = Some validData →
            validData ≠ [] ∧
            ∃ pvtdata invalidData,
              pvtdata ∈ pre ∧ rpBlockNum pvtdata = blk ∧
              findValidAndInvalidPvtdata' pvtdata = Ok (validData, invalidData)) ∧
         (∀ pvtdata, pvtdata ∈ pre →
            ∃ validData invalidData,
              findValidAndInvalidPvtdata' pvtdata = Ok (validData, invalidData) ∧
              (∀ m, m ∈ invalidData → m ∈ acc.2) ∧
              (validData ≠ [] → is_Some (acc.1 !! rpBlockNum pvtdata))) ∧
         (∀ m, m ∈ acc.2 →
            ∃ pvtdata validData invalidData,
              pvtdata ∈ pre ∧
              findValidAndInvalidPvtdata' pvtdata = Ok (validData, invalidData) ∧
              m ∈ invalidData))).
    + intros pre a [valid1 invalid1] acc2 (H1 & H2 & H3) Hstep.
      apply bind_Ok in Hstep as ([v inv] & Hfind & [= <-]). cbn [fst snd] in *.
      split; [| split].
      * intros blk validData.
        destruct (decide (0 < length v)%nat) as [Hlen | Hlen].
        -- destruct (decide (blk = rpBlockNum a)) as [-> | Hne].
           ++ rewrite lookup_insert_eq. intros [= <-]. split.
              ** intros ->. simpl in Hlen. lia.
              ** exists a, inv. split; [apply elem_of_app; right; by left | done].
           ++ rewrite lookup_insert_ne by done. intros Hb.
              destruct (H1 _ _ Hb) as (Hne' & p & i & Hp & Hblk & Hf).
              split; [done |]. exists p, i. split; [apply elem_of_app; by left | done].
        -- intros Hb. destruct (H1 _ _ Hb) as (Hne' & p & i & Hp & Hblk & Hf).
           split; [done |]. exists p, i. split; [apply elem_of_app; by left | done].
      * intros p [Hp | ->%list_elem_of_singleton]%elem_of_app.
        -- destruct (H2 p Hp) as (v' & i' & Hf & Hm & Hv).
           exists v', i'. split; [done |]. split.
           ++ intros m Hin. apply elem_of_app. left. by apply Hm.
           ++ intros Hne. specialize (Hv Hne).
              destruct (decide (0 < length v)%nat); [| done].
              destruct (decide (rpBlockNum p = rpBlockNum a)) as [-> | Hneq].
              ** rewrite lookup_insert_eq. eauto.
              ** by rewrite lookup_insert_ne.
        -- exists v, inv. split; [done |]. split.
           ++ intros m Hin. apply elem_of_app. by right.
           ++ intros Hne. destruct (decide (0 < length v)%nat) as [Hlen | Hlen].
              ** rewrite lookup_insert_eq. eauto.
              ** destruct v; [done | simpl in Hlen; lia].
      * intros m [Hm | Hm]%elem_of_app.
        -- destruct (H3 m Hm) as (p & v' & i' & Hp & Hf & Hin).
           exists p, v', i'. split; [apply elem_of_app; by left | done].
        -- exists a, v, inv. split; [apply elem_of_app; right; by left | done].
    + cbn [fst snd]. split; [| split].
      * intros blk validData. by rewrite lookup_empty.
      * by intros p ?%elem_of_nil.
      * by intros m ?%elem_of_nil.
Qed.

Lemma removeCollFromList_keeps (cs : list CollectionPvtReadWriteSet) (collName : string)
    (c : CollectionPvtReadWriteSet) :
  c ∈ cs → CollectionName c ≠ collName → c ∈ removeCollFromList cs collName.
Proof.
  induction cs as [| c0 cs IH]; simpl; [done |].
  intros [-> | Hc]%elem_of_cons Hne.
  - rewrite decide_False by done. by left.
  - destruct (decide (CollectionName c0 = collName)); [done |]. right. by apply IH.
Qed.

Lemma removeCollFromNsList_keeps (l : list NsPvtReadWriteSet) (n coll' n' : string)
    (c : CollectionPvtReadWriteSet) :
  inNsList l n' c → ¬ (n' = n ∧ CollectionName c = coll') →
  inNsList (removeCollFromNsList l n coll') n' c.
Proof.
  unfold inNsList. induction l as [| x l IH]; simpl.
  { by intros (y & ?%elem_of_nil & _). }
  intros (y & Hy & Hn & Hc) Hnot.
  destruct (decide (Namespace x = n)) as [Hx | Hx].
  - apply elem_of_cons in Hy as [-> | Hy].
    + assert (Hc' : c ∈ removeCollFromList (CollectionPvtRwset x) coll').
      { apply removeCollFromList_keeps; [done |]. intros Heq. apply Hnot. split; congruence. }
      destruct (decide (length _ = 0%nat)) as [Hlen | Hlen].
      * apply nil_length_inv in Hlen. simpl in Hlen. rewrite Hlen in Hc'.
        by apply elem_of_nil in Hc'.
      * exists (removeCollFromNsPvtWriteSet x coll'). split; [by left | done].
    + destruct (decide (length _ = 0%nat)).
      * by exists y.
      * exists y. split; [by right | done].
  - apply elem_of_cons in Hy as [-> | Hy].
    + exists x. split; [by left | done].
    + destruct IH as (z & Hz & Hzn & Hzc); [by exists y | done |].
      exists z. split; [by right | done].
Qed.

(** X27. On any write-set, canonical or not, [findValidAndInvalidTxPvtData]
    keeps a collection write-set whenever every collection write-set of the
    same namespace and collection name in the input is valid: the removal of
    the invalid collections goes by namespace and name, and touches no other
    pair. *)
Theorem findValidAndInvalidTxPvtData_keeps_valid (txPvtData : TxPvtData)
    (txRWSet : TxRwSet) (blk : N) (n : string) (c : CollectionPvtReadWriteSet) :
  inWriteSet (WriteSet txPvtData) n c →
  (∀ c', inWriteSet (WriteSet txPvtData) n c' → CollectionName c' = CollectionName c →
         collValid' txRWSet n c' = true) →
  ∃ t, (findValidAndInvalidTxPvtData' txPvtData txRWSet blk).1 = Some t ∧
       inWriteSet (WriteSet t) n c.
Proof.
  intros Hin Hvalid. rewrite findValidAndInvalidTxPvtData_spec. cbv zeta. cbn [fst].
  unfold inWriteSet in *. set (l := NsPvtRwset (WriteSet txPvtData)) in *.
  set (dels := l ≫= λ x, omap (invalidOf' txRWSet (Namespace x)) (CollectionPvtRwset x)).
  assert (Hdels : ∀ d, d ∈ dels → ¬ (n = nsOf d ∧ CollectionName c = collOf d)).
  { intros d (x & Hd & Hx)%list_elem_of_bind [Hn Hc].
    apply list_elem_of_omap in Hd as (c' & Hc' & Hd). unfold invalidOf in Hd.
    destruct (collValid' txRWSet (Namespace x) c') eqn:E; [done |].
    injection Hd as <-. simpl in Hn, Hc. subst n.
    rewrite Hvalid in E; [done | by exists x | done]. }
  assert (Hkept : inNsList (foldl (λ l d, removeCollFromNsList l (nsOf d) (collOf d)) l dels)
                    n c).
  { clear Hvalid. revert Hin Hdels. generalize dels as ds. clear dels.
    generalize l as l0. clear l. intros l0 ds. revert l0.
    induction ds as [| d ds IH]; intros l0 Hin Hds; [done |]. simpl.
    apply IH.
    - apply removeCollFromNsList_keeps; [done |]. apply Hds. by left.
    - intros d' Hd'. apply Hds. by right. }
  destruct (decide (length _ = 0%nat)) as [Hlen | Hlen].
  - apply nil_length_inv in Hlen. rewrite Hlen in Hkept.
    by destruct Hkept as (y & ?%elem_of_nil & _).
  - eexists. split; [done |]. exact Hkept.
Qed.

End ValidationOfBlocks.

Lemma findValidAndInvalidTxPvtData_all_valid_witness :
  Reconciliation.findValidAndInvalidTxPvtData unit Reconciliation.sampleGetPvtDataHash
    Reconciliation.sampleSHA256
    (Reconciliation.sampleTxPvtData
       [ {| Namespace := "ns1";
            CollectionPvtRwset := [ {| CollectionName := "collA"; Rwset := [x01] |};
                                    {| CollectionName := "collA"; Rwset := [x01] |} ] |} ])
    tt 9
  = (Some (Reconciliation.sampleTxPvtData
       [ {| Namespace := "ns1";
            CollectionPvtRwset := [ {| CollectionName := "collA"; Rwset := [x01] |};
                                    {| CollectionName := "collA"; Rwset := [x01] |} ] |} ]),
     []).
Proof.
  apply (findValidAndInvalidTxPvtData_all_valid unit Reconciliation.sampleGetPvtDataHash
           Reconciliation.sampleSHA256
           (Reconciliation.sampleTxPvtData
              [ {| Namespace := "ns1";
                   CollectionPvtRwset :=
                     [ {| CollectionName := "collA"; Rwset := [x01] |};
                       {| CollectionName := "collA"; Rwset := [x01] |} ] |} ]) tt 9).
  intros nsRwset c Hn Hc. simpl in Hn.
  apply list_elem_of_singleton in Hn as ->. simpl in Hc.
  apply elem_of_cons in Hc as [-> | Hc]; [reflexivity |].
  apply list_elem_of_singleton in Hc as ->. reflexivity.
Defined.

Lemma findValidAndInvalidTxPvtData_keeps_valid_witness :
  ∃ t, (Reconciliation.findValidAndInvalidTxPvtData unit
          Reconciliation.sampleGetPvtDataHash Reconciliation.sampleSHA256
          (Reconciliation.sampleTxPvtData Reconciliation.duplicateNsWriteSet) tt 9).1
       = Some t ∧
       Reconciliation.inWriteSet (WriteSet t) "ns1"
         {| CollectionName := "collA"; Rwset := [x01] |}.
Proof.
  apply (findValidAndInvalidTxPvtData_keeps_valid unit Reconciliation.sampleGetPvtDataHash
           Reconciliation.sampleSHA256
           (Reconciliation.sampleTxPvtData Reconciliation.duplicateNsWriteSet) tt 9).
  - eexists. split; [left |]. split; [reflexivity | left].
  - intros c' (y & Hy & _ & Hc) Hname. simpl in Hy.
    apply elem_of_cons in Hy as [-> | Hy].
    + simpl in Hc. apply list_elem_of_singleton in Hc as ->. reflexivity.
    + apply list_elem_of_singleton in Hy as ->. simpl in Hc.
      apply list_elem_of_singleton in Hc as ->. discriminate.
Defined.

(** ** The shape of what a read returns *)

Lemma StronglySorted_snoc {A : Type} (R : A → A → Prop) (l : list A) (x : A) :
  StronglySorted R l → Forall (λ y, R y x) l → StronglySorted R (l ++ [x]).
Proof.
  induction 1 as [| a l Hs IH Ha]; intros Hall; simpl.
  - repeat constructor.
  - apply Forall_cons in Hall as [Hax Hall]. constructor; [by apply IH |].
    apply Forall_app. split; [done | by constructor].
Qed.

Lemma StronglySorted_weaken {A : Type} (R R' : A → A → Prop) (P : A → Prop) (l : list A) :
  (∀ a b, P a → P b → R a b → R' a b) →
  Forall P l → StronglySorted R l → StronglySorted R' l.
Proof.
  intros HRR' HP. induction 1 as [| a l Hs IH Ha]; [constructor |].
  apply Forall_cons in HP as [Hpa HP]. constructor; [by apply IH |].
  rewrite Forall_forall in *. intros b Hb. apply HRR'; auto.
Qed.

(** The scan of the data entries of a block yields them by ascending
    transaction number. *)
Lemma data_scan_sorted (d : DB) (blockNum : N) :
  StronglySorted txLe
    (GetIterator (getDataKeysForRangeScanByBlockNum blockNum) dataKeyCompare d).
Proof.
  assert (Htotal : Total (keyLe dataKeyCompare)).
  { apply keyLe_total, cmpVia_antisym, pairCmp_antisym; [apply N_compare_antisym |].
    apply pairCmp_antisym; [apply N_compare_antisym |].
    apply pairCmp_antisym; apply String_compare_antisym. }
  assert (Htrans : Transitive dataOrder).
  { intros a b c. unfold dataOrder. lia. }
  apply (StronglySorted_weaken dataOrder txLe
           (λ kv, blkNum (dataNsCollBlk kv.1) = blockNum)).
  - intros a b Ha Hb. unfold dataOrder, txLe. lia.
  - apply Forall_forall. intros [key v] [_ Hb]%elem_of_data_scan. done.
  - apply Sorted_StronglySorted; [done |].
    rewrite <- (list_fmap_id (GetIterator _ _ _)).
    apply (Sorted_fmap id (keyLe dataKeyCompare) dataOrder).
    + intros a b. unfold keyLe, dataOrder, dataKeyCompare, cmpVia, pairCmp. simpl.
      destruct (N.compare_spec (blkNum (dataNsCollBlk a.1)) (blkNum (dataNsCollBlk b.1)))
        as [Heq | Hlt | Hgt]; simpl.
      * destruct (N.compare_spec (txNum a.1) (txNum b.1)) as [Heq' | Hlt' | Hgt']; simpl.
        -- intros _. right. lia.
        -- intros _. right. lia.
        -- intros H. by destruct H.
      * intros _. by left.
      * intros H. by destruct H.
    + unfold GetIterator. apply Sorted_merge_sort. done.
Qed.

Lemma assemblerAdd_shaped (a : txPvtdataAssembler) (n : string)
    (c : CollectionPvtReadWriteSet) :
  assemblerShaped a ∨ (asmCurrentNsWSet a = None ∧ asmNsWsets a = []) →
  assemblerShaped (assemblerAdd a n c) ∧ asmTxNum (assemblerAdd a n c) = asmTxNum a.
Proof.
  unfold assemblerShaped, assemblerAdd.
  intros [[(cur & Hcur & Hne) Hall] | [Hnone Hnil]].
  - rewrite Hcur. destruct (decide (Namespace cur = n)); simpl.
    + split; [| done]. split; [| done]. eexists. split; [done |]. simpl.
      by destruct (CollectionPvtRwset cur).
    + split; [| done]. split; [eexists; split; [done | done] |].
      apply Forall_app. split; [done |]. by constructor.
  - rewrite Hnone. simpl. split; [| done]. rewrite Hnil.
    split; [eexists; split; [done | done] | constructor].
Qed.

Lemma getTxPvtdata_shaped (a : txPvtdataAssembler) :
  assemblerShaped a →
  wellShapedTx (getTxPvtdata a) ∧ SeqInBlock (getTxPvtdata a) = asmTxNum a.
Proof.
  intros [(cur & Hcur & Hne) Hall]. unfold wellShapedTx, getTxPvtdata. simpl.
  rewrite Hcur. simpl. split; [| done]. split.
  - by destruct (asmNsWsets a).
  - apply Forall_app. split; [done |]. by constructor.
Qed.

Lemma pvtDataLoop_shape v11Format v11RetrievePvtdata (s : Store) (blockNum : N)
    (filter : PvtNsCollFilter) (last : N) (itr : list (dataKey * Value))
    (blockPvtdata : list TxPvtData) (current : option txPvtdataAssembler)
    (out : list TxPvtData) :
  (∀ kv, kv ∈ itr → v11Format (KData kv.1) = inr false) →
  StronglySorted txLe itr →
  readLoopInv blockPvtdata current itr →
  pvtDataLoop v11Format v11RetrievePvtdata s blockNum filter last itr blockPvtdata current
    = Ok out →
  Forall wellShapedTx out ∧ StronglySorted txAscending out.
Proof.
  revert blockPvtdata current.
  induction itr as [| [key v] rest IH]; intros blockPvtdata current Hv11 Hsorted Hinv.
  - simpl. destruct Hinv as (Hshape & Hasc & Hcur).
    destruct current as [a |]; intros [= <-]; [| done].
    destruct Hcur as (Ha & Hlt & _).
    destruct (getTxPvtdata_shaped a Ha) as [Hw Hseq]. split.
    + apply Forall_app. split; [done | by constructor].
    + apply StronglySorted_snoc; [done |].
      eapply Forall_impl; [exact Hlt |]. intros t Ht. unfold txAscending. by rewrite Hseq.
  - cbn [pvtDataLoop].
    assert (Hkey : v11Format (KData key) = inr false) by (apply (Hv11 (key, v)); left).
    rewrite Hkey. simpl.
    assert (Hrest : ∀ kv, kv ∈ rest → v11Format (KData kv.1) = inr false)
      by (intros kv Hkv; apply Hv11; by right).
    apply StronglySorted_inv in Hsorted as [Hsorted Hhead].
    assert (Hskip : readLoopInv blockPvtdata current rest).
    { destruct Hinv as (Hshape & Hasc & Hcur). split; [done |]. split; [done |].
      destruct current as [a |]; [| done].
      destruct Hcur as (Ha & Hlt & Hge). apply Forall_cons in Hge as [_ Hge]. done. }
    destruct (isExpired (dataNsCollBlk key) (btlPolicy s) last) as [[|] | err]; simpl;
      [by apply IH | | done].
    destruct (passesFilter key filter); simpl; [| by apply IH].
    destruct v as [c | | | |]; simpl; try done.
    destruct Hinv as (Hshape & Hasc & Hcur).
    destruct current as [a |].
    + destruct Hcur as (Ha & Hlt & Hge). apply Forall_cons in Hge as [Hge0 Hge].
      simpl in Hge0.
      destruct (txNum key =? asmTxNum a) eqn:Etx; cbn [negb].
      * apply N.eqb_eq in Etx. apply IH; [done | done |].
        destruct (assemblerAdd_shaped a (ns (dataNsCollBlk key)) c (or_introl Ha))
          as [Ha' Htx]. split; [done |]. split; [done |]. rewrite Htx. done.
      * apply N.eqb_neq in Etx. apply IH; [done | done |].
        destruct (getTxPvtdata_shaped a Ha) as [Hw Hseq].
        destruct (assemblerAdd_shaped (newTxPvtdataAssembler blockNum (txNum key))
                    (ns (dataNsCollBlk key)) c) as [Ha' Htx]; [by right |].
        split; [apply Forall_app; split; [done | by constructor] |]. split.
        -- apply StronglySorted_snoc; [done |].
           eapply Forall_impl; [exact Hlt |]. intros t Ht. unfold txAscending.
           by rewrite Hseq.
        -- split; [done |]. rewrite Htx. cbn [newTxPvtdataAssembler asmTxNum]. split.
           ++ apply Forall_app. split.
              ** eapply Forall_impl; [exact Hlt |]. intros t Ht. simpl in Ht. lia.
              ** constructor; [| constructor]. rewrite Hseq. lia.
           ++ eapply Forall_impl; [exact Hhead |]. intros kv Hkv. exact Hkv.
    + subst blockPvtdata. cbn [newTxPvtdataAssembler asmTxNum]. rewrite N.eqb_refl.
      cbn [negb]. apply IH; [done | done |].
      destruct (assemblerAdd_shaped (newTxPvtdataAssembler blockNum (txNum key))
                  (ns (dataNsCollBlk key)) c) as [Ha' Htx]; [by right |].
      split; [constructor |]. split; [constructor |].
      split; [done |]. rewrite Htx. cbn [newTxPvtdataAssembler asmTxNum].
      split; [constructor |].
      eapply Forall_impl; [exact Hhead |]. intros kv Hkv. exact Hkv.
Qed.

(** X23. What [GetPvtDataByBlockNum] returns (no entry of the block being in
    the v1.1 format) lists every transaction once, by strictly ascending
    transaction number, each with at least one namespace and every namespace
    with at least one collection; and a block without data entries reads as
    the empty list. *)
Theorem GetPvtDataByBlockNum_shape (v11Format : Key → string + bool)
    (v11RetrievePvtdata : list (Key * Value) → PvtNsCollFilter → string + list TxPvtData)
    (s : Store) (blockNum : N) (collFilter : PvtNsCollFilter) :
  (∀ key, is_Some (db s !! KData key) → blkNum (dataNsCollBlk key) = blockNum →
          v11Format (KData key) = inr false) →
  (∀ out, GetPvtDataByBlockNum v11Format v11RetrievePvtdata s blockNum collFilter = Ok out →
     Forall wellShapedTx out ∧ StronglySorted txAscending out ∧
     NoDup (SeqInBlock <$> out)) ∧
  (isEmpty s = false → blockNum ≤ lastCommittedBlock s →
   (∀ key, is_Some (db s !! KData key) → blkNum (dataNsCollBlk key) ≠ blockNum) →
   GetPvtDataByBlockNum v11Format v11RetrievePvtdata s blockNum collFilter = Ok []).
Proof.
  intros Hv11. split.
  - intros out (_ & _ & Hloop)%GetPvtDataByBlockNum_Ok.
    assert (Hscan : ∀ kv, kv ∈ GetIterator (getDataKeysForRangeScanByBlockNum blockNum)
                                 dataKeyCompare (db s) →
                          v11Format (KData kv.1) = inr false).
    { intros [key v] [Hd Hb]%elem_of_data_scan. apply Hv11; eauto. }
    assert (Hinv : readLoopInv [] None
                     (GetIterator (getDataKeysForRangeScanByBlockNum blockNum)
                        dataKeyCompare (db s))).
    { split; [constructor |]. split; [constructor | done]. }
    destruct (pvtDataLoop_shape _ _ _ _ _ _ _ _ _ _ Hscan
                (data_scan_sorted (db s) blockNum) Hinv Hloop) as [Hshape Hasc].
    split; [done |]. split; [done |].
    clear -Hasc. induction Hasc as [| t l Hs IH Ht]; [constructor |].
    simpl. apply NoDup_cons. split; [| done].
    intros (t' & Heq & Hin)%list_elem_of_fmap.
    rewrite Forall_forall in Ht. specialize (Ht t' Hin). unfold txAscending in Ht. lia.
  - intros Hempty Hle Hnone. unfold GetPvtDataByBlockNum. rewrite Hempty.
    apply N.ltb_ge in Hle. rewrite Hle.
    rewrite GetIterator_nil; [done |].
    intros key v Hd. destruct key as [dk | | | | | |]; try done. simpl.
    destruct (blkNum (dataNsCollBlk dk) =? blockNum) eqn:E; [| done].
    apply N.eqb_eq in E. exfalso. by apply (Hnone dk); eauto.
Qed.

Lemma GetPvtDataByBlockNum_shape_witness :
  ∃ out, GetPvtDataByBlockNum noV11Format noV11RetrievePvtdata sampleStore0 0 None = Ok out ∧
         Forall wellShapedTx out ∧ StronglySorted txAscending out ∧
         NoDup (SeqInBlock <$> out).
Proof.
  destruct (GetPvtDataByBlockNum_shape noV11Format noV11RetrievePvtdata sampleStore0 0 None)
    as [H _].
  - intros key _ _. reflexivity.
  - eexists. split; [vm_compute; reflexivity |]. apply H. vm_compute. reflexivity.
Defined.

(** ** Reading back what was committed *)

Lemma foldl_Put_frame {A : Type} (fk : A → Key) (fv : A → Value) (l : list A)
    (b : UpdateBatch) (k : Key) :
  (∀ a, a ∈ l → fk a ≠ k) → foldl (λ b a, Put (fk a) (fv a) b) b l !! k = b !! k.
Proof.
  revert b. induction l as [| a l IH]; intros b Hl; simpl; [done |].
  rewrite IH by (intros a' Ha'; apply Hl; by right).
  apply Put_lookup_ne. apply Hl. by left.
Qed.

Lemma foldl_Put_lookup_NoDup {A : Type} (fk : A → Key) (fv : A → Value) (l : list A)
    (b : UpdateBatch) (a : A) :
  NoDup (fk <$> l) → a ∈ l →
  foldl (λ b a, Put (fk a) (fv a) b) b l !! fk a = Some (Some (fv a)).
Proof.
  revert b. induction l as [| a0 l IH]; intros b Hnd Ha; [by apply elem_of_nil in Ha |].
  simpl. rewrite fmap_cons in Hnd. apply NoDup_cons in Hnd as [Hnot Hnd].
  apply elem_of_cons in Ha as [-> | Ha]; [| by apply IH].
  rewrite foldl_Put_frame.
  - unfold Put. by rewrite lookup_insert_eq.
  - intros a' Ha' Heq. apply Hnot. rewrite <- Heq. by apply list_elem_of_fmap_2.
Qed.

Lemma elem_of_prepareDataEntries (blockNum : N) (pvtData : list TxPvtData)
    (de : dataEntry) :
  de ∈ prepareDataEntries blockNum pvtData ↔
  ∃ t nsRwset c, t ∈ pvtData ∧ nsRwset ∈ NsPvtRwset (WriteSet t) ∧
                 c ∈ CollectionPvtRwset nsRwset ∧
                 de = {| dataEntryKey :=
                           DataKey (NsCollBlk (Namespace nsRwset) (CollectionName c) blockNum)
                                   (SeqInBlock t);
                         dataEntryValue := c |}.
Proof.
  unfold prepareDataEntries. split.
  - intros (t & Hde & Ht)%list_elem_of_bind.
    apply list_elem_of_bind in Hde as (nw & Hde & Hnw).
    apply list_elem_of_bind in Hde as (cw & Hde & Hcw).
    apply list_elem_of_singleton in Hde. eauto 10.
  - intros (t & nw & cw & Ht & Hnw & Hcw & ->).
    apply list_elem_of_bind. exists t. split; [| done].
    apply list_elem_of_bind. exists nw. split; [| done].
    apply list_elem_of_bind. exists cw. split; [| done].
    by apply list_elem_of_singleton.
Qed.

(** A [Commit] that does not fail stores every data entry it was given;
    where no (transaction, namespace, collection) is given twice, under its
    key. *)
Lemma Commit_data_lookup (s : Store) (blockNum : N) (pvtData : list TxPvtData)
    (missingPvtData : TxMissingPvtDataMap) (writeOk : bool) (de : dataEntry) :
  isError (Commit s blockNum pvtData missingPvtData writeOk).1.2 = false →
  NoDup (dataEntryKey <$> prepareDataEntries blockNum pvtData) →
  de ∈ prepareDataEntries blockNum pvtData →
  db (Commit s blockNum pvtData missingPvtData writeOk).1.1 !! KData (dataEntryKey de)
    = Some (VData (dataEntryValue de)).
Proof.
  unfold Commit.
  destruct (nextBlockNum s =? blockNum) eqn:E; simpl; [| discriminate].
  destruct (prepareStoreEntries _ _ _ _) as [se | e] eqn:Ese; simpl; [| discriminate].
  destruct writeOk; simpl; [| discriminate].
  unfold prepareStoreEntries in Ese.
  apply bind_Ok in Ese as (entries & _ & [= <-]). cbn [dataEntries expiryEntries
    missingDataEntries].
  intros _ Hnd Hde.
  assert (Hdb : ∀ (r : option (option (N * N))) s1,
    db (match r with
        | None => (s1, Panicked "integer divide by zero", None)
        | Some purge => (s1, Returned None, purge)
        end).1.1 = db s1) by (by intros [p |] s1).
  rewrite Hdb. cbn [db]. rewrite applyBatch_lookup.
  rewrite Put_lookup_ne by done.
  rewrite foldl_lookup_frame by (intros; by apply Put_lookup_ne).
  rewrite foldl_lookup_frame by (intros; by apply Put_lookup_ne).
  rewrite (foldl_Put_lookup_NoDup (λ d, KData (dataEntryKey d))
             (λ d, encodeDataValue (dataEntryValue d))); [done | | done].
  rewrite (list_fmap_compose dataEntryKey KData).
  apply NoDup_fmap_2; [| done]. by intros ?? [=].
Qed.

(** X24. What a [Commit] stores is read back.  After a [Commit] of block
    [blockNum] that did not fail, in which no (transaction, namespace,
    collection) was supplied twice, every supplied collection write-set that
    is not expired at that height is in the result of a
    [GetPvtDataByBlockNum] of the block without a filter, under its
    transaction number and namespace. *)
Theorem Commit_then_GetPvtDataByBlockNum (v11Format : Key → string + bool)
    (v11RetrievePvtdata : list (Key * Value) → PvtNsCollFilter → string + list TxPvtData)
    (s : Store) (blockNum : N) (pvtData : list TxPvtData)
    (missingPvtData : TxMissingPvtDataMap) (writeOk : bool) :
  isError (Commit s blockNum pvtData missingPvtData writeOk).1.2 = false →
  NoDup (dataEntryKey <$> prepareDataEntries blockNum pvtData) →
  let s' := (Commit s blockNum pvtData missingPvtData writeOk).1.1 in
  (∀ key, is_Some (db s' !! KData key) → blkNum (dataNsCollBlk key) = blockNum →
          v11Format (KData key) = inr false) →
  ∀ out, GetPvtDataByBlockNum v11Format v11RetrievePvtdata s' blockNum None = Ok out →
    ∀ t nsRwset c,
      t ∈ pvtData → nsRwset ∈ NsPvtRwset (WriteSet t) → c ∈ CollectionPvtRwset nsRwset →
      isExpired (NsCollBlk (Namespace nsRwset) (CollectionName c) blockNum)
        (btlPolicy s) blockNum = Ok false →
      (SeqInBlock t, Namespace nsRwset, c) ∈ flattenPvtData out.
Proof.
  intros Hok Hnd s' Hv11 out Hout t nsRwset c Ht Hn Hc Hexp.
  set (de := {| dataEntryKey :=
                  DataKey (NsCollBlk (Namespace nsRwset) (CollectionName c) blockNum)
                          (SeqInBlock t);
                dataEntryValue := c |}).
  assert (Hde : de ∈ prepareDataEntries blockNum pvtData).
  { apply elem_of_prepareDataEntries. exists t, nsRwset, c. done. }
  pose proof (Commit_data_lookup s blockNum pvtData missingPvtData writeOk de Hok Hnd Hde)
    as Hdb. fold s' in Hdb.
  destruct (Commit_cases s blockNum pvtData missingPvtData writeOk)
    as [(He & _) | (_ & _ & _ & _ & _ & _ & Hbtl & _ & _ & Hlast & _)];
    [congruence |].
  fold s' in Hbtl, Hlast.
  rewrite (GetPvtDataByBlockNum_flatten _ _ _ _ _ _ Hv11 Hout).
  apply list_elem_of_omap. exists (dataEntryKey de, VData c). split.
  - by apply elem_of_data_scan.
  - unfold readable. cbn [fst snd dataEntryKey de dataNsCollBlk txNum ns passesFilter].
    by rewrite Hbtl, Hlast, Hexp.
Qed.

Lemma Commit_then_GetPvtDataByBlockNum_witness :
  (3, "ns1", sampleColl "coll1") ∈ flattenPvtData sampleRead.
Proof.
  assert (Hok : isError (Commit sampleStore 0 samplePvtData sampleMissing true).1.2 = false)
    by (vm_compute; reflexivity).
  assert (Hnd : NoDup (dataEntryKey <$> prepareDataEntries 0 samplePvtData)).
  { assert (Hl : dataEntryKey <$> prepareDataEntries 0 samplePvtData
                 = [DataKey (NsCollBlk "ns1" "coll1" 0) 3;
                    DataKey (NsCollBlk "ns1" "coll2" 0) 3]) by (vm_compute; reflexivity).
    rewrite Hl. apply NoDup_cons. split.
    - intros [=]%list_elem_of_singleton.
    - apply NoDup_singleton. }
  assert (Hexp : isExpired (NsCollBlk (Namespace sampleNsRwset)
                              (CollectionName (sampleColl "coll1")) 0)
                   (btlPolicy sampleStore) 0 = Ok false)
    by (vm_compute; reflexivity).
  assert (Hout : GetPvtDataByBlockNum noV11Format noV11RetrievePvtdata
                   (Commit sampleStore 0 samplePvtData sampleMissing true).1.1 0 None
                 = Ok sampleRead) by (vm_compute; reflexivity).
  assert (Ht : sampleTx ∈ samplePvtData) by left.
  assert (Hn : sampleNsRwset ∈ NsPvtRwset (WriteSet sampleTx)) by left.
  assert (Hc : sampleColl "coll1" ∈ CollectionPvtRwset sampleNsRwset) by left.
  exact (Commit_then_GetPvtDataByBlockNum noV11Format noV11RetrievePvtdata sampleStore 0
           samplePvtData sampleMissing true Hok Hnd (λ _ _ _, eq_refl) sampleRead Hout
           sampleTx sampleNsRwset (sampleColl "coll1") Ht Hn Hc Hexp).
Defined.

(** ** Reconciliation and purge, seen from the read paths *)

(** X25. Data that has been reconciled is no longer reported missing: after
    a [CommitPvtDataOfOldBlocks] that returned nil, no result of
    [GetMissingPvtDataInfoForMostRecentBlocks] lists the transaction of a
    supplied data entry whose bookkeeping was in the store, for the namespace
    and collection of the entry. *)
Theorem CommitPvtDataOfOldBlocks_then_not_missing (s : Store)
    (blocksPvtData : list (N * list TxPvtData)) (writeOk : bool) :
  (CommitPvtDataOfOldBlocks s blocksPvtData writeOk).2 = None →
  let s' := (CommitPvtDataOfOldBlocks s blocksPvtData writeOk).1 in
  ∀ de, de ∈ constructDataEntriesFromBlocksPvtData blocksPvtData →
    hasBookkeeping s (dataEntryKey de) →
    ∀ maxBlock info, GetMissingPvtDataInfoForMostRecentBlocks s' maxBlock = Ok info →
      let ncb := dataNsCollBlk (dataEntryKey de) in
      ¬ inMissingInfo info (blkNum ncb) (txNum (dataEntryKey de)) (ns ncb) (coll ncb).
Proof.
  intros (ue & Hue & Hdb)%CommitPvtDataOfOldBlocks_Ok s' de Hde Hbk maxBlock info Hinfo ncb
    Hin.
  fold s' in Hdb.
  destruct (constructUpdateEntries_data _ _ _ Hue) as (_ & D2 & _).
  destruct (constructUpdateEntries_inv _ _ _ Hue) as (I1 & I2 & _).
  pose proof (D2 de Hde Hbk) as Hmerged.
  destruct (I1 _ Hmerged) as [bm Hbm]. fold ncb in Hbm.
  destruct (I2 _ _ Hbm) as (bm0 & _ & Hbits).
  assert (Hclear : bitsetTest bm (txNum (dataEntryKey de)) = false).
  { rewrite Hbits. subst ncb. rewrite dataKey_eta.
    rewrite (bool_decide_eq_true_2 _ Hmerged). by rewrite andb_false_r. }
  unfold GetMissingPvtDataInfoForMostRecentBlocks in Hinfo.
  destruct (maxBlock <? 1)%Z.
  { injection Hinfo as <-. destruct Hin as (bi & l & Hbi & _).
    by rewrite lookup_empty in Hbi. }
  destruct (missingInfoLoop_sound _ _ _ _ _ _ _ _ Hinfo) as (_ & _ & Hsound).
  apply Hsound in Hin as [(bi & l & Hbi & _) | (mk & bitmap & Hscan & Hk & Hbit & _)].
  { by rewrite lookup_empty in Hbi. }
  apply elem_of_eligible_scan in Hscan as (Hd & He & _).
  destruct mk as [k e]. simpl in Hk, He. subst e.
  assert (k = ncb) as -> by (subst k; by destruct ncb).
  rewrite Hdb, constructUpdateBatch_lookup, Hbm in Hd. simpl in Hd.
  destruct (bitsetNone bm); [done |]. injection Hd as ->. congruence.
Qed.

Lemma CommitPvtDataOfOldBlocks_then_not_missing_witness :
  ¬ inMissingInfo sampleInfoAfterReconciliation 0 5 "ns1" "coll1".
Proof.
  assert (Hnil : (CommitPvtDataOfOldBlocks sampleStore0 sampleOldBlocksPvtData true).2
                 = None) by (vm_compute; reflexivity).
  assert (Hde : sampleDataEntry
                  ∈ constructDataEntriesFromBlocksPvtData sampleOldBlocksPvtData) by left.
  assert (Hbk : hasBookkeeping sampleStore0 (dataEntryKey sampleDataEntry)).
  { split; [vm_compute; eauto |].
    intros e He _. vm_compute in He. injection He as <-. vm_compute. eauto. }
  assert (Hinfo : GetMissingPvtDataInfoForMostRecentBlocks
                    (CommitPvtDataOfOldBlocks sampleStore0 sampleOldBlocksPvtData true).1 1
                  = Ok sampleInfoAfterReconciliation) by (vm_compute; reflexivity).
  exact (CommitPvtDataOfOldBlocks_then_not_missing sampleStore0 sampleOldBlocksPvtData true
           Hnil sampleDataEntry Hde Hbk 1%Z sampleInfoAfterReconciliation Hinfo).
Defined.

(** In a running store an expiry entry lists a pair only under the expiry
    height that the policy gives it for the committing block. *)
Lemma reachable_expiry_policy (btl : BTLPolicy) (s : Store) :
  reachable btl s →
  ∀ ek n c, dbMentions (db s) ek n c →
    GetExpiringBlock btl n c (committingBlk ek) = inr (expiringBlk ek) ∧
    neverExpires (expiringBlk ek) = false.
Proof.
  induction 1 as [| s blockNum pvtData missingPvtData writeOk Hs IH
                  | s blocksPvtData writeOk Hs IH
                  | s minBlkNum maxBlkNum writeOk Hs IH];
    intros ek n c (ed & Hd & Hm).
  - simpl in Hd. by rewrite lookup_empty in Hd.
  - pose proof (reachable_btlPolicy _ _ Hs) as Hbtl.
    destruct (Commit_expiry_lookup s blockNum pvtData missingPvtData writeOk ek)
      as [Heq | (ed' & Hd' & Hblk & Hne & Hall)].
    + rewrite Heq in Hd. apply IH. by exists ed.
    + rewrite Hd' in Hd. injection Hd as ->. rewrite Hblk, <- Hbtl. split; [| done].
      by apply Hall.
  - pose proof (reachable_btlPolicy _ _ Hs) as Hbtl.
    destruct (CommitPvtDataOfOldBlocks_expiry_lookup s blocksPvtData writeOk ek)
      as [Heq | (ed' & ed0 & Hd' & Hd0 & Hne & Hall)].
    + rewrite Heq in Hd. apply IH. by exists ed.
    + rewrite Hd' in Hd. injection Hd as ->.
      destruct (Hall n c Hm) as [Hm0 | Hpol].
      * apply IH. by exists ed0.
      * by rewrite <- Hbtl.
  - apply purgeExpiredData_subseteq in Hd. apply IH. by exists ed.
Qed.

(** A sweep leaves alone the data entries that no expiry entry of its window
    lists. *)
Lemma purgeExpiredData_frame_window (s : Store) (minBlkNum maxBlkNum : N)
    (writeOk : nat → bool) (dk : dataKey) :
  (∀ ek, minBlkNum ≤ expiringBlk ek ≤ maxBlkNum →
         committingBlk ek = blkNum (dataNsCollBlk dk) →
         ¬ dbMentions (db s) ek (ns (dataNsCollBlk dk)) (coll (dataNsCollBlk dk))) →
  db (purgeExpiredData s minBlkNum maxBlkNum writeOk).1 !! KData dk = db s !! KData dk.
Proof.
  intros Hnone. unfold purgeExpiredData.
  destruct (retrieveExpiryEntries _ _ _) as [[| e l] | err] eqn:Er; [done | | done].
  cbn [fst setDB db]. apply purgeLoop_frame; [| unfold NewUpdateBatch; by rewrite lookup_empty].
  intros e' He' [Hblk Hm]%deriveKeys_data.
  apply (Hnone (expiryEntryKey e')); [| done |].
  - apply (retrieveExpiryEntries_keys s minBlkNum maxBlkNum (e :: l)); [done |].
    by apply list_elem_of_fmap_2.
  - exists (expiryEntryValue e'). split; [| done].
    by apply (retrieveExpiryEntries_values s minBlkNum maxBlkNum (e :: l)).
Qed.

(** X26. A purge does not change what a read returns.  In a running store,
    after a sweep of a window that ends at or below the last committed
    block, whatever the storage layer answers to the writes,
    [GetPvtDataByBlockNum] returns the same collection write-sets, under the
    same transaction numbers and namespaces, as before the sweep: what the
    sweep deletes was expired for the read path already. *)
Theorem purgeExpiredData_invisible_to_reads (v11Format : Key → string + bool)
    (v11RetrievePvtdata : list (Key * Value) → PvtNsCollFilter → string + list TxPvtData)
    (btl : BTLPolicy) (s : Store) (minBlkNum maxBlkNum : N) (writeOk : nat → bool)
    (blockNum : N) (collFilter : PvtNsCollFilter) :
  reachable btl s →
  maxBlkNum ≤ lastCommittedBlock s →
  (∀ key, is_Some (db s !! KData key) → blkNum (dataNsCollBlk key) = blockNum →
          v11Format (KData key) = inr false) →
  let s' := (purgeExpiredData s minBlkNum maxBlkNum writeOk).1 in
  ∀ out out',
    GetPvtDataByBlockNum v11Format v11RetrievePvtdata s blockNum collFilter = Ok out →
    GetPvtDataByBlockNum v11Format v11RetrievePvtdata s' blockNum collFilter = Ok out' →
    ∀ x, x ∈ flattenPvtData out' ↔ x ∈ flattenPvtData out.
Proof.
  intros Hreach Hmax Hv11 s' out out' Hout Hout' x.
  pose proof (reachable_btlPolicy _ _ Hreach) as Hbtl.
  assert (Hv11' : ∀ key, is_Some (db s' !! KData key) →
                         blkNum (dataNsCollBlk key) = blockNum →
                         v11Format (KData key) = inr false).
  { intros key [v Hv] Hb. apply Hv11; [| done].
    apply purgeExpiredData_subseteq in Hv. eauto. }
  rewrite (GetPvtDataByBlockNum_flatten _ _ _ _ _ _ Hv11 Hout).
  rewrite (GetPvtDataByBlockNum_flatten _ _ _ _ _ _ Hv11' Hout').
  destruct (purgeExpiredData_counters s minBlkNum maxBlkNum writeOk) as (_ & Hlast & _).
  fold s' in Hlast. rewrite Hlast.
  assert (Hread : ∀ kv, readable s' collFilter (lastCommittedBlock s) kv
                        = readable s collFilter (lastCommittedBlock s) kv).
  { intros kv. unfold readable. subst s'. by rewrite purgeExpiredData_btlPolicy. }
  rewrite !list_elem_of_omap. split.
  - intros ([key v] & [Hd Hb]%elem_of_data_scan & Hr).
    exists (key, v). split; [| by rewrite <- Hread].
    apply elem_of_data_scan. split; [| done]. by apply purgeExpiredData_subseteq in Hd.
  - intros ([key v] & [Hd Hb]%elem_of_data_scan & Hr).
    exists (key, v). split; [| by rewrite Hread].
    apply elem_of_data_scan. split; [| done]. subst s'.
    rewrite purgeExpiredData_frame_window; [done |].
    intros ek [_ Hwin] Hblk Hm.
    destruct (reachable_expiry_policy _ _ Hreach _ _ _ Hm) as [Hpol Hne].
    unfold readable in Hr. cbn [fst snd] in Hr. unfold isExpired in Hr.
    rewrite Hbtl, <- Hblk, Hpol in Hr. cbn [lift mbind res_bind] in Hr.
    rewrite Hne in Hr. cbn [negb andb] in Hr.
    assert ((expiringBlk ek <=? lastCommittedBlock s) = true) as Hle
      by (apply N.leb_le; lia).
    by rewrite Hle in Hr.
Qed.

Lemma purgeExpiredData_invisible_to_reads_witness :
  (3, "ns1", sampleColl "coll2") ∈ flattenPvtData sampleReadAfterPurge ↔
  (3, "ns1", sampleColl "coll2") ∈ flattenPvtData sampleReadBeforePurge.
Proof.
  assert (Hreach : reachable samplePolicy sampleStore2).
  { unfold sampleStore2, sampleStore1, sampleStore0, storeAfter.
    do 3 apply (reachable_Commit samplePolicy). apply reachable_new. }
  assert (Hmax : 2 ≤ lastCommittedBlock sampleStore2) by (vm_compute; discriminate).
  assert (Hout : GetPvtDataByBlockNum noV11Format noV11RetrievePvtdata sampleStore2 0 None
                 = Ok sampleReadBeforePurge) by (vm_compute; reflexivity).
  assert (Hout' : GetPvtDataByBlockNum noV11Format noV11RetrievePvtdata
                    (purgeExpiredData sampleStore2 0 2 alwaysOk).1 0 None
                  = Ok sampleReadAfterPurge) by (vm_compute; reflexivity).
  exact (purgeExpiredData_invisible_to_reads noV11Format noV11RetrievePvtdata samplePolicy
           sampleStore2 0 2 alwaysOk 0 None Hreach Hmax (λ _ _ _, eq_refl)
           sampleReadBeforePurge sampleReadAfterPurge Hout Hout'
           (3, "ns1", sampleColl "coll2")).
Defined.


(** ** What a removal removes *)

Section Removal.

Import Reconciliation.

Lemma removeCollFromList_first (c1 c2 : list CollectionPvtReadWriteSet)
    (c : CollectionPvtReadWriteSet) (collName : string) :
  (∀ c', c' ∈ c1 → CollectionName c' ≠ collName) → CollectionName c = collName →
  removeCollFromList (c1 ++ c :: c2) collName = c1 ++ c2.
Proof.
  intros Hc1 Hc. induction c1 as [| c0 c1 IH]; simpl.
  - by rewrite decide_True.
  - rewrite decide_False by (apply Hc1; by left).
    rewrite IH; [done |]. intros c' Hc'. apply Hc1. by right.
Qed.

Lemma removeCollFromList_absent (cs : list CollectionPvtReadWriteSet) (collName : string) :
  (∀ c, c ∈ cs → CollectionName c ≠ collName) → removeCollFromList cs collName = cs.
Proof.
  intros Hcs. induction cs as [| c0 cs IH]; simpl; [done |].
  rewrite decide_False by (apply Hcs; by left).
  rewrite IH; [done |]. intros c' Hc'. apply Hcs. by right.
Qed.

(** X28. [removeCollFromTxPvtReadWriteSet] works on the first namespace
    entry of the given name and on the first collection of the given name in
    it, and on nothing else: the collection is cut out, the entry is dropped
    when it is then without collections (also when it had none to begin
    with), and the entries behind it stay as they are, those of the same
    name included.  Without an entry of that name the write-set is
    unchanged. *)
Theorem removeCollFromTxPvtReadWriteSet_first_match (ns' coll' : string) :
  (∀ l, (∀ y, y ∈ l → Namespace y ≠ ns') →
        removeCollFromTxPvtReadWriteSet {| NsPvtRwset := l |} ns' coll'
          = {| NsPvtRwset := l |}) ∧
  (∀ l1 x l2, (∀ y, y ∈ l1 → Namespace y ≠ ns') → Namespace x = ns' →
     (∀ c, c ∈ CollectionPvtRwset x → CollectionName c ≠ coll') →
     removeCollFromTxPvtReadWriteSet {| NsPvtRwset := l1 ++ x :: l2 |} ns' coll'
       = {| NsPvtRwset := l1 ++ (if decide (CollectionPvtRwset x = []) then []
                                 else [x]) ++ l2 |}) ∧
  (∀ l1 x l2 c1 c c2, (∀ y, y ∈ l1 → Namespace y ≠ ns') → Namespace x = ns' →
     CollectionPvtRwset x = c1 ++ c :: c2 →
     (∀ c', c' ∈ c1 → CollectionName c' ≠ coll') → CollectionName c = coll' →
     removeCollFromTxPvtReadWriteSet {| NsPvtRwset := l1 ++ x :: l2 |} ns' coll'
       = {| NsPvtRwset :=
              l1 ++ (if decide (c1 ++ c2 = []) then []
                     else [ {| Namespace := ns'; CollectionPvtRwset := c1 ++ c2 |} ])
                 ++ l2 |}).
Proof.
  unfold removeCollFromTxPvtReadWriteSet. cbn [NsPvtRwset].
  assert (Hskip : ∀ l1 l, (∀ y, y ∈ l1 → Namespace y ≠ ns') →
            removeCollFromNsList (l1 ++ l) ns' coll' = l1 ++ removeCollFromNsList l ns' coll').
  { intros l1 l Hl1. induction l1 as [| y l1 IH]; simpl; [done |].
    rewrite decide_False by (apply Hl1; by left).
    rewrite IH; [done |]. intros y' Hy'. apply Hl1. by right. }
  split; [| split].
  - intros l Hl. f_equal. rewrite <- (app_nil_r l) at 1. rewrite Hskip by done.
    simpl. by rewrite app_nil_r.
  - intros l1 x l2 Hl1 Hx Hcs. f_equal. rewrite Hskip by done. f_equal. simpl.
    rewrite decide_True by done. unfold removeCollFromNsPvtWriteSet. cbn [CollectionPvtRwset].
    rewrite removeCollFromList_absent by done.
    destruct x as [n cs]. cbn [CollectionPvtRwset Namespace] in *.
    destruct cs; [done |]. rewrite decide_False by done. by rewrite decide_False.
  - intros l1 x l2 c1 c c2 Hl1 Hx Hcs Hc1 Hc. f_equal. rewrite Hskip by done. f_equal.
    simpl. rewrite decide_True by done. unfold removeCollFromNsPvtWriteSet.
    cbn [CollectionPvtRwset]. rewrite Hcs, removeCollFromList_first by done.
    rewrite Hx. destruct (c1 ++ c2) eqn:E; [done |].
    rewrite decide_False by done. by rewrite decide_False.
Qed.

End Removal.

(** ** What a read returns, exactly *)

(** X29. [GetPvtDataByBlockNum] returns exactly the stored data of the block
    that is not expired and passes the filter (no entry of the block being in
    the v1.1 format): a collection write-set is in the result under a
    transaction number and a namespace if and only if it is the value of a
    data entry of that block, transaction and namespace that passes the
    filter and is not expired at the last committed block. *)
Theorem GetPvtDataByBlockNum_exact (v11Format : Key → string + bool)
    (v11RetrievePvtdata : list (Key * Value) → PvtNsCollFilter → string + list TxPvtData)
    (s : Store) (blockNum : N) (collFilter : PvtNsCollFilter) (out : list TxPvtData) :
  (∀ key, is_Some (db s !! KData key) → blkNum (dataNsCollBlk key) = blockNum →
          v11Format (KData key) = inr false) →
  GetPvtDataByBlockNum v11Format v11RetrievePvtdata s blockNum collFilter = Ok out →
  ∀ tx n c,
    (tx, n, c) ∈ flattenPvtData out ↔
    ∃ key, db s !! KData key = Some (VData c) ∧
           blkNum (dataNsCollBlk key) = blockNum ∧ txNum key = tx ∧
           ns (dataNsCollBlk key) = n ∧
           passesFilter key collFilter = true ∧
           isExpired (dataNsCollBlk key) (btlPolicy s) (lastCommittedBlock s) = Ok false.
Proof.
  intros Hv11 Hout tx n c.
  rewrite (GetPvtDataByBlockNum_flatten _ _ _ _ _ _ Hv11 Hout), list_elem_of_omap. split.
  - intros ([key v] & [Hd Hb]%elem_of_data_scan & Hr).
    unfold readable in Hr. cbn [fst snd] in Hr.
    destruct (isExpired (dataNsCollBlk key) (btlPolicy s) (lastCommittedBlock s))
      as [[|] |] eqn:Hexp; try done.
    destruct (passesFilter key collFilter) eqn:Hpass; [| done].
    destruct v as [c' | | | |]; try done. injection Hr as <- <- <-.
    exists key. done.
  - intros (key & Hd & Hb & <- & <- & Hpass & Hexp).
    exists (key, VData c). split; [by apply elem_of_data_scan |].
    unfold readable. cbn [fst snd]. by rewrite Hexp, Hpass.
Qed.

Lemma GetPvtDataByBlockNum_exact_witness :
  (3, "ns1", sampleColl "coll2") ∈ flattenPvtData sampleReadBeforePurge ↔
  ∃ key, db sampleStore2 !! KData key = Some (VData (sampleColl "coll2")) ∧
         blkNum (dataNsCollBlk key) = 0 ∧ txNum key = 3 ∧
         ns (dataNsCollBlk key) = "ns1" ∧
         passesFilter key None = true ∧
         isExpired (dataNsCollBlk key) (btlPolicy sampleStore2)
           (lastCommittedBlock sampleStore2) = Ok false.
Proof.
  assert (Hout : GetPvtDataByBlockNum noV11Format noV11RetrievePvtdata sampleStore2 0 None
                 = Ok sampleReadBeforePurge) by (vm_compute; reflexivity).
  exact (GetPvtDataByBlockNum_exact noV11Format noV11RetrievePvtdata sampleStore2 0 None
           sampleReadBeforePurge (λ _ _ _, eq_refl) Hout 3 "ns1" (sampleColl "coll2")).
Defined.
